(** * A shallow embedding of the download / transcode / mux / cleanup pipeline

    The development follows the TypeScript sources under [src/server/utils]:
    [fileManager.ts] (class [FileManager]), [youtubeStreamManager.ts]
    (class [YoutubeStreamManager]), [mediaManager.ts] (class
    [MediaProcessor]) and [youtubeDownloader.ts] (class [YoutubeDownloader]),
    and, next to them, the earlier one-class implementation of the same
    pipeline, [ytdl.ts].

    Asynchronous code is written in a state-and-exception monad over a
    [world] that holds the file system, the backend processes that are
    alive, the events delivered to the progress sink and a log of every
    call that leaves the program (file system, network, transcoding
    backend).  The collaborators the repository does not contain (ytdl-core,
    ffmpeg, the operating system) are read from the [externals] record of
    the world.  Numbers are exact (integers and fractions), with [None] for
    NaN and the infinities; console output is left out. *)

From Stdlib Require Import ZArith QArith String Ascii List Bool Lia Sorted.
From stdpp Require Import base gmap strings pretty list.

Open Scope Z_scope.

(** ** JavaScript values *)

(** [new Error(message)] and the repository's [CleanupError], which keeps the
    errors it aggregates ([fileManager.ts], lines 15-24). *)
Inductive jsError : Type :=
| Error (message : string)
| CleanupError (errors : list string).   (* the messages of [errors] *)

Definition newline : string := String "010"%char EmptyString.

(** [xs.join(sep)] *)
Fixpoint join (sep : string) (xs : list string) : string :=
  match xs with
  | [] => EmptyString
  | [x] => x
  | x :: rest => x +:+ sep +:+ join sep rest
  end.

(** The [message] property: for [CleanupError] it is the text built by the
    constructor of the class. *)
Definition error_message (e : jsError) : string :=
  match e with
  | Error m => m
  | CleanupError errors =>
      "Multiple errors occurred during cleanup:" +:+ newline +:+
      join newline (map (fun m => "- " +:+ m) errors)
  end.

(** [a || b] on an optional string: [undefined] and the empty string are
    falsy. *)
Definition or_default (a : option string) (b : string) : string :=
  match a with
  | Some EmptyString | None => b
  | Some s => s
  end.

(** ** The world *)

Inductive node : Type := File | Dir.

Inductive job : Type := VideoJob | AudioJob | CombineJob.

#[global] Instance job_eq_dec : EqDecision job.
Proof. solve_decision. Defined.

#[global] Instance node_eq_dec : EqDecision node.
Proof. solve_decision. Defined.

(** What one ffmpeg command was asked to do (the fluent-ffmpeg builder calls
    of [mediaManager.ts]). *)
Inductive ffmpegInput : Type :=
| StreamInput (itag : Z)
| FileInput (path : string).

Record ffmpegCommand : Type := {
  cmd_inputs : list ffmpegInput;
  cmd_videoCodec : option string;
  cmd_videoBitrate : option string;
  cmd_fps : option Z;
  cmd_audioCodec : option string;
  cmd_audioBitrate : option string;
  cmd_outputOptions : list string;
  cmd_format : option string
}.

(** The streams of a run: the download opened for a format, the pass-through
    in front of a transcode, the output stream of the earlier
    implementation, and the read stream that its cleanup opens on a file. *)
Inductive streamRef : Type :=
| DownloadStream (itag : Z)
| PassThroughStream (j : job)
| OutputStream
| FileReadStream (p : string).

(** Calls that leave the program.  [CallDestroy] is [stream.destroy()] and
    [CallCreateReadStream] is [fs.createReadStream]; of the code modelled
    here only [ytdl.ts] makes them. *)
Inductive call : Type :=
| CallExistsSync (p : string)
| CallMkdir (p : string)
| CallUnlink (p : string)
| CallReaddir (p : string)
| CallRm (p : string)
| CallRmdir (p : string)
| CallCreateReadStream (p : string)
| CallGetBasicInfo (url : string)
| CallGetInfo (url : string)
| CallYtdl (url : string) (itag : Z)
| CallFfmpegSave (j : job) (c : ffmpegCommand) (outputPath : string)
| CallFfmpegStream (j : job) (c : ffmpegCommand)
| CallDestroy (s : streamRef).

(** Progress records of the three layers. *)
Record DownloadProgress : Type := {
  downloadedBytes : Z;
  totalBytes : option Z;          (* [None] is NaN *)
  percentage : option Q           (* [None] is NaN or an infinity *)
}.

Inductive ProcessingStage : Type := StageVideo | StageAudio | StageCombining.

Record ProcessingProgress : Type := {
  stage : ProcessingStage;
  percent : Q;
  timemark : option string
}.

Inductive DownloaderState : Type := StateDownloading | StateProcessing.

Record DownloaderProgress : Type := {
  state : DownloaderState;
  downloadProgress : option (option Q)   (* absent, or a percentage *)
}.

Inductive progressEvent : Type :=
| EvDownload (p : DownloadProgress)
| EvProcessing (p : ProcessingProgress)
| EvDownloader (p : DownloaderProgress).

(** A progress callback is known by the events it hands to the sink. *)
Definition callback (P : Type) : Type := P -> list progressEvent.

(** ytdl-core's format descriptor, as far as this code reads it. *)
Record videoFormat : Type := {
  itag : Z;
  qualityLabel : option string;
  hasAudio : bool;
  hasVideo : bool;
  container : option string;
  contentLength : option string
}.

Record videoDetails : Type := {
  vd_title : string;
  vd_thumbnail : option string;
  vd_lengthSeconds : string;
  vd_author : string
}.

Inductive result (A : Type) : Type :=
| Return (a : A)
| Throw (e : jsError).
Arguments Return {A} a.
Arguments Throw {A} e.

(** One run of the transcoding backend, as the environment decides it: the
    sizes of the chunks it pulls from its input stream, the progress ticks it
    reports ([percent], possibly undefined, and [timemark]), whether a file
    was written to the output path, and the error it ends with, if any. *)
Record backendRun : Type := {
  br_chunks : list Z;
  br_ticks : list (option Q * option string);
  br_wrote : bool;
  br_error : option string
}.

Record externals : Type := {
  ext_tmpdir : string;                                   (* os.tmpdir() *)
  ext_getBasicInfo : string -> result (option videoDetails);
  ext_getInfo : string -> result (list videoFormat);
  ext_chooseFormat :
    list videoFormat -> string -> result (option videoFormat);
  ext_ffmpeg : job -> backendRun;
  ext_schedule : list bool    (* which of two pending promises moves next *)
}.

Record world : Type := {
  fs : gmap string node;       (* the paths that exist *)
  denied : gset string;        (* paths the OS refuses to create or remove *)
  now : Z;                     (* Date.now() *)
  running : list job;          (* backend processes alive *)
  sink : list progressEvent;   (* events delivered so far, oldest first *)
  calls : list call;           (* calls made so far, oldest first *)
  ext : externals
}.

Definition set_fs (f : gmap string node) (w : world) : world :=
  {| fs := f; denied := denied w; now := now w; running := running w;
     sink := sink w; calls := calls w; ext := ext w |}.

Definition set_running (r : list job) (w : world) : world :=
  {| fs := fs w; denied := denied w; now := now w; running := r;
     sink := sink w; calls := calls w; ext := ext w |}.

Definition add_sink (es : list progressEvent) (w : world) : world :=
  {| fs := fs w; denied := denied w; now := now w; running := running w;
     sink := sink w ++ es; calls := calls w; ext := ext w |}.

Definition add_call (c : call) (w : world) : world :=
  {| fs := fs w; denied := denied w; now := now w; running := running w;
     sink := sink w; calls := calls w ++ [c]; ext := ext w |}.

(** ** The monad of asynchronous code *)

Definition M (A : Type) : Type := world -> result A * world.

Definition ret {A} (a : A) : M A := fun w => (Return a, w).

Definition throw {A} (e : jsError) : M A := fun w => (Throw e, w).

Definition bind {A B} (m : M A) (k : A -> M B) : M B :=
  fun w =>
    match m w with
    | (Return a, w') => k a w'
    | (Throw e, w') => (Throw e, w')
    end.

(** [try { m } catch (error) { h error }] *)
Definition try_catch {A} (m : M A) (h : jsError -> M A) : M A :=
  fun w =>
    match m w with
    | (Return a, w') => (Return a, w')
    | (Throw e, w') => h e w'
    end.

Definition lift {A} (r : result A) : M A := fun w => (r, w).

Definition read {A} (f : world -> A) : M A := fun w => (Return (f w), w).

Definition modify (f : world -> world) : M unit := fun w => (Return tt, f w).

Definition log (c : call) : M unit := modify (add_call c).

Notation "'do' x <- m ; k" := (bind m (fun x => k))
  (at level 10, x name, m at level 100, k at level 200).
Notation "'run' m ; k" := (bind m (fun _ => k))
  (at level 10, m at level 100, k at level 200).

(** [cb(p)] for an optional callback. *)
Definition invoke {P} (cb : option (callback P)) (p : P) : M unit :=
  match cb with
  | Some f => modify (add_sink (f p))
  | None => ret tt
  end.

(** ** Node's [fs] and [path], as far as the code uses them

    A path exists when it is a key of [fs]; the entries of a directory are
    the keys that extend it by a separator.  An operation that the operating
    system refuses (a path in [denied]) throws and leaves the file system as
    it was. *)

Definition path_join (a b : string) : string := a +:+ "/" +:+ b.

Definition inside (dir p : string) : bool := String.prefix (dir +:+ "/") p.

Definition within (dir p : string) : bool :=
  bool_decide (p = dir) || inside dir p.

Definition fs_error (code syscall p : string) : jsError :=
  Error (code +:+ ": " +:+ syscall +:+ " '" +:+ p +:+ "'").

Definition fs_existsSync (p : string) : M bool :=
  run log (CallExistsSync p);
  read (fun w => bool_decide (is_Some (fs w !! p))).

(** [fs.promises.mkdir(p, { recursive: true })] where the parent of [p] is
    a directory: [p] is made, or is a directory already.  The ancestors
    that the option makes when they are missing are not modelled; a
    statement about what [mkdir] makes or leaves alone asks for the
    parent. *)
Definition fs_mkdir_recursive (p : string) : M unit :=
  run log (CallMkdir p);
  fun w =>
    match fs w !! p with
    | Some File => (Throw (fs_error "EEXIST" "mkdir" p), w)
    | Some Dir => (Return tt, w)
    | None =>
        if bool_decide (p ∈ denied w)
        then (Throw (fs_error "EACCES" "mkdir" p), w)
        else (Return tt, set_fs (<[p := Dir]> (fs w)) w)
    end.

Definition fs_unlink (p : string) : M unit :=
  run log (CallUnlink p);
  fun w =>
    match fs w !! p with
    | None => (Throw (fs_error "ENOENT" "unlink" p), w)
    | Some Dir => (Throw (fs_error "EISDIR" "unlink" p), w)
    | Some File =>
        if bool_decide (p ∈ denied w)
        then (Throw (fs_error "EPERM" "unlink" p), w)
        else (Return tt, set_fs (delete p (fs w)) w)
    end.

(** The paths below a directory, at any depth; the code only asks whether
    there are any. *)
Definition entries (dir : string) (f : gmap string node) : list string :=
  (map_to_list (filter (fun kv => inside dir kv.1 = true) f)).*1.

Definition fs_readdir (p : string) : M (list string) :=
  run log (CallReaddir p);
  fun w =>
    match fs w !! p with
    | None => (Throw (fs_error "ENOENT" "scandir" p), w)
    | Some File => (Throw (fs_error "ENOTDIR" "scandir" p), w)
    | Some Dir => (Return (entries p (fs w)), w)
    end.

Definition fs_rmdir (p : string) : M unit :=
  run log (CallRmdir p);
  fun w =>
    match fs w !! p with
    | None => (Throw (fs_error "ENOENT" "rmdir" p), w)
    | Some File => (Throw (fs_error "ENOTDIR" "rmdir" p), w)
    | Some Dir =>
        match entries p (fs w) with
        | _ :: _ => (Throw (fs_error "ENOTEMPTY" "rmdir" p), w)
        | [] =>
            if bool_decide (p ∈ denied w)
            then (Throw (fs_error "EPERM" "rmdir" p), w)
            else (Return tt, set_fs (delete p (fs w)) w)
        end
    end.

(** The existing paths at or below [p] that the system refuses to remove. *)
Definition blocked (p : string) (w : world) : gset string :=
  filter (fun q => within p q = true) (denied w ∩ dom (fs w)).

(** [fs.promises.rm(p, { recursive: true, force: true })].  A removal that
    fails is modelled as leaving everything in place; the real one may have
    removed some of what is below [p] by then. *)
Definition fs_rm_recursive_force (p : string) : M unit :=
  run log (CallRm p);
  fun w =>
    if bool_decide (blocked p w = ∅)
    then (Return tt,
          set_fs (filter (fun kv => within p kv.1 = false) (fs w)) w)
    else (Throw (fs_error "EPERM" "rm" p), w).

(** ** fileManager.ts *)

Record TemporaryPaths : Type := {
  tempDir : string;
  videoPath : string;
  audioPath : string
}.

Record FileManager : Type := {
  timestamp : Z;
  baseTempDir : string
}.

(** [constructor(prefix = 'ytdownload')] *)
Definition new_FileManager (prefix : option string) : M FileManager :=
  let prefix := match prefix with Some p => p | None => "ytdownload" end in
  do t <- read now;
  do tmp <- read (fun w => ext_tmpdir (ext w));
  ret {| timestamp := t;
         baseTempDir := path_join tmp (prefix +:+ "_" +:+ pretty t) |}.

Definition createTemporaryPaths (this : FileManager) : M TemporaryPaths :=
  try_catch
    (run fs_mkdir_recursive (baseTempDir this);
     do ex <- fs_existsSync (baseTempDir this);
     if negb ex
     then throw (Error ("Failed to create temporary directory: " +:+
                        baseTempDir this))
     else ret {| tempDir := baseTempDir this;
                 videoPath := path_join (baseTempDir this)
                   ("temp_video_" +:+ pretty (timestamp this) +:+ ".mp4");
                 audioPath := path_join (baseTempDir this)
                   ("temp_audio_" +:+ pretty (timestamp this) +:+ ".aac") |})
    (fun error =>
       throw (Error ("Failed to create temporary paths: " +:+
                     error_message error))).

Fixpoint verify_each (filesToCheck : list (string * string)) : M unit :=
  match filesToCheck with
  | [] => ret tt
  | (path, name) :: rest =>
      do ex <- fs_existsSync path;
      if negb ex
      then throw (Error (name +:+ " not found at " +:+ path))
      else verify_each rest
  end.

Definition verifyTemporaryFiles (paths : TemporaryPaths) : M unit :=
  verify_each [ (videoPath paths, "Temporary video file");
                (audioPath paths, "Temporary audio file") ].

Definition verifyOutputFile (outputPath : string) : M unit :=
  do ex <- fs_existsSync outputPath;
  if negb ex
  then throw (Error ("Output file not found at " +:+ outputPath))
  else ret tt.

(** The first loop of [cleanupTemporaryFiles], and its body; [errors] is the
    array the loop pushes to. *)
Definition cleanup_file (filePath : string) (errors : list string)
  : M (list string) :=
  try_catch
    (do ex <- fs_existsSync filePath;
     if ex then (run fs_unlink filePath; ret errors) else ret errors)
    (fun error =>
       ret (errors ++ ["Failed to delete temporary file " +:+ filePath
                       +:+ ": " +:+ error_message error])).

Fixpoint cleanup_files (files : list string) (errors : list string)
  : M (list string) :=
  match files with
  | [] => ret errors
  | filePath :: rest =>
      do errors' <- cleanup_file filePath errors;
      cleanup_files rest errors'
  end.

Definition cleanup_dir (dir : string) (errors : list string)
  : M (list string) :=
  try_catch
    (do ex <- fs_existsSync dir;
     if ex
     then (do dirContents <- fs_readdir dir;
           if (0 <? Z.of_nat (length dirContents))
           then (run fs_rm_recursive_force dir; ret errors)
           else (run fs_rmdir dir; ret errors))
     else ret errors)
    (fun error =>
       ret (errors ++ ["Failed to remove temporary directory " +:+ dir
                       +:+ ": " +:+ error_message error])).

Definition cleanupTemporaryFiles (paths : TemporaryPaths) : M unit :=
  do errors <- cleanup_files [videoPath paths; audioPath paths] [];
  do errors <- cleanup_dir (tempDir paths) errors;
  if (0 <? Z.of_nat (length errors))
  then throw (CleanupError errors)
  else ret tt.

(** ** Regular expressions

    [youtubeRegex.test(url)] with a pattern anchored at both ends and no
    flags is membership of the whole string in the language of the pattern;
    it is computed here with derivatives.  Characters are the code units
    below 256; [.] matches every one of them that is not a line
    terminator. *)

Module Regex.

Inductive regex : Type :=
| Never
| Eps
| Chr (c : ascii)
| Dot
| Seq (r s : regex)
| Alt (r s : regex)
| Star (r : regex).

Definition Opt (r : regex) : regex := Alt r Eps.

Definition Plus (r : regex) : regex := Seq r (Star r).

Fixpoint Lit (s : string) : regex :=
  match s with
  | EmptyString => Eps
  | String c s' => Seq (Chr c) (Lit s')
  end.

Definition line_terminator (c : ascii) : bool :=
  (c =? "010")%char || (c =? "013")%char.

Fixpoint nullable (r : regex) : bool :=
  match r with
  | Never | Chr _ | Dot => false
  | Eps | Star _ => true
  | Seq r s => nullable r && nullable s
  | Alt r s => nullable r || nullable s
  end.

Fixpoint deriv (c : ascii) (r : regex) : regex :=
  match r with
  | Never | Eps => Never
  | Chr d => if (c =? d)%char then Eps else Never
  | Dot => if line_terminator c then Never else Eps
  | Seq r s =>
      if nullable r
      then Alt (Seq (deriv c r) s) (deriv c s)
      else Seq (deriv c r) s
  | Alt r s => Alt (deriv c r) (deriv c s)
  | Star r => Seq (deriv c r) (Star r)
  end.

Fixpoint test (r : regex) (s : string) : bool :=
  match s with
  | EmptyString => nullable r
  | String c s' => test (deriv c r) s'
  end.

(** The language of a pattern. *)
Inductive matches : regex -> string -> Prop :=
| m_eps : matches Eps EmptyString
| m_chr c : matches (Chr c) (String c EmptyString)
| m_dot c : line_terminator c = false -> matches Dot (String c EmptyString)
| m_seq r s u v : matches r u -> matches s v -> matches (Seq r s) (u +:+ v)
| m_alt_l r s u : matches r u -> matches (Alt r s) u
| m_alt_r r s u : matches s u -> matches (Alt r s) u
| m_star_nil r : matches (Star r) EmptyString
| m_star_cons r u v :
    matches r u -> matches (Star r) v -> matches (Star r) (u +:+ v).

End Regex.

(** ** youtubeStreamManager.ts *)

(** [/^(https?:\/\/)?(www\.)?(youtube\.com|youtu\.be)\/.+$/] *)
Definition youtubeRegex : Regex.regex :=
  Regex.Seq (Regex.Opt (Regex.Seq (Regex.Lit "http")
               (Regex.Seq (Regex.Opt (Regex.Chr "s")) (Regex.Lit "://"))))
  (Regex.Seq (Regex.Opt (Regex.Lit "www."))
  (Regex.Seq (Regex.Alt (Regex.Lit "youtube.com") (Regex.Lit "youtu.be"))
  (Regex.Seq (Regex.Chr "/") (Regex.Plus Regex.Dot)))).

(** [private static validateUrl(url: string): boolean] touches nothing but
    its argument. *)
Definition validateUrl (url : string) : result bool :=
  match url with
  | EmptyString => Throw (Error "URL cannot be empty or undefined")
  | _ => Return (Regex.test youtubeRegex url)
  end.


(** [parseInt(s)]: leading white space, a sign, a [0x] prefix, then the
    longest run of digits of the radix; [None] is NaN.  (Exact while the
    value stays below 2^53.) *)
Definition is_white_space (c : ascii) : bool :=
  let n := nat_of_ascii c in
  ((9 <=? n) && (n <=? 13))%nat || (n =? 32)%nat || (n =? 160)%nat.

Fixpoint trim_start (s : string) : string :=
  match s with
  | String c s' => if is_white_space c then trim_start s' else s
  | EmptyString => s
  end.

Definition digit_value (c : ascii) : option Z :=
  let n := Z.of_nat (nat_of_ascii c) in
  if (48 <=? n) && (n <=? 57) then Some (n - 48)
  else if (97 <=? n) && (n <=? 122) then Some (n - 87)
  else if (65 <=? n) && (n <=? 90) then Some (n - 55)
  else None.

Fixpoint parse_digits (radix : Z) (s : string) (acc : option Z) : option Z :=
  match s with
  | EmptyString => acc
  | String c s' =>
      match digit_value c with
      | Some d =>
          if d <? radix
          then parse_digits radix s'
                 (Some (match acc with Some a => a * radix + d | None => d end))
          else acc
      | None => acc
      end
  end.

Definition parseInt (s : string) : option Z :=
  let s := trim_start s in
  let '(negative, s) :=
    match s with
    | String "-" s' => (true, s')
    | String "+" s' => (false, s')
    | _ => (false, s)
    end in
  let '(radix, s) :=
    match s with
    | String "0" (String "x" s') | String "0" (String "X" s') => (16, s')
    | _ => (10, s)
    end in
  (fun v : Z => if negative then - v else v) <$> parse_digits radix s None.

(** [a + b] on numbers that may be NaN. *)
Definition number_add (a b : option Z) : option Z :=
  match a, b with
  | Some x, Some y => Some (x + y)
  | _, _ => None
  end.

(** [(downloadedBytes / totalBytes) * 100], as an exact fraction; a zero or
    NaN total gives no finite number. *)
Definition percentage_of (downloaded : Z) (total : option Z) : option Q :=
  match total with
  | Some t =>
      if t =? 0 then None
      else Some (Qred (inject_Z downloaded / inject_Z t * inject_Z 100))
  | None => None
  end.

Record VideoInfo : Type := {
  title : string;
  thumbnail : string;
  duration : string;
  author : string
}.

(** The option bags of the three classes; TypeScript passes the downloader's
    bag to [createStreams] unchanged. *)
Record DownloadOptions : Type := {
  quality : option string;
  format : option string;
  videoCodec : option string;
  audioCodec : option string;
  videoBitrate : option string;
  audioBitrate : option string;
  fps : option Z;
  outputFormat : option string
}.

Record ProcessingOptions : Type := {
  po_videoCodec : option string;
  po_audioCodec : option string;
  po_outputFormat : option string;
  po_videoBitrate : option string;
  po_audioBitrate : option string;
  po_fps : option Z
}.

(** A readable stream made by [createProgressTrackingStream]: the format it
    was opened with and what its ['data'] listener closes over, the total,
    the callback and the counter [downloadedBytes] of that call. *)
Record Readable : Type := {
  rd_itag : Z;
  rd_totalBytes : option Z;
  rd_onProgress : option (callback DownloadProgress);
  rd_downloadedBytes : Z
}.

Definition getVideoInfo (url : string) : M VideoInfo :=
  try_catch
    (do valid <- lift (validateUrl url);
     if negb valid then throw (Error "Invalid YouTube URL provided")
     else
       run log (CallGetBasicInfo url);
       do info <- (fun w => (ext_getBasicInfo (ext w) url, w));
       match info with
       | None => throw (Error "Failed to fetch video details")
       | Some d =>
           ret {| title := vd_title d;
                  thumbnail := default EmptyString (vd_thumbnail d);
                  duration := vd_lengthSeconds d;
                  author := vd_author d |}
       end)
    (fun error =>
       throw (Error ("Failed to get video info: " +:+ error_message error))).

Definition createProgressTrackingStream
    (url : string) (format : videoFormat) (totalBytes : option Z)
    (onProgress : option (callback DownloadProgress)) : M Readable :=
  run log (CallYtdl url (itag format));
  ret {| rd_itag := itag format;
         rd_totalBytes := totalBytes;
         rd_onProgress := onProgress;
         rd_downloadedBytes := 0 |}.

(** The ['data'] listener: [downloadedBytes += chunk.length], then the
    callback. *)
Definition on_data (s : Readable) (chunk_length : Z) : Readable :=
  {| rd_itag := rd_itag s;
     rd_totalBytes := rd_totalBytes s;
     rd_onProgress := rd_onProgress s;
     rd_downloadedBytes := rd_downloadedBytes s + chunk_length |}.

Definition progress_of (s : Readable) : DownloadProgress :=
  {| downloadedBytes := rd_downloadedBytes s;
     totalBytes := rd_totalBytes s;
     percentage := percentage_of (rd_downloadedBytes s) (rd_totalBytes s) |}.

(** What reading the stream to the end does, one step per chunk. *)
Fixpoint data_events (s : Readable) (chunks : list Z) : list (M unit) :=
  match chunks with
  | [] => []
  | chunk_length :: rest =>
      let s' := on_data s chunk_length in
      invoke (rd_onProgress s') (progress_of s') :: data_events s' rest
  end.

Record Streams : Type := {
  videoStream : Readable;
  audioStream : Readable;
  streams_totalBytes : option Z
}.

Definition createStreams (url : string) (options : DownloadOptions)
    (onProgress : option (callback DownloadProgress)) : M Streams :=
  try_catch
    (do valid <- lift (validateUrl url);
     if negb valid then throw (Error "Invalid YouTube URL provided")
     else
       run log (CallGetInfo url);
       do formats <- (fun w => (ext_getInfo (ext w) url, w));
       do videoFormat <-
         (fun w => (ext_chooseFormat (ext w)
                      (filter (fun f => hasVideo f = true) formats)
                      (or_default (quality options) "highest"), w));
       do audioFormat <-
         (fun w => (ext_chooseFormat (ext w)
                      (filter (fun f => hasAudio f = true) formats)
                      "highestaudio", w));
       match videoFormat, audioFormat with
       | Some videoFormat, Some audioFormat =>
           let totalBytes :=
             number_add
               (parseInt (or_default (contentLength videoFormat) "0"))
               (parseInt (or_default (contentLength audioFormat) "0")) in
           do videoStream <-
             createProgressTrackingStream url videoFormat totalBytes onProgress;
           do audioStream <-
             createProgressTrackingStream url audioFormat totalBytes onProgress;
           ret {| videoStream := videoStream;
                  audioStream := audioStream;
                  streams_totalBytes := totalBytes |}
       | _, _ => throw (Error "Could not find suitable video/audio formats")
       end)
    (fun error =>
       throw (Error ("Failed to create streams: " +:+ error_message error))).

(** ** mediaManager.ts *)

(** A pending promise is the list of the steps that are still to happen
    before it settles; a step that throws rejects it.  [await] runs them to
    the end. *)
Definition Promise : Type := list (M unit).

Fixpoint await (p : Promise) : M unit :=
  match p with
  | [] => ret tt
  | step :: rest => run step; await rest
  end.

(** [Promise.all([p, q])]: the steps of the two promises interleave as the
    scheduler decides ([true] moves [p]); the first step that throws rejects
    the whole, and the steps of the other promise that are left are not part
    of this computation any more.  Nothing here stops them. *)
Fixpoint interleave (schedule : list bool) (p q : Promise) : M unit :=
  match schedule with
  | [] => run await p; await q
  | true :: later =>
      match p with
      | [] => interleave later p q
      | step :: p' => run step; interleave later p' q
      end
  | false :: later =>
      match q with
      | [] => interleave later p q
      | step :: q' => run step; interleave later p q'
      end
  end.

Definition Promise_all (p q : Promise) : M unit :=
  do schedule <- read (fun w => ext_schedule (ext w));
  interleave schedule p q.

(** [command.on('progress', ...)]: one step per tick of the backend. *)
Definition progress_events (st : ProcessingStage)
    (onProgress : option (callback ProcessingProgress))
    (ticks : list (option Q * option string)) : list (M unit) :=
  map (fun tick : option Q * option string =>
         invoke onProgress
           {| stage := st;
              percent := default (inject_Z 0) tick.1;
              timemark := tick.2 |})
      ticks.

(** The ['end'] / ['error'] handlers: the process is gone, the file is
    there if the backend wrote it, the promise resolves or rejects. *)
Definition settle (j : job) (outputPath : string) (prefix : string) : M unit :=
  fun w =>
    let r := ext_ffmpeg (ext w) j in
    let w1 := if br_wrote r
              then set_fs (<[outputPath := File]> (fs w)) w else w in
    let w2 := set_running (filter (fun x => x <> j) (running w1)) w1 in
    match br_error r with
    | Some message => (Throw (Error (prefix +:+ message)), w2)
    | None => (Return tt, w2)
    end.

(** [.save(outputPath)] inside [new Promise(...)]: the process starts at
    once; the promise settles later. *)
Definition save (j : job) (command : ffmpegCommand) (outputPath : string)
    (input : list (M unit)) (st : ProcessingStage)
    (onProgress : option (callback ProcessingProgress)) (prefix : string)
  : M Promise :=
  run log (CallFfmpegSave j command outputPath);
  run modify (fun w => set_running (running w ++ [j]) w);
  do r <- read (fun w => ext_ffmpeg (ext w) j);
  ret (input ++ progress_events st onProgress (br_ticks r)
       ++ [settle j outputPath prefix]).

Definition processVideoStream (videoStream : Readable) (outputPath : string)
    (options : ProcessingOptions)
    (onProgress : option (callback ProcessingProgress)) : M Promise :=
  do r <- read (fun w => ext_ffmpeg (ext w) VideoJob);
  save VideoJob
    {| cmd_inputs := [StreamInput (rd_itag videoStream)];
       cmd_videoCodec := Some (or_default (po_videoCodec options) "copy");
       cmd_videoBitrate := Some (or_default (po_videoBitrate options) "1000k");
       cmd_fps := Some (match po_fps options with
                        | Some f => if f =? 0 then 30 else f
                        | None => 30
                        end);
       cmd_audioCodec := None;
       cmd_audioBitrate := None;
       cmd_outputOptions := [];
       cmd_format := None |}
    outputPath (data_events videoStream (br_chunks r)) StageVideo onProgress
    "Video processing failed: ".

Definition processAudioStream (audioStream : Readable) (outputPath : string)
    (options : ProcessingOptions)
    (onProgress : option (callback ProcessingProgress)) : M Promise :=
  do r <- read (fun w => ext_ffmpeg (ext w) AudioJob);
  save AudioJob
    {| cmd_inputs := [StreamInput (rd_itag audioStream)];
       cmd_videoCodec := None;
       cmd_videoBitrate := None;
       cmd_fps := None;
       cmd_audioCodec := Some (or_default (po_audioCodec options) "aac");
       cmd_audioBitrate := Some (or_default (po_audioBitrate options) "128k");
       cmd_outputOptions := [];
       cmd_format := None |}
    outputPath (data_events audioStream (br_chunks r)) StageAudio onProgress
    "Audio processing failed: ".

Definition combineStreams (videoPath audioPath outputPath : string)
    (options : ProcessingOptions)
    (onProgress : option (callback ProcessingProgress)) : M Promise :=
  save CombineJob
    {| cmd_inputs := [FileInput videoPath; FileInput audioPath];
       cmd_videoCodec := None;
       cmd_videoBitrate := None;
       cmd_fps := None;
       cmd_audioCodec := None;
       cmd_audioBitrate := None;
       cmd_outputOptions := ["-c:v copy"; "-c:a copy"];
       cmd_format := Some (or_default (po_outputFormat options) "matroska") |}
    outputPath [] StageCombining onProgress
    "Stream combination failed: ".

(** The [try] block of [processMedia]. *)
Definition processMedia_try (tempPaths : TemporaryPaths)
    (videoStream audioStream : Readable) (finalOutputPath : string)
    (options : ProcessingOptions)
    (onProgress : option (callback ProcessingProgress)) : M unit :=
  do video <- processVideoStream videoStream (videoPath tempPaths)
                options onProgress;
  do audio <- processAudioStream audioStream (audioPath tempPaths)
                options onProgress;
  run Promise_all video audio;
  run verifyTemporaryFiles tempPaths;
  do combined <- combineStreams (videoPath tempPaths) (audioPath tempPaths)
                   finalOutputPath options onProgress;
  run await combined;
  verifyOutputFile finalOutputPath.

Definition processMedia (fileManager : FileManager)
    (videoStream audioStream : Readable) (finalOutputPath : string)
    (options : ProcessingOptions)
    (onProgress : option (callback ProcessingProgress)) : M unit :=
  do tempPaths <- createTemporaryPaths fileManager;
  run try_catch
        (processMedia_try tempPaths videoStream audioStream finalOutputPath
           options onProgress)
        (fun error =>
           run cleanupTemporaryFiles tempPaths;
           throw error);
  cleanupTemporaryFiles tempPaths.

(** ** youtubeDownloader.ts *)

Record YoutubeDownloader : Type := {
  fileManager : FileManager
}.

(** [constructor()]: the stream manager and the media processor carry no
    state of their own; the file manager is made here, once. *)
Definition new_YoutubeDownloader : M YoutubeDownloader :=
  do fm <- new_FileManager None;
  ret {| fileManager := fm |}.

Definition downloadVideo (this : YoutubeDownloader) (url outputPath : string)
    (options : DownloadOptions)
    (onProgress : option (callback DownloaderProgress)) : M unit :=
  try_catch
    (do videoInfo <- getVideoInfo url;
     do streams <-
       createStreams url options
         (Some (fun downloadProgress : DownloadProgress =>
                  match onProgress with
                  | Some cb =>
                      cb {| state := StateDownloading;
                            downloadProgress :=
                              Some (percentage downloadProgress) |}
                  | None => []
                  end));
     run invoke onProgress
           {| state := StateProcessing; downloadProgress := None |};
     processMedia (fileManager this)
       (videoStream streams) (audioStream streams) outputPath
       {| po_videoCodec := videoCodec options;
          po_audioCodec := audioCodec options;
          po_outputFormat := outputFormat options;
          po_videoBitrate := videoBitrate options;
          po_audioBitrate := audioBitrate options;
          po_fps := fps options |}
       None)
    (fun error =>
       throw (Error ("Download failed: " +:+ error_message error))).

(** The bytes of a list of chunks. *)
Definition total_length (chunks : list Z) : Z := foldr Z.add 0 chunks.

(** ** ytdl.ts: the earlier implementation

    The class [YouTubeDownloader] of [ytdl.ts] does the whole pipeline in
    one static method, [createDownloadStream], one download after the other;
    the repository's test of that file still runs it.  Its [validateUrl] is
    the one above.  The four [let] variables that its [catch] block reads
    are the argument of [on_failure]: the [try] block is cut where they are
    assigned, and each piece is guarded with the values they have in it.
    What the file writes to the console is left out. *)

Module Ytdl.

Fixpoint for_each {A} (xs : list A) (body : A -> M unit) : M unit :=
  match xs with
  | [] => ret tt
  | x :: rest => run body x; for_each rest body
  end.

Definition cleanupStreams (streams : list (option streamRef)) : M unit :=
  try_catch
    (for_each streams
       (fun stream =>
          match stream with
          | Some s => log (CallDestroy s)
          | None => ret tt
          end))
    (fun error => ret tt).

(** A read stream is made on each file and destroyed at once, in front of
    the [unlink]; an event that the stream emits later, when the method has
    gone on, is no part of the promise and is not modelled.  What the
    handlers do is write to the console. *)
Definition cleanupTempFiles (files : list string) (directory : string)
  : M unit :=
  try_catch
    (run for_each files
           (fun file =>
              do ex <- fs_existsSync file;
              if ex
              then try_catch
                     (run log (CallCreateReadStream file);
                      run log (CallDestroy (FileReadStream file));
                      fs_unlink file)
                     (fun error => ret tt)
              else ret tt);
     do ex <- fs_existsSync directory;
     if ex
     then try_catch (fs_rmdir directory) (fun error => ret tt)
     else ret tt)
    (fun error => ret tt).

(** [if (format.contentLength) totalBytes += parseInt(format.contentLength)] *)
Definition add_length (totalBytes : option Z) (f : videoFormat) : option Z :=
  match contentLength f with
  | Some EmptyString | None => totalBytes
  | Some s => number_add totalBytes (parseInt s)
  end.

(** The download of one format, with the listener on its ['data'] events;
    [downloadedBytes] is the value of the shared counter when it starts. *)
Definition download (f : videoFormat) (totalBytes : option Z)
    (onProgress : option (callback DownloadProgress)) (downloadedBytes : Z)
  : Readable :=
  {| rd_itag := itag f;
     rd_totalBytes := totalBytes;
     rd_onProgress := onProgress;
     rd_downloadedBytes := downloadedBytes |}.

(** What follows the last command.  [.stream(outputStream)] returns the
    output stream, so the ['end'] and ['error'] handlers that the method
    puts on its result are handlers of that stream and not of the command.
    The stream ends when the command has ended and its output has been
    read: the ['end'] handler cleans up.  An error of the command is
    emitted on the command, where nothing listens: it reaches neither
    handler and nothing is cleaned up.  The environment of the model never
    makes the output stream itself fail, so the ['error'] handler has no
    run here. *)
Definition finish (streams : list (option streamRef)) (files : list string)
    (directory : string) : M unit :=
  fun w =>
    let r := ext_ffmpeg (ext w) CombineJob in
    let w1 := set_running (filter (fun x => x <> CombineJob) (running w)) w in
    match br_error r with
    | None =>
        (try_catch
           (run cleanupStreams streams; cleanupTempFiles files directory)
           (fun error => ret tt)) w1
    | Some message => (Throw (Error message), w1)
    end.

(** The method returns the output stream at once; what is returned here is
    what is still to happen on it. *)
Definition createDownloadStream (url : string) (options : DownloadOptions)
    (onProgress : option (callback DownloadProgress)) : M Promise :=
  do valid <- lift (validateUrl url);
  if negb valid then throw (Error "Invalid YouTube URL provided")
  else
    run log (CallGetInfo url);
    do formats <- (fun w => (ext_getInfo (ext w) url, w));
    do t <- read now;
    do tmp <- read (fun w => ext_tmpdir (ext w));
    let tempDir := path_join tmp ("ytdownload_" +:+ pretty t) in
    run try_catch (fs_mkdir_recursive tempDir)
          (fun error =>
             throw (Error ("Failed to create temporary directory: " +:+
                           error_message error)));
    let tempVideoPath := path_join tempDir "temp_video.mp4" in
    let tempAudioPath := path_join tempDir "temp_audio.aac" in
    let on_failure {A} (streams : list (option streamRef)) (error : jsError)
      : M A :=
      run try_catch
            (run cleanupStreams streams;
             cleanupTempFiles [tempVideoPath; tempAudioPath] tempDir)
            (fun cleanupError => ret tt);
      throw (Error ("Download stream creation failed: " +:+
                    error_message error)) in
    do chosen <-
      try_catch
        (let videoFormats := filter (fun f => hasVideo f = true) formats in
         let audioFormats := filter (fun f => hasAudio f = true) formats in
         if (length videoFormats =? 0)%nat
         then throw (Error "No video formats available")
         else if (length audioFormats =? 0)%nat
         then throw (Error "No audio formats available")
         else
           do videoFormat <-
             (fun w => (ext_chooseFormat (ext w) videoFormats
                          (or_default (quality options) "highest"), w));
           do audioFormat <-
             (fun w => (ext_chooseFormat (ext w) audioFormats
                          "highestaudio", w));
           match videoFormat, audioFormat with
           | Some videoFormat, Some audioFormat =>
               ret (videoFormat, audioFormat,
                    add_length (add_length (Some 0) videoFormat) audioFormat)
           | _, _ => throw (Error "Cannot read properties of undefined")
           end)
        (on_failure [None; None; None; None]);
    let '(videoFormat, audioFormat, totalBytes) := chosen in
    let videoStream := Some (PassThroughStream VideoJob) in
    let videoDownload := Some (DownloadStream (itag videoFormat)) in
    do video <- read (fun w => ext_ffmpeg (ext w) VideoJob);
    run try_catch
          (run log (CallYtdl url (itag videoFormat));
           do encoding <-
             save VideoJob
               {| cmd_inputs := [StreamInput (itag videoFormat)];
                  cmd_videoCodec := Some "copy";
                  cmd_videoBitrate := None; cmd_fps := None;
                  cmd_audioCodec := None; cmd_audioBitrate := None;
                  cmd_outputOptions := []; cmd_format := None |}
               tempVideoPath
               (data_events (download videoFormat totalBytes onProgress 0)
                  (br_chunks video))
               StageVideo None "Video processing failed: ";
           await encoding)
          (on_failure [videoStream; None; videoDownload; None]);
    let audioStream := Some (PassThroughStream AudioJob) in
    let audioDownload := Some (DownloadStream (itag audioFormat)) in
    let streams := [videoStream; audioStream; videoDownload; audioDownload] in
    do audio <- read (fun w => ext_ffmpeg (ext w) AudioJob);
    try_catch
      (run log (CallYtdl url (itag audioFormat));
       do encoding <-
         save AudioJob
           {| cmd_inputs := [StreamInput (itag audioFormat)];
              cmd_videoCodec := None;
              cmd_videoBitrate := None; cmd_fps := None;
              cmd_audioCodec := Some "aac"; cmd_audioBitrate := None;
              cmd_outputOptions := []; cmd_format := None |}
           tempAudioPath
           (data_events
              (download audioFormat totalBytes onProgress
                 (match onProgress with
                  | Some _ => total_length (br_chunks video)
                  | None => 0
                  end))
              (br_chunks audio))
           StageAudio None "Audio processing failed: ";
       run await encoding;
       do ex <- fs_existsSync tempVideoPath;
       if negb ex then throw (Error "Video file not created")
       else
         do ex <- fs_existsSync tempAudioPath;
         if negb ex then throw (Error "Audio file not created")
         else
           run log (CallFfmpegStream CombineJob
                      {| cmd_inputs := [FileInput tempVideoPath;
                                        FileInput tempAudioPath];
                         cmd_videoCodec := None;
                         cmd_videoBitrate := None; cmd_fps := None;
                         cmd_audioCodec := None; cmd_audioBitrate := None;
                         cmd_outputOptions := ["-c:v copy"; "-c:a copy"];
                         cmd_format := Some "matroska" |});
           run modify (fun w => set_running (running w ++ [CombineJob]) w);
           ret [finish streams [tempVideoPath; tempAudioPath] tempDir])
      (on_failure streams).

End Ytdl.

(** * Notions used in the statements *)

(** ** Reading the log and the sink *)

(** The calls that the file manager makes to the file system. *)
Definition is_fs_call (c : call) : bool :=
  match c with
  | CallExistsSync _ | CallMkdir _ | CallUnlink _ | CallReaddir _
  | CallRm _ | CallRmdir _ => true
  | _ => false
  end.

Definition is_mkdir (c : call) : bool :=
  match c with
  | CallMkdir _ => true
  | _ => false
  end.

(** The mux step is the backend command that combines the two files. *)
Definition is_mux (c : call) : bool :=
  match c with
  | CallFfmpegSave CombineJob _ _ | CallFfmpegStream CombineJob _ => true
  | _ => false
  end.

Definition is_cancel (c : call) : bool :=
  match c with
  | CallDestroy _ => true
  | _ => false
  end.

Definition harmless (c : call) : Prop :=
  is_mux c = false /\ is_cancel c = false.

(** The events of the downloading stage among those delivered. *)
Definition download_events (es : list progressEvent)
  : list DownloadProgress :=
  omap (fun e => match e with EvDownload p => Some p | _ => None end) es.

(** The records one stream hands to its callback while it is read. *)
Fixpoint stream_records (s : Readable) (chunks : list Z)
  : list DownloadProgress :=
  match chunks with
  | [] => []
  | chunk_length :: rest =>
      let s' := on_data s chunk_length in
      progress_of s' :: stream_records s' rest
  end.

(** ** The accepted URL shape, in words

    An optional [http://] or [https://], an optional [www.], one of the two
    host names, a slash, and at least one more character, none of them a
    line terminator. *)
Fixpoint no_line_terminator (s : string) : bool :=
  match s with
  | EmptyString => true
  | String c s' => negb (Regex.line_terminator c) && no_line_terminator s'
  end.

Definition accepted_shape (url : string) : Prop :=
  exists scheme www host rest : string,
    url = scheme +:+ www +:+ host +:+ "/" +:+ rest /\
    scheme ∈ [EmptyString; "http://"; "https://"] /\
    www ∈ [EmptyString; "www."] /\
    host ∈ ["youtube.com"; "youtu.be"] /\
    rest <> EmptyString /\
    no_line_terminator rest = true.

(** ** What an operation may do to the world

    [removes T w w']: from [w] to [w'] nothing changed but the log of calls,
    which grew, and the file system, which lost paths of [T] at most. *)
Definition same_frame (w w' : world) : Prop :=
  denied w' = denied w /\ now w' = now w /\ running w' = running w /\
  sink w' = sink w /\ ext w' = ext w.

Definition removes (T : string -> Prop) (w w' : world) : Prop :=
  same_frame w w' /\
  (exists cs, calls w' = calls w ++ cs) /\
  forall q, fs w' !! q = fs w !! q \/ (T q /\ fs w' !! q = None).

Definition op_removes {A} (T : string -> Prop) (m : M A) : Prop :=
  forall w r w', m w = (r, w') -> removes T w w'.

(** The paths that [cleanupTemporaryFiles] may remove. *)
Definition cleanup_targets (paths : TemporaryPaths) (q : string) : Prop :=
  q = videoPath paths \/ q = audioPath paths \/ within (tempDir paths) q = true.

(** What [createTemporaryPaths] returns when it returns. *)
Definition paths_of (this : FileManager) : TemporaryPaths :=
  {| tempDir := baseTempDir this;
     videoPath := path_join (baseTempDir this)
       ("temp_video_" +:+ pretty (timestamp this) +:+ ".mp4");
     audioPath := path_join (baseTempDir this)
       ("temp_audio_" +:+ pretty (timestamp this) +:+ ".aac") |}.

(** [keeps I m]: running [m] from a world in [I] ends, however it ends, in a
    world in [I]; [rejects I step]: from a world in [I] the step throws. *)
Definition keeps (I : world -> Prop) {A} (m : M A) : Prop :=
  forall w r w', m w = (r, w') -> I w -> I w'.

Definition rejects (I : world -> Prop) (step : M unit) : Prop :=
  forall w, I w -> exists e, (step w).1 = Throw e.

(** The calls made since the log was [c0] are all in [ok], and the
    collaborators are still [e0]. *)
Definition only_added (e0 : externals) (c0 : list call) (ok : call -> Prop)
    (w : world) : Prop :=
  ext w = e0 /\
  exists added, calls w = c0 ++ added /\ Forall ok added.

(** The events of the downloading stage delivered so far all lie in [P],
    and the collaborators are still [e0]. *)
Definition downloads_in (e0 : externals) (P : DownloadProgress -> Prop)
    (w : world) : Prop :=
  ext w = e0 /\ forall p, p ∈ download_events (sink w) -> P p.

(** * Sample inputs

    The scenario of the specification: one video format of 1000 bytes and
    one audio format of 200 bytes; the format chooser takes the first
    candidate.  The clock of the sample worlds reads 1700000000000. *)
Definition sample_url : string :=
  "https://www.youtube.com/watch?v=AgyvqMYmAG8".

Definition sample_video_format : videoFormat :=
  {| itag := 137; qualityLabel := Some "1080p"; hasAudio := false;
     hasVideo := true; container := Some "mp4";
     contentLength := Some "1000" |}.

Definition sample_audio_format : videoFormat :=
  {| itag := 140; qualityLabel := None; hasAudio := true;
     hasVideo := false; container := Some "mp4";
     contentLength := Some "200" |}.

Definition sample_externals (video audio combine : backendRun)
    (schedule : list bool) : externals :=
  {| ext_tmpdir := "/tmp";
     ext_getBasicInfo := fun _ =>
       Return (Some {| vd_title := "title"; vd_thumbnail := None;
                       vd_lengthSeconds := "10"; vd_author := "author" |});
     ext_getInfo := fun _ => Return [sample_video_format; sample_audio_format];
     ext_chooseFormat := fun candidates _ => Return (head candidates);
     ext_ffmpeg := fun j =>
       match j with
       | VideoJob => video
       | AudioJob => audio
       | CombineJob => combine
       end;
     ext_schedule := schedule |}.

(** A backend run that reads the given chunks, writes its file and ends. *)
Definition completes (chunks : list Z) : backendRun :=
  {| br_chunks := chunks; br_ticks := []; br_wrote := true;
     br_error := None |}.

(** A backend run that fails; it may leave a partial file. *)
Definition fails (chunks : list Z) (wrote : bool) (message : string)
  : backendRun :=
  {| br_chunks := chunks; br_ticks := []; br_wrote := wrote;
     br_error := Some message |}.

Definition sample_world (files : gmap string node) (refused : gset string)
    (e : externals) : world :=
  {| fs := files; denied := refused; now := 1700000000000; running := [];
     sink := []; calls := []; ext := e |}.

(** The same world, [ms] milliseconds on. *)
Definition later (ms : Z) (w : world) : world :=
  {| fs := fs w; denied := denied w; now := now w + ms;
     running := running w; sink := sink w; calls := calls w; ext := ext w |}.

Definition no_options : DownloadOptions :=
  {| quality := None; format := None; videoCodec := None; audioCodec := None;
     videoBitrate := None; audioBitrate := None; fps := None;
     outputFormat := None |}.

Definition no_processing_options : ProcessingOptions :=
  {| po_videoCodec := None; po_audioCodec := None; po_outputFormat := None;
     po_videoBitrate := None; po_audioBitrate := None; po_fps := None |}.

(** The file manager, the downloader and the workspace made at the clock of
    the sample worlds. *)
Definition sample_fileManager : FileManager :=
  {| timestamp := 1700000000000;
     baseTempDir := "/tmp/ytdownload_1700000000000" |}.

Definition sample_downloader : YoutubeDownloader :=
  {| fileManager := sample_fileManager |}.

Definition sample_paths : TemporaryPaths :=
  {| tempDir := "/tmp/ytdownload_1700000000000";
     videoPath :=
       "/tmp/ytdownload_1700000000000/temp_video_1700000000000.mp4";
     audioPath :=
       "/tmp/ytdownload_1700000000000/temp_audio_1700000000000.aac" |}.

(** A plain stream, without a progress listener. *)
Definition plain_stream (f : videoFormat) : Readable :=
  {| rd_itag := itag f; rd_totalBytes := None; rd_onProgress := None;
     rd_downloadedBytes := 0 |}.

(** Recording sinks. *)
Definition record_download : callback DownloadProgress :=
  fun p => [EvDownload p].

Definition record_downloader : callback DownloaderProgress :=
  fun p => [EvDownloader p].

(** Nothing to read, every command completes. *)
Definition quiet_externals : externals :=
  sample_externals (completes []) (completes []) (completes []) [].

(** The workspace of [sample_fileManager] on disk, next to an earlier
    output file. *)
Definition sample_files : gmap string node :=
  {[ tempDir sample_paths := Dir;
     videoPath sample_paths := File;
     audioPath sample_paths := File;
     "out/video.mkv" := File ]}.

(** The sample run: both transcodes complete, the video stream arrives in
    two chunks; the schedule moves video, audio, video. *)
Definition sample_run : externals :=
  sample_externals (completes [600; 400]) (completes [200]) (completes [])
    [true; false; true].

(** The sample run with the audio chunk arriving last. *)
Definition sample_run_audio_last : externals :=
  sample_externals (completes [600; 400]) (completes [200]) (completes [])
    [true; true; false].

(** The body of [downloadVideo] with the recorder put directly on the
    stream manager, so that whole progress records are seen. *)
Definition observed_run (e : externals) : result unit * world :=
  (do streams <- createStreams sample_url no_options (Some record_download);
   processMedia sample_fileManager
     (videoStream streams) (audioStream streams) "out/video.mkv"
     no_processing_options None)
    (sample_world ∅ ∅ e).

(** Two runs through one downloader, a minute apart. *)
Definition first_run : result unit * world :=
  downloadVideo sample_downloader sample_url "out/first.mkv" no_options None
    (sample_world ∅ ∅ sample_run).

Definition second_run : result unit * world :=
  downloadVideo sample_downloader sample_url "out/second.mkv" no_options None
    (later 60000 first_run.2).

(** The video transcode fails first, leaving a partial file, while the
    audio transcode is still at work. *)
Definition video_fails : externals :=
  sample_externals (fails [] true "Conversion failed!") (completes [200])
    (completes []) [true].

(** The same, on a system that refuses to remove the partial file. *)
Definition locked_video_world : world :=
  sample_world ∅ {[ videoPath sample_paths ]} video_fails.

(** Everything succeeds, on a system that refuses to remove the video
    intermediate; the worlds that run goes through, after the workspace is
    made, after the [try] block and after the final cleanup; and the errors
    of a cleanup that cannot remove the video intermediate. *)
Definition locked_success_world : world :=
  sample_world ∅ {[ videoPath sample_paths ]} sample_run.

Definition locked_success_world_1 : world :=
  (createTemporaryPaths sample_fileManager locked_success_world).2.

Definition locked_success_world_2 : world :=
  (processMedia_try sample_paths
     (plain_stream sample_video_format) (plain_stream sample_audio_format)
     "out/video.mkv" no_processing_options None locked_success_world_1).2.

Definition locked_success_world_3 : world :=
  (cleanupTemporaryFiles sample_paths locked_success_world_2).2.

Definition locked_video_errors : list string :=
  ["Failed to delete temporary file " +:+ videoPath sample_paths
   +:+ ": EPERM: unlink '" +:+ videoPath sample_paths +:+ "'";
   "Failed to remove temporary directory " +:+ tempDir sample_paths
   +:+ ": EPERM: rm '" +:+ tempDir sample_paths +:+ "'"].

(** The earlier implementation on the sample inputs: its intermediate video
    file, a world that refuses to remove it, and a run of the method followed
    by everything that happens on the stream it returns. *)
Definition earlier_video_path : string :=
  "/tmp/ytdownload_1700000000000/temp_video.mp4".

Definition earlier_locked_video_world : world :=
  sample_world ∅ {[ earlier_video_path ]} video_fails.

Definition earlier_run (w : world) : result unit * world :=
  (do output <- Ytdl.createDownloadStream sample_url no_options
                  (Some record_download);
   await output) w.

Definition mkdirs (cs : list call) : list call :=
  filter (fun c => is_mkdir c = true) cs.

Definition destroyed (cs : list call) : list call :=
  filter (fun c => is_cancel c = true) cs.

(** * The rest of the sources *)

(** ** youtubeStreamManager.ts: [getAvailableFormats] *)

Record FormatInfo : Type := {
  fi_itag : Z;
  fi_quality : string;
  fi_hasAudio : bool;
  fi_hasVideo : bool;
  fi_container : string;
  fi_contentLength : string
}.

(** The descriptor of one format, with the defaults of the [map] callback
    ([format.hasAudio || false] is [format.hasAudio]). *)
Definition format_info (format : videoFormat) : FormatInfo :=
  {| fi_itag := itag format;
     fi_quality := or_default (qualityLabel format) "unknown";
     fi_hasAudio := hasAudio format;
     fi_hasVideo := hasVideo format;
     fi_container := or_default (container format) "unknown";
     fi_contentLength := or_default (contentLength format) "0" |}.

(** [info.formats] is an array whenever [getInfo] resolves, so the guard
    [if (!info?.formats)] never fires. *)
Definition getAvailableFormats (url : string) : M (list FormatInfo) :=
  try_catch
    (do valid <- lift (validateUrl url);
     if negb valid then throw (Error "Invalid YouTube URL provided")
     else
       run log (CallGetInfo url);
       do formats <- (fun w => (ext_getInfo (ext w) url, w));
       ret (map format_info formats))
    (fun error =>
       throw (Error ("Failed to get video formats: " +:+ error_message error))).

(** ** fileManager.ts: [prepareOutputPath] *)

Record ProcessingPaths : Type := {
  pp_tempDir : string;
  pp_videoPath : string;
  pp_audioPath : string;
  pp_outputPath : string
}.

(** [path.dirname] of Node, POSIX flavour.  The scan of the library runs from
    the last character down to the second one: it skips the slashes at the
    end, then the last component, and cuts the path at the slash it stops
    on.  [scan_dirname] does the scan over the characters after the first
    one, last one first; it returns how many of them are left in front of
    the cut, if there is a cut. *)
Fixpoint scan_dirname (reversed : list ascii) (matchedSlash : bool)
  : option nat :=
  match reversed with
  | [] => None
  | c :: rest =>
      if (c =? "/")%char
      then if matchedSlash then scan_dirname rest true
           else Some (length rest)
      else scan_dirname rest false
  end.

Definition path_dirname (path : string) : string :=
  match path with
  | EmptyString => "."
  | String first rest =>
      let hasRoot := (first =? "/")%char in
      match scan_dirname (rev (list_ascii_of_string rest)) true with
      | None => if hasRoot then "/" else "."
      | Some before =>
          (* [end] is [before + 1] *)
          if hasRoot && (before =? 0)%nat then "//"
          else String first (string_of_list_ascii
                               (take before (list_ascii_of_string rest)))
      end
  end.

Definition prepareOutputPath (outputPath : string) (tempPaths : TemporaryPaths)
  : M ProcessingPaths :=
  try_catch
    (let outputDir := path_dirname outputPath in
     run fs_mkdir_recursive outputDir;
     ret {| pp_tempDir := tempDir tempPaths;
            pp_videoPath := videoPath tempPaths;
            pp_audioPath := audioPath tempPaths;
            pp_outputPath := outputPath |})
    (fun error =>
       throw (Error ("Failed to prepare output path: " +:+
                     error_message error))).

(** A file name: not empty, and without a separator. *)
Fixpoint no_slash (s : string) : bool :=
  match s with
  | EmptyString => true
  | String c s' => negb (c =? "/")%char && no_slash s'
  end.

Definition is_file_name (name : string) : Prop :=
  name <> EmptyString /\ no_slash name = true.

(** ** The client: URLInput.tsx and App.tsx *)

(** [s.includes(needle)] *)
Fixpoint includes (s needle : string) : bool :=
  String.prefix needle s ||
  match s with
  | EmptyString => false
  | String _ s' => includes s' needle
  end.

Module URLInput.

(** The two pieces of state of the component. *)
Record state : Type := {
  url : string;
  error : string
}.

(** [handleSubmit]: the new state, and the argument of [onURLSubmit] when it
    is called. *)
Definition handleSubmit (st : state) : state * option string :=
  if negb (includes (url st) "youtube.com/") &&
     negb (includes (url st) "youtu.be/")
  then ({| url := url st; error := "Please enter a valid YouTube URL" |},
        None)
  else ({| url := url st; error := EmptyString |}, Some (url st)).

End URLInput.

Module App.

Inductive DownloadStatus : Type := idle | downloading | completed | error.

(** The state that [startDownload] and its timer touch; [interval] tells
    whether the timer made by [setInterval] is still set.  There is one
    timer in the model: a call of [startDownload] while the timer of an
    earlier call is still set, which the page does not clear, is outside
    it. *)
Record state : Type := {
  downloadStatus : DownloadStatus;
  downloadProgress : Z;
  interval : bool
}.

Definition startDownload (st : state) : state :=
  {| downloadStatus := downloading; downloadProgress := 0; interval := true |}.

(** One firing of the timer: the updater passed to [setDownloadProgress]. *)
Definition tick (st : state) : state :=
  if interval st
  then if 100 <=? downloadProgress st
       then {| downloadStatus := completed; downloadProgress := 100;
               interval := false |}
       else {| downloadStatus := downloadStatus st;
               downloadProgress := downloadProgress st + 10;
               interval := true |}
  else st.

Fixpoint ticks (n : nat) (st : state) : state :=
  match n with
  | O => st
  | S n' => ticks n' (tick st)
  end.

End App.

(** ** More notions for the statements *)

Definition is_network_call (c : call) : bool :=
  match c with
  | CallGetBasicInfo _ | CallGetInfo _ | CallYtdl _ _ => true
  | _ => false
  end.

(** Everything of the world but the log of calls. *)
Definition same_but_calls (w w' : world) : Prop :=
  fs w' = fs w /\ denied w' = denied w /\ now w' = now w /\
  running w' = running w /\ sink w' = sink w /\ ext w' = ext w.

(** The message of a plain [Error] starts with [prefix]. *)
Definition error_starts_with (prefix : string) (e : jsError) : Prop :=
  exists rest, e = Error (prefix +:+ rest).

(** The byte length a format declares: the number its [contentLength]
    prints, and 0 when the field is missing or empty. *)
Definition declares (f : videoFormat) (n : Z) : Prop :=
  contentLength f = Some (pretty n) \/
  (n = 0 /\ (contentLength f = None \/ contentLength f = Some EmptyString)).

(** The numbers of the code are doubles; the model computes with exact
    integers, which is the same as long as every number that occurs is a
    safe integer ([Number.isSafeInteger]). *)
Definition safe_integer (n : Z) : Prop :=
  - 9007199254740991 <= n <= 9007199254740991.

(** An operation that changes nothing but the log, to which it adds network
    calls only, and that rejects with plain errors whose message starts with
    [prefix]. *)
Definition network_only (prefix : string) {A} (m : M A) : Prop :=
  forall w r w', m w = (r, w') ->
    same_but_calls w w' /\
    (exists added, calls w' = calls w ++ added /\
                   Forall (fun c => is_network_call c = true) added) /\
    (forall e, r = Throw e -> error_starts_with prefix e).



(** [settles Q step]: however the step ends, it ends in a world in [Q]. *)
Definition settles (Q : world -> Prop) (step : M unit) : Prop :=
  forall w r w', step w = (r, w') -> Q w'.

(** What a backend command started by [processMedia] has to look like: each
    transcode reads its stream and writes its intermediate file, with the
    codec of the options or the default; the mux reads the two intermediate
    files, copies both tracks and writes the output path. *)
Definition expected_backend_call (paths : TemporaryPaths)
    (videoStream audioStream : Readable) (finalOutputPath : string)
    (options : ProcessingOptions) (c : call) : Prop :=
  match c with
  | CallFfmpegSave VideoJob command outputPath =>
      outputPath = videoPath paths /\
      cmd_inputs command = [StreamInput (rd_itag videoStream)] /\
      cmd_videoCodec command
      = Some (or_default (po_videoCodec options) "copy") /\
      cmd_audioCodec command = None
  | CallFfmpegSave AudioJob command outputPath =>
      outputPath = audioPath paths /\
      cmd_inputs command = [StreamInput (rd_itag audioStream)] /\
      cmd_audioCodec command
      = Some (or_default (po_audioCodec options) "aac") /\
      cmd_videoCodec command = None
  | CallFfmpegSave CombineJob command outputPath =>
      outputPath = finalOutputPath /\
      cmd_inputs command
      = [FileInput (videoPath paths); FileInput (audioPath paths)] /\
      cmd_outputOptions command = ["-c:v copy"; "-c:a copy"] /\
      cmd_format command
      = Some (or_default (po_outputFormat options) "matroska") /\
      cmd_videoCodec command = None /\ cmd_audioCodec command = None
  | _ => False
  end.

(** The backend processes that a list of calls starts, in order. *)
Definition started_jobs (cs : list call) : list job :=
  omap (fun c => match c with
                 | CallFfmpegSave j _ _ | CallFfmpegStream j _ => Some j
                 | _ => None
                 end) cs.

(** From [w] to [w'] the collaborators stayed the same and the log grew by
    calls to the file system. *)
Definition fs_calls_only (w w' : world) : Prop :=
  ext w' = ext w /\
  exists added, calls w' = calls w ++ added /\
                Forall (fun c => is_fs_call c = true) added.

(** From [w] to [w'] the log grew by calls in [ok], which started the
    processes [jobs], in this order. *)
Definition run_trace (ok : call -> Prop) (jobs : list job) (w w' : world)
  : Prop :=
  exists added, calls w' = calls w ++ added /\ Forall ok added /\
                started_jobs added = jobs.

(** The callback that [downloadVideo] hands to [createStreams], the
    processing options it hands to [processMedia], and the error it throws
    for an error caught. *)
Definition downloading_callback
    (onProgress : option (callback DownloaderProgress))
  : callback DownloadProgress :=
  fun downloadProgress =>
    match onProgress with
    | Some cb => cb {| state := StateDownloading;
                       downloadProgress :=
                         Some (percentage downloadProgress) |}
    | None => []
    end.

Definition processing_options (options : DownloadOptions)
  : ProcessingOptions :=
  {| po_videoCodec := videoCodec options;
     po_audioCodec := audioCodec options;
     po_outputFormat := outputFormat options;
     po_videoBitrate := videoBitrate options;
     po_audioBitrate := audioBitrate options;
     po_fps := fps options |}.

Definition download_failed (error : jsError) : jsError :=
  Error ("Download failed: " +:+ error_message error).

Definition is_downloading (e : progressEvent) : Prop :=
  exists p, e = EvDownloader {| state := StateDownloading;
                                downloadProgress := Some p |}.





(** * Properties *)

(** The two checks of the repository's own test of [validateUrl]. *)
Example validateUrl_watch :
  validateUrl "https://www.youtube.com/watch?v=AgyvqMYmAG8" = Return true.
Proof. reflexivity. Qed.

Example validateUrl_invalid :
  validateUrl "https://invalid-url.com" = Return false.
Proof. reflexivity. Qed.

Example parseInt_1000 : parseInt "1000" = Some 1000.
Proof. reflexivity. Qed.

Example parseInt_hex : parseInt "  0x1f" = Some 31.
Proof. reflexivity. Qed.

Example parseInt_nan : parseInt "abc" = None.
Proof. reflexivity. Qed.

(** ** The pattern and the shape *)

Section RegexFacts.
Import Regex.
#[local] Arguments String.append : simpl nomatch.

Lemma append_nil_r (s : string) : s +:+ EmptyString = s.
Proof. induction s as [|c s IH]; simpl; [reflexivity | now rewrite IH]. Qed.

Lemma append_assoc (a b c : string) : (a +:+ b) +:+ c = a +:+ (b +:+ c).
Proof. induction a as [|x a IH]; simpl; [reflexivity | now rewrite IH]. Qed.

Lemma append_eq_nil (u v : string) :
  u +:+ v = EmptyString -> u = EmptyString /\ v = EmptyString.
Proof. destruct u; simpl; intros H; [now split | discriminate H]. Qed.

Lemma append_eq_cons (u v : string) (c : ascii) (s : string) :
  u +:+ v = String c s ->
  (u = EmptyString /\ v = String c s) \/
  (exists u', u = String c u' /\ s = u' +:+ v).
Proof.
  destruct u as [|d u]; simpl; intros H.
  - left. now split.
  - right. injection H as -> <-. now exists u.
Qed.

Lemma nullable_matches (r : regex) :
  nullable r = true <-> matches r EmptyString.
Proof.
  split.
  - induction r; simpl; intros H; try discriminate H.
    + constructor.
    + apply andb_true_iff in H as [H1 H2].
      change EmptyString with (EmptyString +:+ EmptyString). constructor; auto.
    + apply orb_true_iff in H as [H|H]; [apply m_alt_l | apply m_alt_r]; auto.
    + constructor.
  - intros H. remember EmptyString as t eqn:Et.
    induction H; simpl; try discriminate Et; try reflexivity.
    + apply append_eq_nil in Et as [-> ->].
      rewrite IHmatches1, IHmatches2; reflexivity.
    + rewrite (IHmatches Et); reflexivity.
    + rewrite (IHmatches Et); apply orb_true_r.
Qed.

Lemma deriv_sound (c : ascii) (r : regex) :
  forall s, matches (deriv c r) s -> matches r (String c s).
Proof.
  induction r; simpl; intros t H.
  - inversion H.
  - inversion H.
  - destruct (Ascii.eqb_spec c c0) as [->|]; inversion H; subst. constructor.
  - destruct (line_terminator c) eqn:E; inversion H; subst. now constructor.
  - assert (Hseq : forall t, matches (Seq (deriv c r1) r2) t ->
                             matches (Seq r1 r2) (String c t)).
    { intros t' H'. inversion H'; subst.
      change (String c (u +:+ v)) with (String c u +:+ v).
      constructor; auto. }
    destruct (nullable r1) eqn:E.
    + inversion H; subst; [now apply Hseq|].
      change (String c t) with (EmptyString +:+ String c t).
      constructor; [now apply nullable_matches | auto].
    + now apply Hseq.
  - inversion H; subst; [apply m_alt_l | apply m_alt_r]; auto.
  - inversion H; subst.
    change (String c (u +:+ v)) with (String c u +:+ v).
    apply m_star_cons; auto.
Qed.

Lemma deriv_complete (c : ascii) (r : regex) (t : string) :
  matches r t -> forall s, t = String c s -> matches (deriv c r) s.
Proof.
  induction 1; intros s0 E; simpl; try discriminate E.
  - injection E as -> <-. rewrite Ascii.eqb_refl. constructor.
  - injection E as -> <-. rewrite H. constructor.
  - apply append_eq_cons in E as [[-> ->] | (u' & -> & ->)].
    + apply nullable_matches in H as ->. apply m_alt_r. auto.
    + assert (matches (Seq (deriv c r) s) (u' +:+ v)) by (constructor; auto).
      destruct (nullable r); [now apply m_alt_l | assumption].
  - apply m_alt_l. auto.
  - apply m_alt_r. auto.
  - apply append_eq_cons in E as [[-> ->] | (u' & -> & ->)].
    + apply (IHmatches2 s0 eq_refl).
    + constructor; auto.
Qed.

Lemma test_matches (r : regex) (s : string) : test r s = true <-> matches r s.
Proof.
  revert r. induction s as [|c s IH]; intros r; simpl.
  - apply nullable_matches.
  - rewrite IH. split; [apply deriv_sound|].
    intros H. now apply (deriv_complete c r _ H).
Qed.

Lemma seq_inv (r s : regex) (t : string) :
  matches (Seq r s) t -> exists u v, t = u +:+ v /\ matches r u /\ matches s v.
Proof. inversion 1; subst; eauto. Qed.

Lemma alt_inv (r s : regex) (t : string) :
  matches (Alt r s) t -> matches r t \/ matches s t.
Proof. inversion 1; subst; auto. Qed.

Lemma opt_inv (r : regex) (t : string) :
  matches (Opt r) t -> matches r t \/ t = EmptyString.
Proof.
  intros H. apply alt_inv in H as [H|H]; [now left | right; now inversion H].
Qed.

Lemma dot_inv (t : string) :
  matches Dot t ->
  exists c, t = String c EmptyString /\ line_terminator c = false.
Proof. inversion 1; subst; eauto. Qed.

Lemma chr_inv (c : ascii) (t : string) :
  matches (Chr c) t -> t = String c EmptyString.
Proof. now inversion 1. Qed.

Lemma lit_matches (l : string) : matches (Lit l) l.
Proof.
  induction l as [|c l IH]; simpl; [constructor|].
  change (String c l) with (String c EmptyString +:+ l).
  constructor; [constructor | exact IH].
Qed.

Lemma lit_inv (l t : string) : matches (Lit l) t -> t = l.
Proof.
  revert t. induction l as [|c l IH]; simpl; intros t H.
  - now inversion H.
  - apply seq_inv in H as (u & v & -> & Hu & Hv).
    apply chr_inv in Hu as ->. simpl. f_equal. auto.
Qed.

Lemma star_dot_matches (s : string) :
  no_line_terminator s = true -> matches (Star Dot) s.
Proof.
  induction s as [|c s IH]; simpl; intros H; [constructor|].
  apply andb_true_iff in H as [Hc Hs]. apply negb_true_iff in Hc.
  change (String c s) with (String c EmptyString +:+ s).
  apply m_star_cons; [now constructor | auto].
Qed.

Lemma star_dot_inv (r : regex) (s : string) :
  matches r s -> r = Star Dot -> no_line_terminator s = true.
Proof.
  induction 1; intros E; try discriminate E; [reflexivity|].
  injection E as ->. apply dot_inv in H as (c & -> & Hc). simpl.
  rewrite Hc. simpl. auto.
Qed.

Lemma plus_dot_iff (s : string) :
  matches (Plus Dot) s <-> s <> EmptyString /\ no_line_terminator s = true.
Proof.
  split.
  - intros H. apply seq_inv in H as (u & v & -> & Hu & Hv).
    apply dot_inv in Hu as (c & -> & Hc). simpl. split; [discriminate|].
    rewrite Hc. simpl. now apply (star_dot_inv _ _ Hv).
  - intros [Hne H]. destruct s as [|c s]; [congruence|]. simpl in H.
    apply andb_true_iff in H as [Hc Hs]. apply negb_true_iff in Hc.
    change (String c s) with (String c EmptyString +:+ s).
    constructor; [now constructor | now apply star_dot_matches].
Qed.

Lemma youtubeRegex_shape (url : string) :
  matches youtubeRegex url <-> accepted_shape url.
Proof.
  unfold youtubeRegex, accepted_shape. split.
  - intros H.
    apply seq_inv in H as (scheme & t1 & -> & Hscheme & H).
    apply seq_inv in H as (www & t2 & -> & Hwww & H).
    apply seq_inv in H as (host & t3 & -> & Hhost & H).
    apply seq_inv in H as (slash & rest & -> & Hslash & Hrest).
    apply chr_inv in Hslash as ->. apply plus_dot_iff in Hrest as [Hne Hlt].
    exists scheme, www, host, rest. repeat split; try assumption.
    + apply opt_inv in Hscheme as [H | ->]; [|set_solver].
      apply seq_inv in H as (a & t & -> & Ha & H).
      apply seq_inv in H as (b & c & -> & Hb & Hc).
      apply lit_inv in Ha as ->. apply lit_inv in Hc as ->.
      apply opt_inv in Hb as [Hb | ->]; [apply chr_inv in Hb as ->|];
        cbv [String.append]; set_solver.
    + apply opt_inv in Hwww as [H | ->]; [apply lit_inv in H as ->|];
        set_solver.
    + apply alt_inv in Hhost as [H | H]; apply lit_inv in H as ->; set_solver.
  - intros (scheme & www & host & rest & -> & Hscheme & Hwww & Hhost
            & Hne & Hlt).
    constructor; [|constructor; [|constructor; [|constructor]]].
    + assert (Hs : matches (Seq (Lit "http") (Seq (Opt (Chr "s")) (Lit "://")))
                     "https://").
      { change "https://" with ("http" +:+ (String "s" EmptyString +:+ "://")).
        constructor; [apply lit_matches|].
        constructor; [apply m_alt_l; constructor | apply lit_matches]. }
      assert (Hp : matches (Seq (Lit "http") (Seq (Opt (Chr "s")) (Lit "://")))
                     "http://").
      { change "http://" with ("http" +:+ (EmptyString +:+ "://")).
        constructor; [apply lit_matches|].
        constructor; [apply m_alt_r; constructor | apply lit_matches]. }
      set_unfold in Hscheme. destruct Hscheme as [-> | [-> | [-> | []]]].
      * apply m_alt_r; constructor.
      * now apply m_alt_l.
      * now apply m_alt_l.
    + set_unfold in Hwww. destruct Hwww as [-> | [-> | []]].
      * apply m_alt_r; constructor.
      * apply m_alt_l, (lit_matches "www.").
    + set_unfold in Hhost. destruct Hhost as [-> | [-> | []]].
      * apply m_alt_l, (lit_matches "youtube.com").
      * apply m_alt_r, (lit_matches "youtu.be").
    + constructor.
    + now apply plus_dot_iff.
Qed.

Lemma test_accepted_shape (url : string) :
  test youtubeRegex url = true <-> accepted_shape url.
Proof. rewrite test_matches. apply youtubeRegex_shape. Qed.

End RegexFacts.

(** ** Validation *)

Lemma validateUrl_nonempty (url : string) :
  url <> EmptyString ->
  validateUrl url = Return (Regex.test youtubeRegex url).
Proof. destruct url; [congruence | reflexivity]. Qed.

Lemma validateUrl_accepts (url : string) :
  accepted_shape url -> validateUrl url = Return true.
Proof.
  intros H. assert (Hne : url <> EmptyString).
  { destruct H as (scheme & www & host & rest & -> & _).
    destruct scheme, www, host; discriminate. }
  rewrite validateUrl_nonempty by assumption.
  f_equal. now apply test_accepted_shape.
Qed.

(** A url that does not validate stops [getVideoInfo] and [createStreams]
    before they reach the network: they throw from the world they started
    in. *)
Lemma getVideoInfo_guard (url : string) (w : world) :
  validateUrl url <> Return true ->
  exists e, getVideoInfo url w = (Throw e, w).
Proof.
  intros H. unfold getVideoInfo, try_catch, bind, lift, throw.
  destruct (validateUrl url) as [[|]|e]; [congruence | |]; simpl; eauto.
Qed.

Lemma createStreams_guard (url : string) (options : DownloadOptions)
    (onProgress : option (callback DownloadProgress)) (w : world) :
  validateUrl url <> Return true ->
  exists e, createStreams url options onProgress w = (Throw e, w).
Proof.
  intros H. unfold createStreams, try_catch, bind, lift, throw.
  destruct (validateUrl url) as [[|]|e]; [congruence | |]; simpl; eauto.
Qed.

(** C6, as stated, fails at the empty identifier: it does not have the
    accepted shape, and [validateUrl] throws instead of returning false. *)
Lemma validateUrl_empty_throws :
  ~ accepted_shape EmptyString /\
  validateUrl EmptyString = Throw (Error "URL cannot be empty or undefined") /\
  validateUrl EmptyString <> Return false.
Proof.
  split; [|split; [reflexivity | discriminate]].
  intros H. apply test_accepted_shape in H. discriminate H.
Qed.

(** C6, amended: for every identifier that fails the accepted URL shape,
    [validateUrl] returns false when the identifier is not empty and throws
    when it is empty; it is a function of its argument alone, and the
    operations it guards ([getVideoInfo], [createStreams]) then throw with
    the world, hence the log of network and file-system calls, unchanged. *)
Theorem validateUrl_rejects_bad_shape (url : string) :
  ~ accepted_shape url ->
  (url <> EmptyString -> validateUrl url = Return false) /\
  (url = EmptyString ->
   validateUrl url = Throw (Error "URL cannot be empty or undefined")) /\
  (forall w, exists e, getVideoInfo url w = (Throw e, w)) /\
  (forall options onProgress w,
     exists e, createStreams url options onProgress w = (Throw e, w)).
Proof.
  intros Hshape.
  assert (Hfalse : url <> EmptyString -> validateUrl url = Return false).
  { intros Hne. rewrite validateUrl_nonempty by assumption. f_equal.
    destruct (Regex.test youtubeRegex url) eqn:E; [|reflexivity].
    exfalso. now apply Hshape, test_accepted_shape. }
  assert (Hnot : validateUrl url <> Return true).
  { destruct url; [discriminate|]. rewrite Hfalse; discriminate. }
  split; [exact Hfalse|]. split; [now intros ->|].
  split; intros; [now apply getVideoInfo_guard | now apply createStreams_guard].
Qed.

Lemma validateUrl_rejects_bad_shape_witness :
  validateUrl "https://invalid-url.com" = Return false /\
  validateUrl "ftp://youtube.com/" = Return false.
Proof.
  split.
  - apply (validateUrl_rejects_bad_shape "https://invalid-url.com");
      [|discriminate].
    intros H. apply test_accepted_shape in H. vm_compute in H. discriminate H.
  - apply (validateUrl_rejects_bad_shape "ftp://youtube.com/");
      [|discriminate].
    intros H. apply test_accepted_shape in H. vm_compute in H. discriminate H.
Defined.

(** ** The file system and the cleanup pass *)

Section FileSystemFacts.

Lemma removes_refl (T : string -> Prop) (w : world) : removes T w w.
Proof.
  split; [repeat split|split]; [exists []; now rewrite app_nil_r | now left].
Qed.

Lemma removes_trans (T : string -> Prop) (w1 w2 w3 : world) :
  removes T w1 w2 -> removes T w2 w3 -> removes T w1 w3.
Proof.
  intros ((?&?&?&?&?) & [c1 Hc1] & Hq1) ((?&?&?&?&?) & [c2 Hc2] & Hq2).
  split; [repeat split; congruence|]. split.
  - exists (c1 ++ c2). rewrite Hc2, Hc1. now rewrite app_assoc.
  - intros q. destruct (Hq2 q) as [E2|[? E2]], (Hq1 q) as [E1|[? E1]];
      rewrite E2; auto; rewrite E1; auto.
Qed.

Lemma removes_weaken (T T' : string -> Prop) (w w' : world) :
  (forall q, T q -> T' q) -> removes T w w' -> removes T' w w'.
Proof.
  intros HT (Hf & Hc & H). split; [assumption|]. split; [assumption|].
  intros q. destruct (H q) as [E|[? E]]; auto.
Qed.

Lemma removes_add_call (T : string -> Prop) (c : call) (w : world) :
  removes T w (add_call c w).
Proof.
  split; [repeat split|split]; [now exists [c] | now left].
Qed.

Lemma removes_absent (T : string -> Prop) (w w' : world) (q : string) :
  removes T w w' -> fs w !! q = None -> fs w' !! q = None.
Proof. intros (_ & _ & H) E. destruct (H q) as [E'|[_ E']]; congruence. Qed.

Lemma removes_outside (T : string -> Prop) (w w' : world) (q : string) :
  removes T w w' -> ~ T q -> fs w' !! q = fs w !! q.
Proof. intros (_ & _ & H) E. destruct (H q) as [E'|[? E']]; tauto. Qed.

Lemma op_ret {A} (T : string -> Prop) (a : A) : op_removes T (ret a).
Proof. intros w r w' [= <- <-]. apply removes_refl. Qed.

Lemma op_throw {A} (T : string -> Prop) (e : jsError) :
  op_removes T (@throw A e).
Proof. intros w r w' [= <- <-]. apply removes_refl. Qed.

Lemma op_bind {A B} (T : string -> Prop) (m : M A) (k : A -> M B) :
  op_removes T m -> (forall a, op_removes T (k a)) -> op_removes T (bind m k).
Proof.
  intros Hm Hk w r w'. unfold bind. destruct (m w) as [[a|e] w1] eqn:E.
  - intros H. eapply removes_trans; [eapply Hm, E | eapply Hk, H].
  - intros [= <- <-]. eapply Hm, E.
Qed.

Lemma op_try_catch {A} (T : string -> Prop) (m : M A) (h : jsError -> M A) :
  op_removes T m -> (forall e, op_removes T (h e)) ->
  op_removes T (try_catch m h).
Proof.
  intros Hm Hh w r w'. unfold try_catch. destruct (m w) as [[a|e] w1] eqn:E.
  - intros [= <- <-]. eapply Hm, E.
  - intros H. eapply removes_trans; [eapply Hm, E | eapply Hh, H].
Qed.

Lemma op_weaken {A} (T T' : string -> Prop) (m : M A) :
  (forall q, T q -> T' q) -> op_removes T m -> op_removes T' m.
Proof.
  intros HT Hm w r w' E. eapply removes_weaken; [exact HT | eapply Hm, E].
Qed.

Lemma op_log (T : string -> Prop) (c : call) : op_removes T (log c).
Proof. intros w r w' [= <- <-]. apply removes_add_call. Qed.

Lemma op_read {A} (T : string -> Prop) (f : world -> A) : op_removes T (read f).
Proof. intros w r w' [= <- <-]. apply removes_refl. Qed.

Lemma op_existsSync (T : string -> Prop) (p : string) :
  op_removes T (fs_existsSync p).
Proof. apply op_bind; [apply op_log | intros _; apply op_read]. Qed.

Lemma removes_delete (p : string) (w : world) :
  removes (eq p) w (set_fs (delete p (fs w)) w).
Proof.
  split; [repeat split|split]; [exists []; now rewrite app_nil_r|].
  intros q. simpl. destruct (decide (p = q)) as [<-|Hne].
  - right. split; [reflexivity | apply lookup_delete_eq].
  - left. now apply lookup_delete_ne.
Qed.

Lemma op_unlink (p : string) : op_removes (eq p) (fs_unlink p).
Proof.
  apply op_bind; [apply op_log | intros _].
  intros w r w'. destruct (fs w !! p) as [[|]|];
    [destruct (bool_decide (p ∈ denied w))| |];
    intros [= <- <-]; try apply removes_refl. apply removes_delete.
Qed.

Lemma op_readdir (T : string -> Prop) (p : string) :
  op_removes T (fs_readdir p).
Proof.
  apply op_bind; [apply op_log | intros _].
  intros w r w'. destruct (fs w !! p) as [[|]|]; intros [= <- <-];
    apply removes_refl.
Qed.

Lemma op_rmdir (p : string) : op_removes (eq p) (fs_rmdir p).
Proof.
  apply op_bind; [apply op_log | intros _].
  intros w r w'. destruct (fs w !! p) as [[|]|];
    [|destruct (entries p (fs w)); [destruct (bool_decide (p ∈ denied w))|]|];
    intros [= <- <-]; try apply removes_refl. apply removes_delete.
Qed.

Lemma lookup_filter_outside (p q : string) (f : gmap string node) :
  filter (fun kv => within p kv.1 = false) f !! q =
  if within p q then None else f !! q.
Proof.
  rewrite map_lookup_filter. destruct (f !! q) as [x|]; simpl.
  - destruct (within p q) eqn:E; case_guard; simpl in *; congruence.
  - now destruct (within p q).
Qed.

Lemma op_rm (p : string) :
  op_removes (fun q => within p q = true) (fs_rm_recursive_force p).
Proof.
  apply op_bind; [apply op_log | intros _].
  intros w r w'. destruct (bool_decide (blocked p w = ∅));
    intros [= <- <-]; [|apply removes_refl].
  split; [repeat split|split]; [exists []; now rewrite app_nil_r|].
  intros q. simpl. rewrite lookup_filter_outside.
  destruct (within p q); auto.
Qed.

Lemma op_cleanup_file (p : string) (errors : list string) :
  op_removes (eq p) (cleanup_file p errors).
Proof.
  apply op_try_catch; [|intros; apply op_ret].
  apply op_bind; [apply op_existsSync | intros [|]; [|apply op_ret]].
  apply op_bind; [apply op_unlink | intros; apply op_ret].
Qed.

Lemma op_cleanup_files (files : list string) (errors : list string) :
  op_removes (fun q => q ∈ files) (cleanup_files files errors).
Proof.
  revert errors. induction files as [|p files IH]; intros errors; simpl.
  - apply op_ret.
  - apply op_bind.
    + eapply op_weaken; [|apply op_cleanup_file].
      intros q <-. apply elem_of_cons. now left.
    + intros errors'. eapply op_weaken; [|apply IH].
      intros q Hq. apply elem_of_cons. now right.
Qed.

Lemma op_cleanup_dir (dir : string) (errors : list string) :
  op_removes (fun q => within dir q = true) (cleanup_dir dir errors).
Proof.
  assert (Hself : forall q, dir = q -> within dir q = true).
  { intros q <-. unfold within. now rewrite bool_decide_eq_true_2. }
  apply op_try_catch; [|intros; apply op_ret].
  apply op_bind; [apply op_existsSync | intros [|]; [|apply op_ret]].
  apply op_bind; [apply op_readdir | intros dirContents].
  destruct (0 <? Z.of_nat (length dirContents)).
  - apply op_bind; [apply op_rm | intros; apply op_ret].
  - apply op_bind; [|intros; apply op_ret].
    eapply op_weaken; [exact Hself | apply op_rmdir].
Qed.

Lemma op_cleanupTemporaryFiles (paths : TemporaryPaths) :
  op_removes (cleanup_targets paths) (cleanupTemporaryFiles paths).
Proof.
  apply op_bind.
  { eapply op_weaken; [|apply op_cleanup_files].
    unfold cleanup_targets. intros q Hq.
    apply elem_of_cons in Hq as [->|Hq]; [now left|].
    apply list_elem_of_singleton in Hq as ->. right. now left. }
  intros errors. apply op_bind.
  { eapply op_weaken; [|apply op_cleanup_dir].
    unfold cleanup_targets. tauto. }
  intros errors'. destruct (0 <? _); [apply op_throw | apply op_ret].
Qed.

Lemma existsSync_run (p : string) (w : world) :
  fs_existsSync p w =
  (Return (bool_decide (is_Some (fs w !! p))), add_call (CallExistsSync p) w).
Proof. reflexivity. Qed.

Lemma cleanup_file_result (p : string) (errors : list string) (w : world) :
  exists extra w',
    cleanup_file p errors w = (Return (errors ++ extra), w') /\
    (extra = [] -> fs w' !! p = None) /\
    (fs w !! p = None -> extra = []).
Proof.
  unfold cleanup_file, try_catch, bind. rewrite existsSync_run.
  case_bool_decide as Hex.
  - unfold fs_unlink, bind, log, modify, ret. simpl.
    destruct (fs w !! p) as [[|]|] eqn:E;
      [destruct (bool_decide (p ∈ denied w))| |];
      try (eexists [_], _; split; [reflexivity | split; discriminate]).
    + exists [], (set_fs (delete p (fs w)) (add_call (CallUnlink p)
                    (add_call (CallExistsSync p) w))).
      rewrite app_nil_r. split; [reflexivity|].
      split; [intros _; apply lookup_delete_eq | reflexivity].
    + now destruct Hex.
  - exists [], (add_call (CallExistsSync p) w). rewrite app_nil_r.
    split; [reflexivity|].
    split; [intros _; simpl; now apply eq_None_not_Some | reflexivity].
Qed.

Lemma cleanup_files_result (files errors : list string) (w : world) :
  exists extra w',
    cleanup_files files errors w = (Return (errors ++ extra), w') /\
    (extra = [] -> forall p, p ∈ files -> fs w' !! p = None).
Proof.
  revert errors w. induction files as [|p files IH]; intros errors w; simpl.
  - exists [], w. rewrite app_nil_r. split; [reflexivity|].
    intros _ p Hp. now apply elem_of_nil in Hp.
  - destruct (cleanup_file_result p errors w) as (x1 & w1 & E1 & H1 & _).
    destruct (IH (errors ++ x1) w1) as (x2 & w2 & E2 & H2).
    exists (x1 ++ x2), w2. unfold bind. rewrite E1, E2, app_assoc.
    split; [reflexivity|]. intros Hnil q Hq.
    apply app_eq_nil in Hnil as [-> ->].
    apply elem_of_cons in Hq as [->|Hq]; [|now apply H2].
    eapply removes_absent; [eapply op_cleanup_files, E2 | now apply H1].
Qed.

Lemma within_self (dir : string) : within dir dir = true.
Proof. unfold within. now rewrite bool_decide_eq_true_2. Qed.

Lemma cleanup_dir_result (dir : string) (errors : list string) (w : world) :
  exists extra w',
    cleanup_dir dir errors w = (Return (errors ++ extra), w') /\
    (extra = [] -> fs w' !! dir = None) /\
    (fs w !! dir = None -> extra = []).
Proof.
  unfold cleanup_dir, try_catch, bind. rewrite existsSync_run.
  case_bool_decide as Hex.
  - unfold fs_readdir, bind, log, modify, ret. simpl.
    destruct (fs w !! dir) as [[|]|] eqn:E;
      try (eexists [_], _; split; [reflexivity | split; discriminate]);
      [|now destruct Hex].
    destruct (entries dir (fs w)) as [|x l] eqn:El; simpl.
    + unfold fs_rmdir, bind, log, modify. simpl. rewrite E, El.
      destruct (bool_decide (dir ∈ denied w));
        [eexists [_], _; split; [reflexivity | split; discriminate]|].
      eexists [], _. rewrite app_nil_r. split; [reflexivity|].
      split; [intros _; apply lookup_delete_eq | reflexivity].
    + unfold fs_rm_recursive_force, bind, log, modify. simpl.
      destruct (bool_decide (blocked dir _ = ∅));
        [|eexists [_], _; split; [reflexivity | split; discriminate]].
      eexists [], _. rewrite app_nil_r. split; [reflexivity|].
      split; [|reflexivity].
      intros _. simpl. rewrite lookup_filter_outside. now rewrite within_self.
  - exists [], (add_call (CallExistsSync dir) w). rewrite app_nil_r.
    split; [reflexivity|].
    split; [intros _; simpl; now apply eq_None_not_Some | reflexivity].
Qed.

(** [cleanupTemporaryFiles] always comes back: with nothing when no removal
    failed, and then the three paths are gone; with a [CleanupError] that
    carries every failure otherwise. *)
Lemma cleanupTemporaryFiles_result (paths : TemporaryPaths) (w : world) :
  exists errors w',
    cleanupTemporaryFiles paths w =
      (match errors with
       | [] => Return tt
       | _ :: _ => Throw (CleanupError errors)
       end, w') /\
    (errors = [] ->
     fs w' !! videoPath paths = None /\ fs w' !! audioPath paths = None /\
     fs w' !! tempDir paths = None).
Proof.
  unfold cleanupTemporaryFiles, bind.
  destruct (cleanup_files_result [videoPath paths; audioPath paths] [] w)
    as (x1 & w1 & E1 & H1).
  destruct (cleanup_dir_result (tempDir paths) ([] ++ x1) w1)
    as (x2 & w2 & E2 & H2 & _).
  rewrite E1, E2. simpl. exists (x1 ++ x2), w2. split.
  - now destruct (x1 ++ x2).
  - intros Hnil. apply app_eq_nil in Hnil as [-> ->].
    assert (Hr : removes (fun q => within (tempDir paths) q = true) w1 w2)
      by (eapply op_cleanup_dir, E2).
    repeat split; [| |now apply H2];
      (eapply removes_absent; [exact Hr | apply H1; [reflexivity|]]).
    + apply elem_of_cons. now left.
    + apply elem_of_cons. right. now apply list_elem_of_singleton.
Qed.

(** A path that is already gone when [cleanupTemporaryFiles] starts raises
    nothing: the errors are those of the video file, of the audio file and
    of the directory, in this order, and each part is empty when its path
    is absent. *)
Lemma cleanup_ignores_absent (paths : TemporaryPaths) (w : world) :
  exists ev ea ed w',
    cleanupTemporaryFiles paths w =
      (match ev ++ ea ++ ed with
       | [] => Return tt
       | _ :: _ => Throw (CleanupError (ev ++ ea ++ ed))
       end, w') /\
    (fs w !! videoPath paths = None -> ev = []) /\
    (fs w !! audioPath paths = None -> ea = []) /\
    (fs w !! tempDir paths = None -> ed = []).
Proof.
  unfold cleanupTemporaryFiles, cleanup_files, bind.
  destruct (cleanup_file_result (videoPath paths) [] w)
    as (ev & w1 & E1 & _ & Hv).
  destruct (cleanup_file_result (audioPath paths) ([] ++ ev) w1)
    as (ea & w2 & E2 & _ & Ha).
  destruct (cleanup_dir_result (tempDir paths) (([] ++ ev) ++ ea) w2)
    as (ed & w3 & E3 & _ & Hd).
  rewrite E1, E2. unfold ret. rewrite E3. simpl.
  exists ev, ea, ed, w3. rewrite <- app_assoc.
  assert (R1 : removes (eq (videoPath paths)) w w1)
    by (eapply op_cleanup_file, E1).
  assert (R2 : removes (eq (audioPath paths)) w1 w2)
    by (eapply op_cleanup_file, E2).
  split; [now destruct (ev ++ ea ++ ed)|]. split; [exact Hv|]. split.
  - intros H. apply Ha. eapply removes_absent; eauto.
  - intros H. apply Hd. eapply removes_absent; [exact R2|].
    eapply removes_absent; eauto.
Qed.

End FileSystemFacts.

(** ** Cleanup, twice *)

Lemma cleanup_when_absent (paths : TemporaryPaths) (w : world) :
  fs w !! videoPath paths = None ->
  fs w !! audioPath paths = None ->
  fs w !! tempDir paths = None ->
  cleanupTemporaryFiles paths w =
  (Return tt,
   add_call (CallExistsSync (tempDir paths))
     (add_call (CallExistsSync (audioPath paths))
        (add_call (CallExistsSync (videoPath paths)) w))).
Proof.
  intros Hv Ha Hd.
  unfold cleanupTemporaryFiles, cleanup_files, cleanup_file, cleanup_dir,
    try_catch, bind.
  rewrite !existsSync_run. simpl. rewrite Hv. simpl.
  rewrite Ha. simpl. rewrite Hd. reflexivity.
Qed.

Lemma cleanup_Return_inv (paths : TemporaryPaths) (w w' : world) :
  cleanupTemporaryFiles paths w = (Return tt, w') ->
  fs w' !! videoPath paths = None /\ fs w' !! audioPath paths = None /\
  fs w' !! tempDir paths = None.
Proof.
  intros H. destruct (cleanupTemporaryFiles_result paths w)
    as (errors & w1 & E & Habsent).
  rewrite H in E. destruct errors; [|discriminate E].
  injection E as ->. now apply Habsent.
Qed.

(** C8: a second cleanup after a first one that completed completes too; it
    finds the two intermediate files and the root directory gone, attempts
    no removal and leaves the file system as it is. *)
Theorem cleanup_twice (paths : TemporaryPaths) (w w' : world) :
  cleanupTemporaryFiles paths w = (Return tt, w') ->
  exists w'',
    cleanupTemporaryFiles paths w' = (Return tt, w'') /\
    fs w'' = fs w' /\
    calls w'' = calls w' ++ [CallExistsSync (videoPath paths);
                             CallExistsSync (audioPath paths);
                             CallExistsSync (tempDir paths)].
Proof.
  intros H. apply cleanup_Return_inv in H as (Hv & Ha & Hd).
  eexists. split; [now apply cleanup_when_absent|]. split; [reflexivity|].
  simpl. now rewrite <- !app_assoc.
Qed.

Lemma cleanup_twice_witness :
  exists w'',
    cleanupTemporaryFiles sample_paths
      (cleanupTemporaryFiles sample_paths
         (sample_world sample_files ∅ quiet_externals)).2
    = (Return tt, w'') /\
    fs w'' =
      fs (cleanupTemporaryFiles sample_paths
            (sample_world sample_files ∅ quiet_externals)).2 /\
    calls w'' =
      calls (cleanupTemporaryFiles sample_paths
               (sample_world sample_files ∅ quiet_externals)).2
      ++ [CallExistsSync (videoPath sample_paths);
          CallExistsSync (audioPath sample_paths);
          CallExistsSync (tempDir sample_paths)].
Proof.
  apply (cleanup_twice sample_paths
           (sample_world sample_files ∅ quiet_externals)).
  vm_compute. reflexivity.
Defined.

(** ** The pipeline *)

Lemma bind_Return_inv {A B} (m : M A) (k : A -> M B) (w w' : world) (b : B) :
  bind m k w = (Return b, w') ->
  exists a w1, m w = (Return a, w1) /\ k a w1 = (Return b, w').
Proof.
  unfold bind. destruct (m w) as [[a|e] w1]; [eauto | discriminate].
Qed.

Lemma append_prefix (a b : string) : String.prefix a (a +:+ b) = true.
Proof.
  induction a as [|c a IH]; simpl; [now destruct b|].
  destruct (ascii_dec c c); [exact IH | congruence].
Qed.

Lemma inside_path_join (dir name : string) :
  inside dir (path_join dir name) = true.
Proof.
  unfold inside, path_join. rewrite <- append_assoc. apply append_prefix.
Qed.

Lemma within_path_join (dir name : string) :
  within dir (path_join dir name) = true.
Proof. unfold within. rewrite inside_path_join. apply orb_true_r. Qed.

Lemma createTemporaryPaths_Return (this : FileManager) (w w1 : world)
    (paths : TemporaryPaths) :
  createTemporaryPaths this w = (Return paths, w1) -> paths = paths_of this.
Proof.
  unfold createTemporaryPaths, try_catch, bind, throw.
  destruct (fs_mkdir_recursive (baseTempDir this) w) as [[[]|e] w0];
    [|discriminate].
  rewrite existsSync_run. destruct (bool_decide _); simpl; [|discriminate].
  now intros [= <- _].
Qed.

Lemma verifyOutputFile_Return (outputPath : string) (w w' : world) :
  verifyOutputFile outputPath w = (Return tt, w') ->
  w' = add_call (CallExistsSync outputPath) w /\
  is_Some (fs w !! outputPath).
Proof.
  unfold verifyOutputFile, bind. rewrite existsSync_run.
  case_bool_decide; simpl; [|discriminate]. now intros [= <-].
Qed.

Lemma processMedia_try_Return (paths : TemporaryPaths)
    (videoStream audioStream : Readable) (finalOutputPath : string)
    (options : ProcessingOptions)
    (onProgress : option (callback ProcessingProgress)) (w w' : world) :
  processMedia_try paths videoStream audioStream finalOutputPath options
    onProgress w = (Return tt, w') ->
  is_Some (fs w' !! finalOutputPath) /\
  exists earlier, calls w' = earlier ++ [CallExistsSync finalOutputPath].
Proof.
  unfold processMedia_try. intros H.
  do 6 (apply bind_Return_inv in H as (? & ? & _ & H)).
  apply verifyOutputFile_Return in H as [-> Hout]. split; [exact Hout|].
  simpl. eauto.
Qed.

(** The [catch] block always rethrows or throws. *)
Lemma catch_block_throws (paths : TemporaryPaths) (error : jsError)
    (w w' : world) (r : result unit) :
  (run cleanupTemporaryFiles paths; throw error) w = (r, w') ->
  exists e, r = Throw e.
Proof.
  unfold bind, throw. destruct (cleanupTemporaryFiles paths w) as [[[]|e] w1];
    intros [= <- _]; eauto.
Qed.

Lemma processMedia_Return_inv (fileManager : FileManager)
    (videoStream audioStream : Readable) (finalOutputPath : string)
    (options : ProcessingOptions)
    (onProgress : option (callback ProcessingProgress)) (w w' : world) :
  processMedia fileManager videoStream audioStream finalOutputPath options
    onProgress w = (Return tt, w') ->
  exists w1 w2,
    createTemporaryPaths fileManager w = (Return (paths_of fileManager), w1) /\
    processMedia_try (paths_of fileManager) videoStream audioStream
      finalOutputPath options onProgress w1 = (Return tt, w2) /\
    cleanupTemporaryFiles (paths_of fileManager) w2 = (Return tt, w').
Proof.
  unfold processMedia. intros H.
  apply bind_Return_inv in H as (paths & w1 & Hcreate & H).
  pose proof (createTemporaryPaths_Return _ _ _ _ Hcreate) as ->.
  apply bind_Return_inv in H as ([] & w2 & Htry & Hclean).
  exists w1, w2. split; [exact Hcreate|]. split; [|exact Hclean].
  unfold try_catch in Htry.
  destruct (processMedia_try _ _ _ _ _ _ w1) as [[[]|e] w3] eqn:E.
  - now injection Htry as ->.
  - apply catch_block_throws in Htry as [e' He']. discriminate He'.
Qed.

Lemma outside_not_target (this : FileManager) (q : string) :
  within (baseTempDir this) q = false -> ~ cleanup_targets (paths_of this) q.
Proof.
  intros Hq [-> | [-> | H]]; simpl in *.
  - now rewrite within_path_join in Hq.
  - now rewrite within_path_join in Hq.
  - congruence.
Qed.

(** C1, as stated, fails for an output path inside the workspace: the run
    completes, and the recursive removal of the root directory takes the
    output file with it. *)
Lemma output_inside_workspace_is_removed :
  (processMedia sample_fileManager
     (plain_stream sample_video_format) (plain_stream sample_audio_format)
     "/tmp/ytdownload_1700000000000/video.mkv" no_processing_options None
     (sample_world ∅ ∅ sample_run)).1 = Return tt /\
  fs (processMedia sample_fileManager
        (plain_stream sample_video_format) (plain_stream sample_audio_format)
        "/tmp/ytdownload_1700000000000/video.mkv" no_processing_options None
        (sample_world ∅ ∅ sample_run)).2
    !! "/tmp/ytdownload_1700000000000/video.mkv" = None.
Proof. split; vm_compute; reflexivity. Qed.

(** C1, amended: for every run of [processMedia] that completes, with an
    output path that is neither the workspace root nor inside it, the output
    file exists at completion and the root directory and both intermediate
    files do not; the final cleanup started from a world in which the output
    file existed, and left every path outside the root as it was. *)
Theorem processMedia_success (fileManager : FileManager)
    (videoStream audioStream : Readable) (finalOutputPath : string)
    (options : ProcessingOptions)
    (onProgress : option (callback ProcessingProgress)) (w w' : world) :
  within (baseTempDir fileManager) finalOutputPath = false ->
  processMedia fileManager videoStream audioStream finalOutputPath options
    onProgress w = (Return tt, w') ->
  is_Some (fs w' !! finalOutputPath) /\
  fs w' !! tempDir (paths_of fileManager) = None /\
  fs w' !! videoPath (paths_of fileManager) = None /\
  fs w' !! audioPath (paths_of fileManager) = None /\
  exists w2,
    cleanupTemporaryFiles (paths_of fileManager) w2 = (Return tt, w') /\
    is_Some (fs w2 !! finalOutputPath) /\
    forall q, within (baseTempDir fileManager) q = false ->
              fs w' !! q = fs w2 !! q.
Proof.
  intros Hout H.
  apply processMedia_Return_inv in H as (w1 & w2 & _ & Htry & Hclean).
  apply processMedia_try_Return in Htry as [Hsome _].
  pose proof (op_cleanupTemporaryFiles _ _ _ _ Hclean) as Hrem.
  assert (Hkeep : forall q, within (baseTempDir fileManager) q = false ->
                            fs w' !! q = fs w2 !! q).
  { intros q Hq. eapply removes_outside; [exact Hrem|].
    now apply outside_not_target. }
  apply cleanup_Return_inv in Hclean as Habsent.
  destruct Habsent as (Hv & Ha & Hd).
  split; [now rewrite Hkeep|]. repeat (split; [assumption|]).
  exists w2. auto.
Qed.

Lemma processMedia_success_witness :
  is_Some
    (fs (processMedia sample_fileManager
           (plain_stream sample_video_format)
           (plain_stream sample_audio_format)
           "out/video.mkv" no_processing_options None
           (sample_world ∅ ∅ sample_run)).2 !! "out/video.mkv") /\
  fs (processMedia sample_fileManager
        (plain_stream sample_video_format)
        (plain_stream sample_audio_format)
        "out/video.mkv" no_processing_options None
        (sample_world ∅ ∅ sample_run)).2
    !! "/tmp/ytdownload_1700000000000" = None.
Proof.
  assert (H : processMedia sample_fileManager
                (plain_stream sample_video_format)
                (plain_stream sample_audio_format)
                "out/video.mkv" no_processing_options None
                (sample_world ∅ ∅ sample_run) =
              (Return tt,
               (processMedia sample_fileManager
                  (plain_stream sample_video_format)
                  (plain_stream sample_audio_format)
                  "out/video.mkv" no_processing_options None
                  (sample_world ∅ ∅ sample_run)).2))
    by (vm_compute; reflexivity).
  apply processMedia_success in H as (Hout & Hroot & _);
    [|vm_compute; reflexivity].
  split; [exact Hout | exact Hroot].
Defined.

(** The same for [downloadVideo], which completes only when its
    [processMedia] did. *)
Lemma downloadVideo_success (this : YoutubeDownloader)
    (url outputPath : string) (options : DownloadOptions)
    (onProgress : option (callback DownloaderProgress)) (w w' : world) :
  within (baseTempDir (fileManager this)) outputPath = false ->
  downloadVideo this url outputPath options onProgress w = (Return tt, w') ->
  is_Some (fs w' !! outputPath) /\
  fs w' !! tempDir (paths_of (fileManager this)) = None /\
  fs w' !! videoPath (paths_of (fileManager this)) = None /\
  fs w' !! audioPath (paths_of (fileManager this)) = None.
Proof.
  intros Hout H. unfold downloadVideo, try_catch in H.
  match type of H with
  | match ?body w with _ => _ end = _ =>
      destruct (body w) as [[[]|e] w1] eqn:E; [|discriminate H]
  end.
  injection H as ->.
  do 3 (apply bind_Return_inv in E as (? & ? & _ & E)).
  apply processMedia_Return_inv in E as (w1 & w2 & _ & Htry & Hclean).
  apply processMedia_try_Return in Htry as [Hsome _].
  pose proof (op_cleanupTemporaryFiles _ _ _ _ Hclean) as Hrem.
  apply cleanup_Return_inv in Hclean as (Hv & Ha & Hd).
  split; [|auto].
  erewrite removes_outside; [exact Hsome | exact Hrem|].
  now apply outside_not_target.
Qed.

(** ** Failures *)

(** How [processMedia] ends once the workspace is there: the outcome of the
    [try] block, then of the cleanup pass. *)
Lemma processMedia_outcome (fileManager : FileManager)
    (videoStream audioStream : Readable) (finalOutputPath : string)
    (options : ProcessingOptions)
    (onProgress : option (callback ProcessingProgress))
    (w w1 w2 w3 : world) (paths : TemporaryPaths)
    (tried cleaned : result unit) :
  createTemporaryPaths fileManager w = (Return paths, w1) ->
  processMedia_try paths videoStream audioStream finalOutputPath options
    onProgress w1 = (tried, w2) ->
  cleanupTemporaryFiles paths w2 = (cleaned, w3) ->
  processMedia fileManager videoStream audioStream finalOutputPath options
    onProgress w =
  (match cleaned, tried with
   | Throw cleanupError, _ => Throw cleanupError
   | Return _, Throw error => Throw error
   | Return _, Return _ => Return tt
   end, w3).
Proof.
  intros Hcreate Htry Hclean. unfold processMedia, bind, try_catch, throw.
  rewrite Hcreate, Htry. destruct tried as [[]|error]; rewrite Hclean;
    destruct cleaned as [[]|cleanupError]; reflexivity.
Qed.

Lemma cleanup_Throw_inv (paths : TemporaryPaths) (w w' : world) (e : jsError) :
  cleanupTemporaryFiles paths w = (Throw e, w') ->
  exists errors, e = CleanupError errors /\ errors <> [].
Proof.
  intros H. destruct (cleanupTemporaryFiles_result paths w)
    as (errors & w1 & E & _).
  rewrite H in E. destruct errors as [|x l]; [discriminate E|].
  injection E as -> _. now exists (x :: l).
Qed.



(** C3 at a failing input: the video transcode fails, leaving a partial file
    that the system refuses to remove.  The [try] block throws the video
    error; the cleanup in the [catch] block throws before [throw error] is
    reached, and the caller of [processMedia] and of [downloadVideo] gets the
    [CleanupError] alone. *)
Theorem cleanup_error_replaces_primary_error :
  (processMedia_try sample_paths
     (plain_stream sample_video_format) (plain_stream sample_audio_format)
     "out/video.mkv" no_processing_options None
     (createTemporaryPaths sample_fileManager locked_video_world).2).1
  = Throw (Error "Video processing failed: Conversion failed!") /\
  (processMedia sample_fileManager
     (plain_stream sample_video_format) (plain_stream sample_audio_format)
     "out/video.mkv" no_processing_options None locked_video_world).1
  = Throw (CleanupError locked_video_errors) /\
  ((do this <- new_YoutubeDownloader;
    downloadVideo this sample_url "out/video.mkv" no_options None)
     locked_video_world).1
  = Throw (Error ("Download failed: " +:+
                  error_message (CleanupError locked_video_errors))).
Proof. split; [|split]; vm_compute; reflexivity. Qed.

(** ** Invariants through the pipeline

    [I] is any property of the world that survives a change of the file
    system and of the set of live processes, the logging of the calls in
    [ok_call] and the delivery of the events in [ok_events]. *)

Section Invariants.

Variable I : world -> Prop.
Variable ok_call : call -> Prop.
Variable ok_events : list progressEvent -> Prop.

Hypothesis I_fs : forall f w, I w -> I (set_fs f w).
Hypothesis I_running : forall r w, I w -> I (set_running r w).
Hypothesis I_call : forall c w, ok_call c -> I w -> I (add_call c w).
Hypothesis I_sink : forall es w, ok_events es -> I w -> I (add_sink es w).
Hypothesis ok_fs : forall c, is_fs_call c = true -> ok_call c.

Lemma keeps_ret {A} (a : A) : keeps I (ret a).
Proof. intros w r w' [= <- <-]. auto. Qed.

Lemma keeps_throw {A} (e : jsError) : keeps I (@throw A e).
Proof. intros w r w' [= <- <-]. auto. Qed.

Lemma keeps_read {A} (f : world -> A) : keeps I (read f).
Proof. intros w r w' [= <- <-]. auto. Qed.

Lemma keeps_lift {A} (x : result A) : keeps I (lift x).
Proof. intros w r w' [= <- <-]. auto. Qed.

Lemma keeps_bind {A B} (m : M A) (k : A -> M B) :
  keeps I m -> (forall a, keeps I (k a)) -> keeps I (bind m k).
Proof.
  intros Hm Hk w r w'. unfold bind. destruct (m w) as [[a|e] w1] eqn:E.
  - intros H Hw. eapply Hk; [exact H | eapply Hm; eauto].
  - intros [= <- <-] Hw. eapply Hm; eauto.
Qed.

Lemma keeps_try_catch {A} (m : M A) (h : jsError -> M A) :
  keeps I m -> (forall e, keeps I (h e)) -> keeps I (try_catch m h).
Proof.
  intros Hm Hh w r w'. unfold try_catch. destruct (m w) as [[a|e] w1] eqn:E.
  - intros [= <- <-] Hw. eapply Hm; eauto.
  - intros H Hw. eapply Hh; [exact H | eapply Hm; eauto].
Qed.

Lemma keeps_log (c : call) : ok_call c -> keeps I (log c).
Proof. intros Hc w r w' [= <- <-]. auto. Qed.

Lemma keeps_invoke {P} (cb : option (callback P)) (p : P) :
  (forall f, cb = Some f -> ok_events (f p)) -> keeps I (invoke cb p).
Proof.
  intros Hcb. destruct cb as [f|]; [|apply keeps_ret].
  intros w r w' [= <- <-]. auto.
Qed.

Lemma keeps_existsSync (p : string) : keeps I (fs_existsSync p).
Proof.
  apply keeps_bind; [now apply keeps_log, ok_fs | intros; apply keeps_read].
Qed.

Lemma keeps_mkdir (p : string) : keeps I (fs_mkdir_recursive p).
Proof.
  apply keeps_bind; [now apply keeps_log, ok_fs | intros _].
  intros w r w'. destruct (fs w !! p) as [[|]|];
    [| |destruct (bool_decide (p ∈ denied w))]; intros [= <- <-]; auto.
Qed.

Lemma keeps_unlink (p : string) : keeps I (fs_unlink p).
Proof.
  apply keeps_bind; [now apply keeps_log, ok_fs | intros _].
  intros w r w'. destruct (fs w !! p) as [[|]|];
    [destruct (bool_decide (p ∈ denied w))| |]; intros [= <- <-]; auto.
Qed.

Lemma keeps_readdir (p : string) : keeps I (fs_readdir p).
Proof.
  apply keeps_bind; [now apply keeps_log, ok_fs | intros _].
  intros w r w'. destruct (fs w !! p) as [[|]|]; intros [= <- <-]; auto.
Qed.

Lemma keeps_rmdir (p : string) : keeps I (fs_rmdir p).
Proof.
  apply keeps_bind; [now apply keeps_log, ok_fs | intros _].
  intros w r w'. destruct (fs w !! p) as [[|]|];
    [|destruct (entries p (fs w)); [destruct (bool_decide (p ∈ denied w))|]|];
    intros [= <- <-]; auto.
Qed.

Lemma keeps_rm (p : string) : keeps I (fs_rm_recursive_force p).
Proof.
  apply keeps_bind; [now apply keeps_log, ok_fs | intros _].
  intros w r w'. destruct (bool_decide (blocked p w = ∅));
    intros [= <- <-]; auto.
Qed.

Lemma keeps_createTemporaryPaths (this : FileManager) :
  keeps I (createTemporaryPaths this).
Proof.
  apply keeps_try_catch; [|intros; apply keeps_throw].
  apply keeps_bind; [apply keeps_mkdir | intros _].
  apply keeps_bind; [apply keeps_existsSync | intros [|]]; simpl;
    [apply keeps_ret | apply keeps_throw].
Qed.

Lemma keeps_verify_each (files : list (string * string)) :
  keeps I (verify_each files).
Proof.
  induction files as [|[path name] files IH]; simpl; [apply keeps_ret|].
  apply keeps_bind; [apply keeps_existsSync | intros [|]]; simpl;
    [exact IH | apply keeps_throw].
Qed.

Lemma keeps_verifyOutputFile (outputPath : string) :
  keeps I (verifyOutputFile outputPath).
Proof.
  apply keeps_bind; [apply keeps_existsSync | intros [|]]; simpl;
    [apply keeps_ret | apply keeps_throw].
Qed.

Lemma keeps_cleanupTemporaryFiles (paths : TemporaryPaths) :
  keeps I (cleanupTemporaryFiles paths).
Proof.
  assert (Hfile : forall p errors, keeps I (cleanup_file p errors)).
  { intros p errors. apply keeps_try_catch; [|intros; apply keeps_ret].
    apply keeps_bind; [apply keeps_existsSync | intros [|]];
      [|apply keeps_ret].
    apply keeps_bind; [apply keeps_unlink | intros; apply keeps_ret]. }
  assert (Hfiles : forall files errors, keeps I (cleanup_files files errors)).
  { induction files as [|p files IH]; intros errors; simpl;
      [apply keeps_ret|]. apply keeps_bind; [apply Hfile | intros; apply IH]. }
  apply keeps_bind; [apply Hfiles | intros errors].
  apply keeps_bind.
  - apply keeps_try_catch; [|intros; apply keeps_ret].
    apply keeps_bind; [apply keeps_existsSync | intros [|]];
      [|apply keeps_ret].
    apply keeps_bind; [apply keeps_readdir | intros dirContents].
    destruct (0 <? _);
      (apply keeps_bind; [|intros; apply keeps_ret]);
      [apply keeps_rm | apply keeps_rmdir].
  - intros errors'. destruct (0 <? _); [apply keeps_throw | apply keeps_ret].
Qed.

Lemma keeps_settle (j : job) (outputPath prefix : string) :
  keeps I (settle j outputPath prefix).
Proof.
  intros w r w'. unfold settle.
  destruct (br_error _), (br_wrote _); intros [= <- <-]; auto.
Qed.

Lemma keeps_await (p : Promise) : Forall (keeps I) p -> keeps I (await p).
Proof.
  induction 1 as [|step p Hstep Hp IH]; simpl; [apply keeps_ret|].
  apply keeps_bind; [exact Hstep | intros; exact IH].
Qed.

Lemma keeps_interleave (schedule : list bool) (p q : Promise) :
  Forall (keeps I) p -> Forall (keeps I) q ->
  keeps I (interleave schedule p q).
Proof.
  revert p q. induction schedule as [|[|] later IH]; intros p q Hp Hq; simpl.
  - apply keeps_bind; [now apply keeps_await | intros; now apply keeps_await].
  - destruct Hp as [|step p Hstep Hp]; [now apply IH|].
    apply keeps_bind; [exact Hstep | intros; now apply IH].
  - destruct Hq as [|step q Hstep Hq]; [now apply IH|].
    apply keeps_bind; [exact Hstep | intros; now apply IH].
Qed.

Lemma keeps_Promise_all (p q : Promise) :
  Forall (keeps I) p -> Forall (keeps I) q -> keeps I (Promise_all p q).
Proof.
  intros Hp Hq. apply keeps_bind; [apply keeps_read | intros].
  now apply keeps_interleave.
Qed.

Lemma keeps_progress_events (st : ProcessingStage)
    (onProgress : option (callback ProcessingProgress))
    (ticks : list (option Q * option string)) :
  (forall f p, onProgress = Some f -> ok_events (f p)) ->
  Forall (keeps I) (progress_events st onProgress ticks).
Proof.
  intros Hcb. apply Forall_map, Forall_forall. intros tick _. simpl.
  apply keeps_invoke. eauto.
Qed.

(** [save] keeps [I], and so does every step of the promise it returns. *)
Lemma keeps_save (j : job) (command : ffmpegCommand) (outputPath : string)
    (input : list (M unit)) (st : ProcessingStage)
    (onProgress : option (callback ProcessingProgress)) (prefix : string) :
  ok_call (CallFfmpegSave j command outputPath) ->
  keeps I (save j command outputPath input st onProgress prefix).
Proof.
  intros Hc. apply keeps_bind; [now apply keeps_log | intros _].
  apply keeps_bind; [|intros _].
  { intros w r w' [= <- <-]. auto. }
  apply keeps_bind; [apply keeps_read | intros; apply keeps_ret].
Qed.

Lemma save_promise (j : job) (command : ffmpegCommand) (outputPath : string)
    (input : list (M unit)) (st : ProcessingStage)
    (onProgress : option (callback ProcessingProgress)) (prefix : string)
    (w w' : world) (p : Promise) :
  save j command outputPath input st onProgress prefix w = (Return p, w') ->
  p = input ++ progress_events st onProgress (br_ticks (ext_ffmpeg (ext w) j))
      ++ [settle j outputPath prefix].
Proof. now intros [= <- _]. Qed.

Lemma promise_keeps (input : list (M unit)) (st : ProcessingStage)
    (onProgress : option (callback ProcessingProgress))
    (ticks : list (option Q * option string)) (j : job)
    (outputPath prefix : string) :
  Forall (keeps I) input ->
  (forall f p, onProgress = Some f -> ok_events (f p)) ->
  Forall (keeps I)
    (input ++ progress_events st onProgress ticks
     ++ [settle j outputPath prefix]).
Proof.
  intros Hin Hcb. apply Forall_app. split; [exact Hin|].
  apply Forall_app. split; [now apply keeps_progress_events|].
  constructor; [apply keeps_settle | constructor].
Qed.

(** A promise with a step that throws wherever [I] holds rejects
    [Promise.all], whatever the schedule. *)
Lemma await_rejects (p : Promise) (w : world) :
  Forall (keeps I) p -> Exists (rejects I) p -> I w ->
  exists e, (await p w).1 = Throw e.
Proof.
  intros Hp Hex. revert w.
  induction Hp as [|step p Hstep Hp IH]; intros w Hw;
    [now apply Exists_nil in Hex|].
  simpl. unfold bind. destruct (step w) as [[[]|e] w1] eqn:E; [|simpl; eauto].
  apply Exists_cons in Hex as [Hrej|Hex].
  - destruct (Hrej w Hw) as [e He]. rewrite E in He. discriminate He.
  - apply IH; [exact Hex | eapply Hstep; eauto].
Qed.

Lemma interleave_rejects (schedule : list bool) (p q : Promise) (w : world) :
  Forall (keeps I) p -> Forall (keeps I) q -> Exists (rejects I) p -> I w ->
  exists e, (interleave schedule p q w).1 = Throw e.
Proof.
  revert p q w.
  induction schedule as [|[|] later IH]; intros p q w Hp Hq Hex Hw; simpl.
  - unfold bind. destruct (await_rejects p w Hp Hex Hw) as [e He].
    destruct (await p w) as [[[]|e'] w1]; [discriminate He | simpl; eauto].
  - destruct Hp as [|step p Hstep Hp]; [now apply Exists_nil in Hex|].
    unfold bind. destruct (step w) as [[[]|e] w1] eqn:E; [|simpl; eauto].
    apply Exists_cons in Hex as [Hrej|Hex].
    + destruct (Hrej w Hw) as [e He]. rewrite E in He. discriminate He.
    + apply IH; auto. eapply Hstep; eauto.
  - destruct Hq as [|step q Hstep Hq]; [now apply IH|].
    unfold bind. destruct (step w) as [[[]|e] w1] eqn:E; [|simpl; eauto].
    apply IH; auto. eapply Hstep; eauto.
Qed.

Lemma keeps_bind_with {A B} (Q : A -> Prop) (m : M A) (k : A -> M B) :
  keeps I m ->
  (forall w a w', I w -> m w = (Return a, w') -> Q a) ->
  (forall a, Q a -> keeps I (k a)) ->
  keeps I (bind m k).
Proof.
  intros Hm HQ Hk w r w'. unfold bind. destruct (m w) as [[a|e] w1] eqn:E.
  - intros H Hw. eapply Hk; [eapply HQ; eauto | exact H | eapply Hm; eauto].
  - intros [= <- <-] Hw. eapply Hm; eauto.
Qed.

Lemma keeps_processVideoStream (videoStream : Readable) (outputPath : string)
    (options : ProcessingOptions)
    (onProgress : option (callback ProcessingProgress)) :
  (forall c, ok_call (CallFfmpegSave VideoJob c outputPath)) ->
  keeps I (processVideoStream videoStream outputPath options onProgress).
Proof.
  intros Hc. apply keeps_bind; [apply keeps_read | intros r].
  apply keeps_save, Hc.
Qed.

Lemma keeps_processAudioStream (audioStream : Readable) (outputPath : string)
    (options : ProcessingOptions)
    (onProgress : option (callback ProcessingProgress)) :
  (forall c, ok_call (CallFfmpegSave AudioJob c outputPath)) ->
  keeps I (processAudioStream audioStream outputPath options onProgress).
Proof.
  intros Hc. apply keeps_bind; [apply keeps_read | intros r].
  apply keeps_save, Hc.
Qed.

Lemma keeps_combineStreams (videoPath audioPath outputPath : string)
    (options : ProcessingOptions)
    (onProgress : option (callback ProcessingProgress)) :
  (forall c, ok_call (CallFfmpegSave CombineJob c outputPath)) ->
  keeps I (combineStreams videoPath audioPath outputPath options onProgress).
Proof. intros Hc. apply keeps_save, Hc. Qed.

(** The whole of [processMedia] keeps [I], when the calls to the backend
    are in [ok_call], the events of the callback are in [ok_events], and
    the data listeners of the two streams keep [I]. *)
Lemma keeps_processMedia (fileManager : FileManager)
    (videoStream audioStream : Readable) (finalOutputPath : string)
    (options : ProcessingOptions)
    (onProgress : option (callback ProcessingProgress)) :
  (forall j c p, ok_call (CallFfmpegSave j c p)) ->
  (forall f p, onProgress = Some f -> ok_events (f p)) ->
  (forall w, I w ->
     Forall (keeps I)
       (data_events videoStream (br_chunks (ext_ffmpeg (ext w) VideoJob)))) ->
  (forall w, I w ->
     Forall (keeps I)
       (data_events audioStream (br_chunks (ext_ffmpeg (ext w) AudioJob)))) ->
  keeps I (processMedia fileManager videoStream audioStream finalOutputPath
             options onProgress).
Proof.
  intros Hc Hcb Hv Ha.
  apply keeps_bind; [apply keeps_createTemporaryPaths | intros paths].
  apply keeps_bind; [|intros; apply keeps_cleanupTemporaryFiles].
  apply keeps_try_catch.
  2:{ intros e. apply keeps_bind; [apply keeps_cleanupTemporaryFiles|].
      intros; apply keeps_throw. }
  unfold processMedia_try.
  apply (keeps_bind_with (Forall (keeps I)));
    [now apply keeps_processVideoStream | |intros video Hvideo].
  { intros w p w' Hw [= <- _]. apply promise_keeps; auto. }
  apply (keeps_bind_with (Forall (keeps I)));
    [now apply keeps_processAudioStream | |intros audio Haudio].
  { intros w p w' Hw [= <- _]. apply promise_keeps; auto. }
  apply keeps_bind; [now apply keeps_Promise_all | intros _].
  apply keeps_bind; [apply keeps_verify_each | intros _].
  apply (keeps_bind_with (Forall (keeps I)));
    [now apply keeps_combineStreams | |intros combined Hcombined].
  { intros w p w' Hw [= <- _].
    apply (promise_keeps [] StageCombining); auto. }
  apply keeps_bind; [now apply keeps_await | intros _].
  apply keeps_verifyOutputFile.
Qed.

End Invariants.

(** ** A failing video transcode, for every schedule *)

Section Added.

Variable e0 : externals.
Variable c0 : list call.
Variable ok : call -> Prop.

Lemma only_added_fs f w :
  only_added e0 c0 ok w -> only_added e0 c0 ok (set_fs f w).
Proof. auto. Qed.

Lemma only_added_running r w :
  only_added e0 c0 ok w -> only_added e0 c0 ok (set_running r w).
Proof. auto. Qed.

Lemma only_added_sink es w :
  True -> only_added e0 c0 ok w -> only_added e0 c0 ok (add_sink es w).
Proof. auto. Qed.

Lemma only_added_call c w :
  ok c -> only_added e0 c0 ok w -> only_added e0 c0 ok (add_call c w).
Proof.
  intros Hc [He (added & Hcalls & Hok)]. split; [exact He|].
  exists (added ++ [c]). simpl. rewrite Hcalls, app_assoc.
  split; [reflexivity|]. apply Forall_app. auto.
Qed.

End Added.

Lemma fs_call_harmless (c : call) : is_fs_call c = true -> harmless c.
Proof. destruct c; try discriminate; now split. Qed.

(** When the backend fails the video transcode, [processMedia] rejects,
    whatever the schedule and whatever becomes of the audio transcode; and
    none of the calls it made is a mux, or a call that stops a stream. *)
Lemma video_failure_no_mux (fileManager : FileManager)
    (videoStream audioStream : Readable) (finalOutputPath : string)
    (options : ProcessingOptions)
    (onProgress : option (callback ProcessingProgress)) (w : world)
    (message : string) :
  br_error (ext_ffmpeg (ext w) VideoJob) = Some message ->
  exists e w' added,
    processMedia fileManager videoStream audioStream finalOutputPath options
      onProgress w = (Throw e, w') /\
    calls w' = calls w ++ added /\
    Forall harmless added.
Proof.
  intros Hfail.
  set (I := only_added (ext w) (calls w) harmless).
  assert (I_fs := only_added_fs (ext w) (calls w) harmless).
  assert (I_running := only_added_running (ext w) (calls w) harmless).
  assert (I_call := only_added_call (ext w) (calls w) harmless).
  assert (I_sink := only_added_sink (ext w) (calls w) harmless).
  assert (HI : I w).
  { split; [reflexivity|]. exists []. now rewrite app_nil_r. }
  assert (Hdone : forall e w', I w' ->
            exists e0 w0 added,
              (@Throw unit e, w') = (Throw e0, w0) /\
              calls w0 = calls w ++ added /\ Forall harmless added).
  { intros e w' (_ & added & Hcalls & Hok). now exists e, w', added. }
  destruct (createTemporaryPaths fileManager w) as [[paths|e] w1] eqn:Ecreate.
  2:{ unfold processMedia, bind. rewrite Ecreate. apply Hdone.
      eapply (keeps_createTemporaryPaths I harmless);
        eauto using fs_call_harmless. }
  assert (HI1 : I w1).
  { eapply (keeps_createTemporaryPaths I harmless);
      eauto using fs_call_harmless. }
  destruct (processMedia_try paths videoStream audioStream finalOutputPath
              options onProgress w1) as [tried w2] eqn:Etry.
  destruct (cleanupTemporaryFiles paths w2) as [cleaned w3] eqn:Eclean.
  rewrite (processMedia_outcome _ _ _ _ _ _ _ _ _ _ _ _ _
             Ecreate Etry Eclean).
  assert (Htry : (exists e, tried = Throw e) /\ I w2).
  { clear Eclean. unfold processMedia_try in Etry.
    unfold bind at 1 in Etry.
    destruct (processVideoStream _ _ _ _ w1) as [[video|e] w1a] eqn:Ev;
      [|discriminate Ev].
    assert (HIa : I w1a).
    { eapply (keeps_processVideoStream I harmless); eauto. now split. }
    assert (Hvideo : video =
              data_events videoStream (br_chunks (ext_ffmpeg (ext w1) VideoJob))
              ++ progress_events StageVideo onProgress
                   (br_ticks (ext_ffmpeg (ext w1) VideoJob))
              ++ [settle VideoJob (videoPath paths)
                    "Video processing failed: "])
      by now injection Ev as <- _.
    unfold bind at 1 in Etry.
    destruct (processAudioStream _ _ _ _ w1a) as [[audio|e] w1b] eqn:Ea;
      [|discriminate Ea].
    assert (HIb : I w1b).
    { eapply (keeps_processAudioStream I harmless); eauto. now split. }
    assert (Haudio : audio =
              data_events audioStream
                (br_chunks (ext_ffmpeg (ext w1a) AudioJob))
              ++ progress_events StageAudio onProgress
                   (br_ticks (ext_ffmpeg (ext w1a) AudioJob))
              ++ [settle AudioJob (audioPath paths)
                    "Audio processing failed: "])
      by now injection Ea as <- _.
    assert (Hdata : forall s chunks, Forall (keeps I) (data_events s chunks)).
    { intros s chunks. revert s.
      induction chunks as [|c chunks IH]; intros s; simpl; constructor;
        [|apply IH].
      apply (keeps_invoke I (fun _ => True)); auto. }
    assert (Hkv : Forall (keeps I) video).
    { subst video. apply (promise_keeps I (fun _ => True)); auto. }
    assert (Hka : Forall (keeps I) audio).
    { subst audio. apply (promise_keeps I (fun _ => True)); auto. }
    assert (Hrej : Exists (rejects I) video).
    { subst video. apply Exists_app. right. apply Exists_app. right.
      constructor. intros w0 [He0 _]. unfold settle. rewrite He0, Hfail.
      simpl. eauto. }
    unfold bind at 1 in Etry. unfold Promise_all, bind at 1, read in Etry.
    pose proof (interleave_rejects I (ext_schedule (ext w1b)) video audio w1b
                  Hkv Hka Hrej HIb) as [e He].
    destruct (interleave _ video audio w1b) as [[[]|e'] w1c] eqn:Ei;
      [discriminate He|].
    injection Etry as <- <-. split; [eauto|].
    exact (keeps_interleave I _ video audio Hkv Hka _ _ _ Ei HIb). }
  destruct Htry as [[e ->] HI2].
  assert (HI3 : I w3).
  { eapply (keeps_cleanupTemporaryFiles I harmless);
      eauto using fs_call_harmless. }
  destruct cleaned as [[]|ce]; now apply Hdone.
Qed.

(** C4 at a failing input: the video transcode fails while the audio
    transcode is still at work.  [processMedia] rejects with the video
    error and makes no mux call, but it makes no call that stops the audio
    process either: the process is still alive when [processMedia] has
    returned. *)
Theorem video_failure_leaves_audio_running :
  (processMedia sample_fileManager
     (plain_stream sample_video_format) (plain_stream sample_audio_format)
     "out/video.mkv" no_processing_options None
     (sample_world ∅ ∅ video_fails)).1
  = Throw (Error "Video processing failed: Conversion failed!") /\
  running (processMedia sample_fileManager
     (plain_stream sample_video_format) (plain_stream sample_audio_format)
     "out/video.mkv" no_processing_options None
     (sample_world ∅ ∅ video_fails)).2 = [AudioJob] /\
  existsb is_cancel (calls (processMedia sample_fileManager
     (plain_stream sample_video_format) (plain_stream sample_audio_format)
     "out/video.mkv" no_processing_options None
     (sample_world ∅ ∅ video_fails)).2) = false /\
  existsb is_mux (calls (processMedia sample_fileManager
     (plain_stream sample_video_format) (plain_stream sample_audio_format)
     "out/video.mkv" no_processing_options None
     (sample_world ∅ ∅ video_fails)).2) = false.
Proof. split; [|split; [|split]]; vm_compute; reflexivity. Qed.

(** ** Codecs *)

(** C5, as stated, fails for the audio variant: with no override it asks
    the backend for the [aac] codec, not for [copy]. *)
Lemma audio_default_codec_is_aac :
  exists c,
    last (calls (processAudioStream (plain_stream sample_audio_format)
                   (audioPath sample_paths) no_processing_options None
                   (sample_world ∅ ∅ quiet_externals)).2)
    = Some (CallFfmpegSave AudioJob c (audioPath sample_paths)) /\
    cmd_audioCodec c = Some "aac" /\
    cmd_audioCodec c <> Some "copy" /\
    cmd_videoCodec c = None.
Proof.
  eexists. split; [vm_compute; reflexivity|].
  split; [reflexivity|]. split; [discriminate | reflexivity].
Qed.

(** C5, amended: when the options carry no codec override, the video
    variant of the single-stream transcode hands the backend a command with
    video codec [copy], and the audio variant a command with audio codec
    [aac]. *)
Theorem default_codecs (videoStream audioStream : Readable)
    (videoOut audioOut : string) (options : ProcessingOptions)
    (onProgress : option (callback ProcessingProgress)) (w : world) :
  po_videoCodec options = None ->
  po_audioCodec options = None ->
  (exists c,
     last (calls (processVideoStream videoStream videoOut options
                    onProgress w).2)
     = Some (CallFfmpegSave VideoJob c videoOut) /\
     cmd_videoCodec c = Some "copy") /\
  (exists c,
     last (calls (processAudioStream audioStream audioOut options
                    onProgress w).2)
     = Some (CallFfmpegSave AudioJob c audioOut) /\
     cmd_audioCodec c = Some "aac").
Proof.
  intros Hv Ha. split; eexists; (split; [apply last_snoc|]); simpl.
  - now rewrite Hv.
  - now rewrite Ha.
Qed.

Lemma default_codecs_witness :
  (exists c,
     last (calls (processVideoStream (plain_stream sample_video_format)
                    (videoPath sample_paths) no_processing_options None
                    (sample_world ∅ ∅ quiet_externals)).2)
     = Some (CallFfmpegSave VideoJob c (videoPath sample_paths)) /\
     cmd_videoCodec c = Some "copy") /\
  (exists c,
     last (calls (processAudioStream (plain_stream sample_audio_format)
                    (audioPath sample_paths) no_processing_options None
                    (sample_world ∅ ∅ quiet_externals)).2)
     = Some (CallFfmpegSave AudioJob c (audioPath sample_paths)) /\
     cmd_audioCodec c = Some "aac").
Proof.
  apply (default_codecs (plain_stream sample_video_format)
           (plain_stream sample_audio_format)
           (videoPath sample_paths) (audioPath sample_paths)
           no_processing_options None
           (sample_world ∅ ∅ quiet_externals)); reflexivity.
Defined.

(** An explicit override is passed on. *)
Lemma codec_override (videoStream : Readable) (videoOut codec : string)
    (options : ProcessingOptions)
    (onProgress : option (callback ProcessingProgress)) (w : world) :
  po_videoCodec options = Some codec -> codec <> EmptyString ->
  exists c,
    last (calls (processVideoStream videoStream videoOut options
                   onProgress w).2)
    = Some (CallFfmpegSave VideoJob c videoOut) /\
    cmd_videoCodec c = Some codec.
Proof.
  intros Hv Hne. eexists. split; [apply last_snoc|]. simpl. rewrite Hv.
  destruct codec; [congruence | reflexivity].
Qed.

(** ** Workspace names *)

Lemma new_YoutubeDownloader_run (w : world) :
  new_YoutubeDownloader w =
  (Return {| fileManager :=
               {| timestamp := now w;
                  baseTempDir :=
                    path_join (ext_tmpdir (ext w))
                      ("ytdownload" +:+ "_" +:+ pretty (now w)) |} |}, w).
Proof. reflexivity. Qed.

(** A name made of the reading of the millisecond clock cannot tell apart
    two downloaders that are constructed at the same reading. *)
Lemma same_reading_same_root :
  baseTempDir
    (fileManager
       match (new_YoutubeDownloader (sample_world ∅ ∅ sample_run)).1 with
       | Return d => d
       | Throw _ => sample_downloader
       end) = "/tmp/ytdownload_1700000000000" /\
  baseTempDir
    (fileManager
       match (new_YoutubeDownloader
                (sample_world sample_files ∅ quiet_externals)).1 with
       | Return d => d
       | Throw _ => sample_downloader
       end) = "/tmp/ytdownload_1700000000000".
Proof. split; vm_compute; reflexivity. Qed.

(** C7 at the failing input: one downloader, constructed at the clock
    reading 1700000000000, and two runs through it, the second one a minute
    after the first.  The constructor of [FileManager] fixes the name of
    the root, and [YoutubeDownloader] constructs its file manager once: both
    runs complete, and both have made their workspace at the same path,
    [/tmp/ytdownload_1700000000000], with the same two intermediate file
    names.  The second run is not backed by a workspace of its own. *)
Lemma runs_share_root :
  (new_YoutubeDownloader (sample_world ∅ ∅ sample_run)).1
    = Return sample_downloader /\
  first_run.1 = Return tt /\
  now (later 60000 first_run.2) = 1700000060000 /\
  second_run.1 = Return tt /\
  filter (fun c => is_mkdir c = true) (calls first_run.2)
    = [CallMkdir "/tmp/ytdownload_1700000000000"] /\
  filter (fun c => is_mkdir c = true) (calls second_run.2)
    = [CallMkdir "/tmp/ytdownload_1700000000000";
       CallMkdir "/tmp/ytdownload_1700000000000"] /\
  (createTemporaryPaths sample_fileManager
     (sample_world ∅ ∅ sample_run)).1 = Return sample_paths /\
  (createTemporaryPaths sample_fileManager
     (later 60000 first_run.2)).1 = Return sample_paths.
Proof.
  split; [|split; [|split; [|split; [|split; [|split; [|split]]]]]];
    vm_compute; reflexivity.
Qed.

(** What the name does tell apart: two downloaders constructed at different
    readings of the clock (on one system) have different workspace root
    directories, and so have any two runs through them. *)
Theorem workspace_roots_distinct (w1 w2 w1' w2' : world)
    (d1 d2 : YoutubeDownloader) :
  ext_tmpdir (ext w1) = ext_tmpdir (ext w2) ->
  now w1 <> now w2 ->
  new_YoutubeDownloader w1 = (Return d1, w1') ->
  new_YoutubeDownloader w2 = (Return d2, w2') ->
  baseTempDir (fileManager d1) <> baseTempDir (fileManager d2) /\
  forall u1 u1' u2 u2' paths1 paths2,
    createTemporaryPaths (fileManager d1) u1 = (Return paths1, u1') ->
    createTemporaryPaths (fileManager d2) u2 = (Return paths2, u2') ->
    tempDir paths1 <> tempDir paths2.
Proof.
  intros Htmp Hnow H1 H2.
  rewrite new_YoutubeDownloader_run in H1, H2.
  injection H1 as <- _. injection H2 as <- _. simpl.
  assert (Hne : path_join (ext_tmpdir (ext w1))
                  ("ytdownload" +:+ "_" +:+ pretty (now w1)) <>
                path_join (ext_tmpdir (ext w2))
                  ("ytdownload" +:+ "_" +:+ pretty (now w2))).
  { unfold path_join. rewrite Htmp. intros E.
    do 4 apply String.app_inj in E. now apply pretty_Z_inj in E. }
  split; [exact Hne|].
  intros u1 u1' u2 u2' paths1 paths2 E1 E2.
  apply createTemporaryPaths_Return in E1 as ->.
  apply createTemporaryPaths_Return in E2 as ->. exact Hne.
Qed.

Lemma workspace_roots_distinct_witness :
  baseTempDir (fileManager sample_downloader) <>
  baseTempDir
    (fileManager
       {| fileManager :=
            {| timestamp := 1700000060000;
               baseTempDir := "/tmp/ytdownload_1700000060000" |} |}).
Proof.
  apply (workspace_roots_distinct
           (sample_world ∅ ∅ sample_run)
           (later 60000 (sample_world ∅ ∅ sample_run))
           (sample_world ∅ ∅ sample_run)
           (later 60000 (sample_world ∅ ∅ sample_run)));
    [reflexivity | vm_compute; discriminate
     | vm_compute; reflexivity | vm_compute; reflexivity].
Defined.

(** ** Download progress *)

(** *** One stream alone *)

Lemma await_data_events (s : Readable) (chunks : list Z) (w : world) :
  rd_onProgress s = Some record_download ->
  (await (data_events s chunks) w).1 = Return tt /\
  sink (await (data_events s chunks) w).2
  = sink w ++ map EvDownload (stream_records s chunks).
Proof.
  revert s w. induction chunks as [|c chunks IH]; intros s w Hcb; simpl.
  - now rewrite app_nil_r.
  - unfold bind. rewrite Hcb. simpl.
    destruct (IH (on_data s c)
                (add_sink (record_download (progress_of (on_data s c))) w)
                Hcb) as [Hr Hs].
    split; [exact Hr|]. rewrite Hs. simpl. now rewrite <- app_assoc.
Qed.

Lemma stream_records_from (s : Readable) (chunks : list Z) :
  Forall (fun c => 0 <= c) chunks ->
  Forall (fun p => rd_downloadedBytes s <= downloadedBytes p)
         (stream_records s chunks).
Proof.
  intros Hpos. revert s.
  induction Hpos as [|c chunks Hc Hpos IH]; intros s; simpl; constructor.
  - simpl. lia.
  - eapply Forall_impl; [apply IH|]. simpl. intros p Hp. lia.
Qed.

(** The records of one stream, taken alone, never go back. *)
Lemma stream_records_sorted (s : Readable) (chunks : list Z) :
  Forall (fun c => 0 <= c) chunks ->
  StronglySorted Z.le (map downloadedBytes (stream_records s chunks)).
Proof.
  intros Hpos. revert s.
  induction Hpos as [|c chunks Hc Hpos IH]; intros s; simpl; constructor.
  - apply IH.
  - apply Forall_map. apply (stream_records_from (on_data s c) chunks Hpos).
Qed.

(** *** The scenario of the specification, for every chunking and schedule *)

Section Downloads.

Variable e0 : externals.
Variable P : DownloadProgress -> Prop.

Lemma downloads_in_fs f w :
  downloads_in e0 P w -> downloads_in e0 P (set_fs f w).
Proof. auto. Qed.

Lemma downloads_in_running r w :
  downloads_in e0 P w -> downloads_in e0 P (set_running r w).
Proof. auto. Qed.

Lemma downloads_in_call (c : call) w :
  True -> downloads_in e0 P w -> downloads_in e0 P (add_call c w).
Proof. auto. Qed.

Lemma downloads_in_sink es w :
  (forall p, p ∈ download_events es -> P p) ->
  downloads_in e0 P w -> downloads_in e0 P (add_sink es w).
Proof.
  intros Hes [He Hw]. split; [exact He|]. intros p. simpl.
  unfold download_events. rewrite omap_app, elem_of_app.
  intros [H|H]; [now apply Hw | now apply Hes].
Qed.

(** The listener of a stream whose chunks take its counter no further than
    [bound] only reports records below [bound]. *)
Lemma data_events_bounded (bound : Z) (total : option Z) (s : Readable)
    (chunks : list Z) :
  (forall p, downloadedBytes p <= bound /\ totalBytes p = total -> P p) ->
  rd_onProgress s = Some record_download ->
  rd_totalBytes s = total ->
  Forall (fun c => 0 <= c) chunks ->
  rd_downloadedBytes s + total_length chunks <= bound ->
  Forall (keeps (downloads_in e0 P)) (data_events s chunks).
Proof.
  intros HP Hcb Htotal Hpos. revert s Hcb Htotal.
  induction Hpos as [|c chunks Hc Hpos IH]; intros s Hcb Htotal Hsum;
    simpl in *; constructor.
  - assert (Hrest : 0 <= total_length chunks).
    { clear -Hpos. induction Hpos; simpl; lia. }
    rewrite Hcb. intros w r w' [= <- <-]. apply downloads_in_sink.
    intros p Hp. apply list_elem_of_singleton in Hp as ->.
    apply HP. simpl. split; [lia | exact Htotal].
  - apply IH; simpl; auto. lia.
Qed.

End Downloads.

Lemma createStreams_sample (video audio combine : backendRun)
    (schedule : list bool) :
  createStreams sample_url no_options (Some record_download)
    (sample_world ∅ ∅ (sample_externals video audio combine schedule)) =
  (Return
     {| videoStream :=
          {| rd_itag := 137; rd_totalBytes := Some 1200;
             rd_onProgress := Some record_download;
             rd_downloadedBytes := 0 |};
        audioStream :=
          {| rd_itag := 140; rd_totalBytes := Some 1200;
             rd_onProgress := Some record_download;
             rd_downloadedBytes := 0 |};
        streams_totalBytes := Some 1200 |},
   add_call (CallYtdl sample_url 140)
     (add_call (CallYtdl sample_url 137)
        (add_call (CallGetInfo sample_url)
           (sample_world ∅ ∅
              (sample_externals video audio combine schedule))))).
Proof. reflexivity. Qed.

(** In the scenario of the specification, however the 1000 bytes of video
    and the 200 bytes of audio are cut into chunks, however the chunks
    interleave and however the backend runs end: every progress record of
    the downloading stage carries the total 1200 and at most 1000 downloaded
    bytes. *)
Lemma no_event_reports_the_total (video audio combine : backendRun)
    (schedule : list bool) (p : DownloadProgress) :
  Forall (fun c => 0 <= c) (br_chunks video) ->
  total_length (br_chunks video) = 1000 ->
  Forall (fun c => 0 <= c) (br_chunks audio) ->
  total_length (br_chunks audio) = 200 ->
  p ∈ download_events
        (sink (observed_run
                 (sample_externals video audio combine schedule)).2) ->
  downloadedBytes p <= 1000 /\ totalBytes p = Some 1200.
Proof.
  intros Hv Hvsum Ha Hasum.
  set (e0 := sample_externals video audio combine schedule).
  set (P := fun p => downloadedBytes p <= 1000 /\ totalBytes p = Some 1200).
  unfold observed_run, bind. subst e0. rewrite createStreams_sample.
  set (e0 := sample_externals video audio combine schedule).
  match goal with
  | |- context [processMedia ?fm ?v ?a ?out ?o ?cb ?w] =>
      destruct (processMedia fm v a out o cb w) as [r w'] eqn:E;
      assert (HI : downloads_in e0 P w) by (split; [reflexivity|];
        intros q Hq; now apply elem_of_nil in Hq)
  end.
  assert (Hkeep : downloads_in e0 P w'); [|intros Hp; now apply Hkeep].
  revert E HI.
  apply (keeps_processMedia (downloads_in e0 P) (fun _ => True)
           (fun es => forall q, q ∈ download_events es -> P q));
    auto using downloads_in_fs, downloads_in_running, downloads_in_call,
               downloads_in_sink.
  - discriminate.
  - intros w [-> _]. simpl.
    apply data_events_bounded with (bound := 1000) (total := Some 1200);
      auto. simpl. lia.
  - intros w [-> _]. simpl.
    apply data_events_bounded with (bound := 1000) (total := Some 1200);
      auto. simpl. lia.
Qed.

(** *** The scenario, run *)

(** C2 at the input of the specification's scenario (1000 bytes of video in
    two chunks, 200 bytes of audio): the total is the sum, 1200, but each
    stream counts its own bytes, so the last event of the downloading stage
    reports 1000 of 1200 when a video chunk arrives last and 200 of 1200
    when the audio chunk does; 1200 of 1200 is never reported. *)
Theorem separate_counters_never_reach_total :
  (observed_run sample_run).1 = Return tt /\
  download_events (sink (observed_run sample_run).2)
  = [ {| downloadedBytes := 600; totalBytes := Some 1200;
         percentage := Some (50 # 1) |};
      {| downloadedBytes := 200; totalBytes := Some 1200;
         percentage := Some (50 # 3) |};
      {| downloadedBytes := 1000; totalBytes := Some 1200;
         percentage := Some (250 # 3) |} ] /\
  last (download_events (sink (observed_run sample_run_audio_last).2))
  = Some {| downloadedBytes := 200; totalBytes := Some 1200;
            percentage := Some (50 # 3) |}.
Proof. split; [|split]; vm_compute; reflexivity. Qed.

(** C9 at the same input: within the downloading stage the sink of
    [downloadVideo] is handed 50, then 16.66..., then 83.33... percent, the
    stream manager's callback 600, then 200, then 1000 bytes. *)
Theorem download_progress_goes_back :
  map downloadedBytes (download_events (sink (observed_run sample_run).2))
  = [600; 200; 1000] /\
  sink (downloadVideo sample_downloader sample_url "out/video.mkv"
          no_options (Some record_downloader)
          (sample_world ∅ ∅ sample_run)).2
  = [ EvDownloader {| state := StateProcessing; downloadProgress := None |};
      EvDownloader {| state := StateDownloading;
                      downloadProgress := Some (Some (50 # 1)) |};
      EvDownloader {| state := StateDownloading;
                      downloadProgress := Some (Some (50 # 3)) |};
      EvDownloader {| state := StateDownloading;
                      downloadProgress := Some (Some (250 # 3)) |} ].
Proof. split; vm_compute; reflexivity. Qed.

(** ** The earlier implementation

    On the inputs at which the four classes part from the specification,
    [createDownloadStream] of [ytdl.ts] does what the specification says. *)

(** One counter for both downloads: the records never go back, and the last
    one reports the total. *)
Lemma earlier_progress_reaches_total :
  (earlier_run (sample_world ∅ ∅ sample_run)).1 = Return tt /\
  download_events (sink (earlier_run (sample_world ∅ ∅ sample_run)).2)
  = [ {| downloadedBytes := 600; totalBytes := Some 1200;
         percentage := Some (50 # 1) |};
      {| downloadedBytes := 1000; totalBytes := Some 1200;
         percentage := Some (250 # 3) |};
      {| downloadedBytes := 1200; totalBytes := Some 1200;
         percentage := Some (100 # 1) |} ].
Proof. split; vm_compute; reflexivity. Qed.

(** A failing video transcode: the streams opened so far are destroyed (and
    so is the read stream that the cleanup makes on the partial file), no
    mux is started, and the error of the transcode is the one surfaced, also
    when the partial file cannot be removed. *)
Lemma earlier_failure_path :
  (earlier_run earlier_locked_video_world).1
  = Throw (Error ("Download stream creation failed: " +:+
                  "Video processing failed: Conversion failed!")) /\
  destroyed (calls (earlier_run earlier_locked_video_world).2)
  = [CallDestroy (PassThroughStream VideoJob);
     CallDestroy (DownloadStream 137);
     CallDestroy (FileReadStream earlier_video_path)] /\
  existsb is_mux (calls (earlier_run earlier_locked_video_world).2) = false /\
  is_Some (fs (earlier_run earlier_locked_video_world).2
             !! earlier_video_path).
Proof. split; [|split; [|split]]; vm_compute; eauto. Qed.


Lemma cleanupStreams_returns (streams : list (option streamRef)) (w : world) :
  (Ytdl.cleanupStreams streams w).1 = Return tt.
Proof.
  unfold Ytdl.cleanupStreams, try_catch.
  destruct (Ytdl.for_each _ _ w) as [[[]|e] w']; reflexivity.
Qed.

(** The workspace is named when the method is called: two runs a minute
    apart make two directories. *)
Lemma earlier_roots_per_run :
  mkdirs (calls (earlier_run (sample_world ∅ ∅ sample_run)).2)
  = [CallMkdir "/tmp/ytdownload_1700000000000"] /\
  mkdirs (calls (earlier_run
                   (later 60000
                      (earlier_run (sample_world ∅ ∅ sample_run)).2)).2)
  = [CallMkdir "/tmp/ytdownload_1700000000000";
     CallMkdir "/tmp/ytdownload_1700000060000"].
Proof. split; vm_compute; reflexivity. Qed.

(** * More properties *)

(** ** The URL check, on the server and in the form *)

Lemma validateUrl_true_shape (url : string) :
  validateUrl url = Return true -> accepted_shape url.
Proof.
  destruct url as [|c url]; [discriminate|].
  intros [= H]. now apply test_accepted_shape.
Qed.

(** X1: [validateUrl] returns [true] exactly on the strings of the accepted
    shape: an optional [http://] or [https://], an optional [www.], one of
    the two host names, a slash and at least one more character, none of
    them a line terminator.  In particular it asks for no video id. *)
Theorem validateUrl_true_iff_shape (url : string) :
  validateUrl url = Return true <-> accepted_shape url.
Proof.
  split; [apply validateUrl_true_shape | apply validateUrl_accepts].
Qed.

Lemma includes_prefix (s needle : string) :
  String.prefix needle s = true -> includes s needle = true.
Proof. intros H. destruct s; cbn [includes]; rewrite H; reflexivity. Qed.

Lemma includes_app (a b c : string) : includes (a +:+ b +:+ c) b = true.
Proof.
  induction a as [|x a IH].
  - change (EmptyString +:+ b +:+ c) with (b +:+ c).
    apply includes_prefix, append_prefix.
  - change (String x a +:+ b +:+ c) with (String x (a +:+ b +:+ c)).
    cbn [includes]. rewrite IH. apply orb_true_r.
Qed.

Lemma includes_host (scheme www host rest : string) :
  includes (scheme +:+ www +:+ host +:+ "/" +:+ rest) (host +:+ "/") = true.
Proof.
  rewrite <- (append_assoc host "/" rest), <- (append_assoc scheme www).
  apply includes_app.
Qed.

(** X2: every URL that the server's [validateUrl] accepts passes the check
    of the form ([handleSubmit] of URLInput.tsx clears the error and hands
    the URL on); the check of the form is the weaker one, it lets through
    URLs that the server rejects. *)
Theorem form_lets_valid_urls_through (url err : string) :
  validateUrl url = Return true ->
  URLInput.handleSubmit {| URLInput.url := url; URLInput.error := err |}
  = ({| URLInput.url := url; URLInput.error := EmptyString |}, Some url) /\
  exists other,
    (URLInput.handleSubmit
       {| URLInput.url := other; URLInput.error := err |}).2 = Some other /\
    validateUrl other = Return false.
Proof.
  intros H. split.
  - apply validateUrl_true_shape in H
      as (scheme & www & host & rest & -> & _ & _ & Hhost & _).
    unfold URLInput.handleSubmit. simpl URLInput.url.
    apply elem_of_cons in Hhost as [->|Hhost].
    + now rewrite includes_host.
    + apply list_elem_of_singleton in Hhost as ->.
      rewrite includes_host, andb_false_r. reflexivity.
  - exists "ftp://example.org/?next=youtube.com/". split; reflexivity.
Qed.

Lemma form_lets_valid_urls_through_witness :
  URLInput.handleSubmit
    {| URLInput.url := sample_url; URLInput.error := "old" |}
  = ({| URLInput.url := sample_url; URLInput.error := EmptyString |},
     Some sample_url).
Proof.
  apply (form_lets_valid_urls_through sample_url "old"). reflexivity.
Defined.

(** ** The stream manager *)

Lemma or_default_nonempty (a : option string) (b : string) :
  b <> EmptyString -> or_default a b <> EmptyString.
Proof. destruct a as [[|c s]|]; simpl; auto; discriminate. Qed.

(** X3: when [getAvailableFormats] resolves, it has made one call,
    [ytdl.getInfo], and it lists every format of the answer, in order, with
    its itag and its two flags; no text field of the list is empty, a
    missing one is filled with its default. *)
Theorem getAvailableFormats_lists_every_format (url : string) (w w' : world)
    (infos : list FormatInfo) :
  getAvailableFormats url w = (Return infos, w') ->
  exists formats,
    ext_getInfo (ext w) url = Return formats /\
    w' = add_call (CallGetInfo url) w /\
    map fi_itag infos = map itag formats /\
    map fi_hasVideo infos = map hasVideo formats /\
    map fi_hasAudio infos = map hasAudio formats /\
    Forall (fun i => fi_quality i <> EmptyString /\
                     fi_container i <> EmptyString /\
                     fi_contentLength i <> EmptyString) infos.
Proof.
  unfold getAvailableFormats, try_catch, bind, lift, log, modify, throw, ret.
  destruct (validateUrl url) as [[|]|e]; simpl; [|discriminate..].
  destruct (ext_getInfo (ext w) url) as [formats|e] eqn:E; [|discriminate].
  intros [= <- <-]. exists formats. split; [reflexivity|].
  split; [reflexivity|]. rewrite !map_map. simpl.
  split; [reflexivity|]. split; [reflexivity|]. split; [reflexivity|].
  apply Forall_map, Forall_forall. intros f _. simpl.
  repeat split; apply or_default_nonempty; discriminate.
Qed.

Lemma getAvailableFormats_lists_every_format_witness :
  exists formats,
    ext_getInfo quiet_externals sample_url = Return formats /\
    (getAvailableFormats sample_url (sample_world ∅ ∅ quiet_externals)).2
    = add_call (CallGetInfo sample_url)
        (sample_world ∅ ∅ quiet_externals) /\
    map fi_itag [format_info sample_video_format;
                 format_info sample_audio_format] = map itag formats.
Proof.
  destruct (getAvailableFormats_lists_every_format sample_url
              (sample_world ∅ ∅ quiet_externals)
              (getAvailableFormats sample_url
                 (sample_world ∅ ∅ quiet_externals)).2
              [format_info sample_video_format;
               format_info sample_audio_format])
    as (formats & H1 & H2 & H3 & _); [reflexivity|].
  exists formats. split; [exact H1|]. split; [exact H2 | exact H3].
Defined.

Ltac network_only_case :=
  intros [= <- <-];
  first
    [ split; [now repeat split|];
      split; [exists []; now rewrite app_nil_r|]
    | split; [now repeat split|];
      split; [eexists [_]; split; [reflexivity | now repeat constructor]|]
    | split; [now repeat split|];
      split; [eexists [_; _; _]; split;
                [simpl; rewrite <- !app_assoc; reflexivity
                | now repeat constructor]|] ];
  intros e0; first [discriminate | intros [= <-]; eexists; reflexivity].

Lemma getVideoInfo_network_only (url : string) :
  network_only "Failed to get video info: " (getVideoInfo url).
Proof.
  intros w r w'.
  unfold getVideoInfo, try_catch, bind, lift, log, modify, throw, ret.
  destruct (validateUrl url) as [[|]|e]; simpl;
    [|network_only_case..].
  destruct (ext_getBasicInfo (ext w) url) as [[d|]|e];
    network_only_case.
Qed.

Lemma getAvailableFormats_network_only (url : string) :
  network_only "Failed to get video formats: " (getAvailableFormats url).
Proof.
  intros w r w'.
  unfold getAvailableFormats, try_catch, bind, lift, log, modify, throw, ret.
  destruct (validateUrl url) as [[|]|e]; simpl;
    [|network_only_case..].
  destruct (ext_getInfo (ext w) url) as [formats|e];
    network_only_case.
Qed.

Lemma createStreams_network_only (url : string) (options : DownloadOptions)
    (onProgress : option (callback DownloadProgress)) :
  network_only "Failed to create streams: "
    (createStreams url options onProgress).
Proof.
  intros w r w'.
  unfold createStreams, createProgressTrackingStream, try_catch, bind, lift,
    log, modify, throw, ret.
  destruct (validateUrl url) as [[|]|e]; simpl;
    [|network_only_case..].
  destruct (ext_getInfo (ext w) url) as [formats|e]; simpl;
    [|network_only_case].
  destruct (ext_chooseFormat (ext w) _ (or_default _ _)) as [vf|e]; simpl;
    [|network_only_case].
  destruct (ext_chooseFormat (ext w) _ "highestaudio") as [af|e]; simpl;
    [|network_only_case].
  destruct vf as [vf|], af as [af|]; network_only_case.
Qed.

(** The streams that [createStreams] returns share the callback and the
    total, and their counters are at 0. *)
Lemma createStreams_Return_streams (url : string) (options : DownloadOptions)
    (onProgress : option (callback DownloadProgress)) (w w' : world)
    (streams : Streams) :
  createStreams url options onProgress w = (Return streams, w') ->
  rd_onProgress (videoStream streams) = onProgress /\
  rd_onProgress (audioStream streams) = onProgress /\
  rd_totalBytes (videoStream streams) = streams_totalBytes streams /\
  rd_totalBytes (audioStream streams) = streams_totalBytes streams /\
  rd_downloadedBytes (videoStream streams) = 0 /\
  rd_downloadedBytes (audioStream streams) = 0 /\
  calls w' = calls w ++ [CallGetInfo url;
                         CallYtdl url (rd_itag (videoStream streams));
                         CallYtdl url (rd_itag (audioStream streams))].
Proof.
  unfold createStreams, createProgressTrackingStream, try_catch, bind, lift,
    log, modify, throw, ret.
  destruct (validateUrl url) as [[|]|e]; simpl; [|discriminate..].
  destruct (ext_getInfo (ext w) url) as [formats|e]; simpl; [|discriminate].
  destruct (ext_chooseFormat (ext w) _ (or_default _ _)) as [vf|e]; simpl;
    [|discriminate].
  destruct (ext_chooseFormat (ext w) _ "highestaudio") as [af|e]; simpl;
    [|discriminate].
  destruct vf as [vf|], af as [af|]; try discriminate.
  intros [= <- <-]. simpl. rewrite <- !app_assoc. now repeat split.
Qed.

Lemma getVideoInfo_Return_calls (url : string) (w w' : world)
    (info : VideoInfo) :
  getVideoInfo url w = (Return info, w') ->
  calls w' = calls w ++ [CallGetBasicInfo url].
Proof.
  unfold getVideoInfo, try_catch, bind, lift, log, modify, throw, ret.
  destruct (validateUrl url) as [[|]|e]; simpl; [|discriminate..].
  destruct (ext_getBasicInfo (ext w) url) as [[d|]|e]; try discriminate.
  now intros [= _ <-].
Qed.

(** X4: the three operations of the stream manager leave the file system,
    the processes and the sink alone: they change nothing but the log, to
    which they add network calls only; and whenever one of them rejects, it
    is with a plain error whose message starts with the prefix of the
    operation. *)
Theorem stream_manager_is_network_only (url : string)
    (options : DownloadOptions)
    (onProgress : option (callback DownloadProgress)) :
  network_only "Failed to get video info: " (getVideoInfo url) /\
  network_only "Failed to get video formats: " (getAvailableFormats url) /\
  network_only "Failed to create streams: "
    (createStreams url options onProgress).
Proof.
  split; [apply getVideoInfo_network_only|].
  split; [apply getAvailableFormats_network_only
         | apply createStreams_network_only].
Qed.

(** [parseInt] reads back what [pretty] prints. *)
Lemma digit_value_char (d : N) :
  (d < 10)%N -> digit_value (pretty_N_char d) = Some (Z.of_N d).
Proof.
  intros H.
  assert (d = 0 \/ d = 1 \/ d = 2 \/ d = 3 \/ d = 4 \/ d = 5 \/ d = 6 \/
          d = 7 \/ d = 8 \/ d = 9)%N as Hd by lia.
  repeat (destruct Hd as [->|Hd]; [reflexivity|]). now subst.
Qed.

Lemma parse_digits_pretty_N_go (x : N) :
  (0 < x)%N ->
  forall s, parse_digits 10 (pretty_N_go x s) None
            = parse_digits 10 s (Some (Z.of_N x)).
Proof.
  induction (N.lt_wf_0 x) as [x _ IH]. intros Hx s.
  rewrite pretty_N_go_step by exact Hx.
  assert (Hd : (x `mod` 10 < 10)%N) by now apply N.mod_lt.
  assert (Hx10 : x = (10 * (x `div` 10) + x `mod` 10)%N)
    by now apply N.div_mod.
  destruct (decide (x `div` 10 = 0)%N) as [E|E].
  - rewrite E, pretty_N_go_0. cbn [parse_digits].
    rewrite digit_value_char by exact Hd.
    replace (Z.of_N (x `mod` 10) <? 10) with true
      by (symmetry; apply Z.ltb_lt; lia).
    do 2 f_equal. lia.
  - rewrite IH; [| apply N.div_lt; lia | now apply N.neq_0_lt_0].
    cbn [parse_digits]. rewrite digit_value_char by exact Hd.
    replace (Z.of_N (x `mod` 10) <? 10) with true
      by (symmetry; apply Z.ltb_lt; lia).
    do 2 f_equal. lia.
Qed.

Lemma pretty_N_go_head (x : N) :
  (0 < x)%N ->
  forall s, exists d rest,
    (0 < d < 10)%N /\ pretty_N_go x s = String (pretty_N_char d) rest.
Proof.
  induction (N.lt_wf_0 x) as [x _ IH]. intros Hx s.
  rewrite pretty_N_go_step by exact Hx.
  assert (Hx10 : x = (10 * (x `div` 10) + x `mod` 10)%N)
    by now apply N.div_mod.
  destruct (decide (x `div` 10 = 0)%N) as [E|E].
  - rewrite E, pretty_N_go_0. exists (x `mod` 10)%N, s.
    split; [|reflexivity]. rewrite E in Hx10.
    split; [lia | now apply N.mod_lt].
  - apply IH; [apply N.div_lt; lia | now apply N.neq_0_lt_0].
Qed.

Lemma parseInt_digits (c : ascii) (rest : string) (d : N) :
  (0 < d < 10)%N -> c = pretty_N_char d ->
  parseInt (String c rest) = parse_digits 10 (String c rest) None /\
  parseInt (String "-" (String c rest))
  = Z.opp <$> parse_digits 10 (String c rest) None.
Proof.
  intros H ->.
  assert (d = 1 \/ d = 2 \/ d = 3 \/ d = 4 \/ d = 5 \/ d = 6 \/
          d = 7 \/ d = 8 \/ d = 9)%N as Hd by lia.
  repeat (destruct Hd as [->|Hd];
          [split; unfold parseInt; cbn [trim_start is_white_space];
           simpl; now destruct (parse_digits _ _ _)|]).
  subst. split; unfold parseInt; simpl; now destruct (parse_digits _ _ _).
Qed.

Lemma parseInt_pretty (z : Z) : parseInt (pretty z) = Some z.
Proof.
  destruct z as [|p|p]; [reflexivity| |].
  - change (pretty (Z.pos p)) with (pretty_N_go (N.pos p) EmptyString).
    destruct (pretty_N_go_head (N.pos p) eq_refl EmptyString)
      as (d & rest & Hd & E).
    pose proof (parse_digits_pretty_N_go (N.pos p) eq_refl EmptyString) as H.
    rewrite E in *. destruct (parseInt_digits _ rest d Hd eq_refl) as [-> _].
    exact H.
  - change (pretty (Z.neg p))
      with (String "-" (pretty_N_go (N.pos p) EmptyString)).
    destruct (pretty_N_go_head (N.pos p) eq_refl EmptyString)
      as (d & rest & Hd & E).
    pose proof (parse_digits_pretty_N_go (N.pos p) eq_refl EmptyString) as H.
    rewrite E in *. destruct (parseInt_digits _ rest d Hd eq_refl) as [_ ->].
    rewrite H. reflexivity.
Qed.

Lemma declares_parseInt (f : videoFormat) (n : Z) :
  declares f n -> parseInt (or_default (contentLength f) "0") = Some n.
Proof.
  intros [H|[-> [H|H]]]; rewrite H; [|reflexivity..].
  destruct (pretty n) eqn:E; [|simpl; rewrite <- E; apply parseInt_pretty].
  pose proof (parseInt_pretty n) as Hp. rewrite E in Hp. discriminate Hp.
Qed.

(** X5: when both chosen formats declare their byte lengths (a missing or
    empty [contentLength] counting as 0), and the two lengths and their sum
    are safe integers, [createStreams] resolves with the sum of the two
    lengths as [totalBytes], hands that same total to the listeners of both
    streams, starts both counters at 0, and has made the calls [getInfo],
    [ytdl] for the video format and [ytdl] for the audio format, in this
    order. *)
Theorem createStreams_total_is_the_sum (url : string)
    (options : DownloadOptions)
    (onProgress : option (callback DownloadProgress)) (w : world)
    (formats : list videoFormat) (vf af : videoFormat) (v a : Z) :
  validateUrl url = Return true ->
  ext_getInfo (ext w) url = Return formats ->
  ext_chooseFormat (ext w) (filter (fun f => hasVideo f = true) formats)
    (or_default (quality options) "highest") = Return (Some vf) ->
  ext_chooseFormat (ext w) (filter (fun f => hasAudio f = true) formats)
    "highestaudio" = Return (Some af) ->
  declares vf v -> declares af a ->
  safe_integer v -> safe_integer a -> safe_integer (v + a) ->
  createStreams url options onProgress w =
  (Return {| videoStream :=
               {| rd_itag := itag vf; rd_totalBytes := Some (v + a);
                  rd_onProgress := onProgress; rd_downloadedBytes := 0 |};
             audioStream :=
               {| rd_itag := itag af; rd_totalBytes := Some (v + a);
                  rd_onProgress := onProgress; rd_downloadedBytes := 0 |};
             streams_totalBytes := Some (v + a) |},
   add_call (CallYtdl url (itag af))
     (add_call (CallYtdl url (itag vf)) (add_call (CallGetInfo url) w))).
Proof.
  intros Hurl Hinfo Hv Ha Hlv Hla _ _ _.
  unfold createStreams, createProgressTrackingStream, try_catch, bind, lift,
    log, modify, throw, ret.
  rewrite Hurl. simpl. rewrite Hinfo. simpl. rewrite Hv. simpl.
  rewrite Ha. simpl.
  rewrite (declares_parseInt _ _ Hlv), (declares_parseInt _ _ Hla).
  reflexivity.
Qed.

Lemma createStreams_total_is_the_sum_witness :
  (createStreams sample_url no_options None
     (sample_world ∅ ∅ quiet_externals)).1
  = Return {| videoStream :=
                {| rd_itag := 137; rd_totalBytes := Some (1000 + 200);
                   rd_onProgress := None; rd_downloadedBytes := 0 |};
              audioStream :=
                {| rd_itag := 140; rd_totalBytes := Some (1000 + 200);
                   rd_onProgress := None; rd_downloadedBytes := 0 |};
              streams_totalBytes := Some (1000 + 200) |}.
Proof.
  rewrite (createStreams_total_is_the_sum sample_url no_options None
             (sample_world ∅ ∅ quiet_externals)
             [sample_video_format; sample_audio_format]
             sample_video_format sample_audio_format 1000 200);
    [reflexivity | reflexivity | reflexivity | reflexivity | reflexivity
    | left; reflexivity | left; reflexivity
    | unfold safe_integer; lia | unfold safe_integer; lia
    | unfold safe_integer; lia].
Defined.

(** ** The progress of the downloads *)

Lemma total_length_nonneg (chunks : list Z) :
  Forall (fun c => 0 <= c) chunks -> 0 <= total_length chunks.
Proof. induction 1; simpl; lia. Qed.

(** What the records of one stream say. *)
Lemma stream_records_spec (s : Readable) (chunks : list Z) :
  Forall (fun c => 0 <= c) chunks ->
  Forall (fun p =>
            rd_downloadedBytes s <= downloadedBytes p /\
            downloadedBytes p <= rd_downloadedBytes s + total_length chunks /\
            totalBytes p = rd_totalBytes s /\
            percentage p = percentage_of (downloadedBytes p) (rd_totalBytes s))
         (stream_records s chunks).
Proof.
  intros Hpos. revert s.
  induction Hpos as [|c chunks Hc Hpos IH]; intros s; simpl; constructor.
  - pose proof (total_length_nonneg chunks Hpos). simpl. repeat split; lia.
  - eapply Forall_impl; [apply IH|]. simpl. intros p (H1 & H2 & H3 & H4).
    repeat split; auto; lia.
Qed.

Lemma stream_records_length (s : Readable) (chunks : list Z) :
  length (stream_records s chunks) = length chunks.
Proof.
  revert s. induction chunks as [|c chunks IH]; intros s; simpl;
    [|rewrite IH]; reflexivity.
Qed.

Lemma stream_records_last (s : Readable) (chunks : list Z) :
  chunks <> [] ->
  downloadedBytes <$> last (stream_records s chunks)
  = Some (rd_downloadedBytes s + total_length chunks).
Proof.
  revert s. induction chunks as [|c chunks IH]; intros s Hne; [done|].
  destruct chunks as [|c' chunks].
  - simpl. f_equal. lia.
  - change (stream_records s (c :: c' :: chunks))
      with (progress_of (on_data s c)
            :: stream_records (on_data s c) (c' :: chunks)).
    change (stream_records (on_data s c) (c' :: chunks))
      with (progress_of (on_data (on_data s c) c')
            :: stream_records (on_data (on_data s c) c') chunks) at 1.
    rewrite last_cons_cons.
    change (progress_of (on_data (on_data s c) c')
            :: stream_records (on_data (on_data s c) c') chunks)
      with (stream_records (on_data s c) (c' :: chunks)).
    rewrite IH by discriminate. simpl. f_equal. lia.
Qed.

(** X6: a stream made by [createProgressTrackingStream] hands one record to
    its callback for every chunk that is read from it (chunk lengths are
    not negative); the records carry the total the stream was made with,
    their byte counts never go back, and the last one counts all the bytes
    read. *)
Theorem one_stream_counts_its_bytes (s : Readable) (chunks : list Z)
    (w : world) :
  rd_onProgress s = Some record_download ->
  Forall (fun c => 0 <= c) chunks ->
  exists records,
    (await (data_events s chunks) w).1 = Return tt /\
    sink (await (data_events s chunks) w).2
    = sink w ++ map EvDownload records /\
    length records = length chunks /\
    Forall (fun p => totalBytes p = rd_totalBytes s) records /\
    StronglySorted Z.le (map downloadedBytes records) /\
    (chunks <> [] ->
     downloadedBytes <$> last records
     = Some (rd_downloadedBytes s + total_length chunks)).
Proof.
  intros Hcb Hpos. exists (stream_records s chunks).
  destruct (await_data_events s chunks w Hcb) as [Hr Hs].
  split; [exact Hr|]. split; [exact Hs|].
  split; [apply stream_records_length|].
  split.
  { eapply Forall_impl; [apply (stream_records_spec s chunks Hpos)|].
    simpl. tauto. }
  split; [now apply stream_records_sorted | apply stream_records_last].
Qed.

Lemma one_stream_counts_its_bytes_witness :
  exists records,
    sink (await (data_events
                   {| rd_itag := 137; rd_totalBytes := Some 1200;
                      rd_onProgress := Some record_download;
                      rd_downloadedBytes := 0 |} [600; 400])
            (sample_world ∅ ∅ quiet_externals)).2
    = map EvDownload records /\
    map downloadedBytes records = [600; 1000].
Proof.
  destruct (one_stream_counts_its_bytes
              {| rd_itag := 137; rd_totalBytes := Some 1200;
                 rd_onProgress := Some record_download;
                 rd_downloadedBytes := 0 |} [600; 400]
              (sample_world ∅ ∅ quiet_externals))
    as (records & _ & Hs & _); [reflexivity | repeat constructor; lia|].
  exists records. split; [exact Hs|].
  vm_compute in Hs. destruct records as [|p1 [|p2 [|p3 records]]];
    try discriminate Hs.
  now injection Hs as <- <-.
Defined.

(** The percentage is 100 only when the counter has reached the total. *)
Lemma percentage_of_100 (d : Z) (total : option Z) :
  percentage_of d total = Some (100 # 1) <->
  exists t, total = Some t /\ t <> 0 /\ d = t.
Proof.
  unfold percentage_of. split.
  - destruct total as [t|]; [|discriminate].
    destruct (Z.eqb_spec t 0) as [|Ht]; [discriminate|].
    intros [= H]. exists t. split; [reflexivity|]. split; [exact Ht|].
    assert (Hq : inject_Z d / inject_Z t * inject_Z 100 == 100 # 1)
      by (rewrite <- H; symmetry; apply Qred_correct).
    clear H. destruct t as [|p|p]; [done| |];
      unfold Qeq, Qdiv, Qmult, Qinv, inject_Z in Hq; simpl in Hq;
      rewrite ?Pos.mul_1_r in Hq; lia.
  - intros (t & -> & Ht & ->).
    destruct (Z.eqb_spec t 0) as [|_]; [done|]. f_equal.
    change (100 # 1) with (Qred (100 # 1)). apply Qred_complete.
    destruct t as [|p|p]; [done| |];
      unfold Qeq, Qdiv, Qmult, Qinv, inject_Z; simpl;
      rewrite ?Pos.mul_1_r; lia.
Qed.

(** X7: the percentage of a progress record is 100 exactly when the counter
    of the stream equals the total it was given; and there is no percentage
    (it is NaN or an infinity) exactly when that total is 0 or is not a
    number. *)
Theorem percentage_is_100_iff_counter_is_total (s : Readable) :
  (percentage (progress_of s) = Some (100 # 1) <->
   rd_totalBytes s = Some (rd_downloadedBytes s) /\
   rd_downloadedBytes s <> 0) /\
  (percentage (progress_of s) = None <->
   rd_totalBytes s = None \/ rd_totalBytes s = Some 0).
Proof.
  split.
  - unfold progress_of. simpl. rewrite percentage_of_100. split.
    + intros (t & Ht & Hne & Hd). rewrite Ht, Hd. now split.
    + intros [Ht Hne]. eauto.
  - unfold progress_of, percentage_of. simpl.
    destruct (rd_totalBytes s) as [t|]; [|tauto].
    destruct (Z.eqb_spec t 0) as [->|Ht]; [tauto|].
    split; [discriminate|]. intros [H|[= H]]; [discriminate H | done].
Qed.

(** The listener of a stream only reports the records of the stream. *)
Lemma data_events_records (e0 : externals) (P : DownloadProgress -> Prop)
    (s : Readable) (chunks : list Z) :
  rd_onProgress s = Some record_download ->
  Forall P (stream_records s chunks) ->
  Forall (keeps (downloads_in e0 P)) (data_events s chunks).
Proof.
  intros Hcb. revert s Hcb.
  induction chunks as [|c chunks IH]; intros s Hcb HP; simpl in *;
    constructor.
  - rewrite Hcb. intros w r w' [= <- <-]. apply downloads_in_sink.
    intros p Hp. apply list_elem_of_singleton in Hp as ->.
    now apply Forall_cons in HP as [HP _].
  - apply IH; [exact Hcb|]. now apply Forall_cons in HP as [_ HP].
Qed.

(** X8: two streams that were made with the same total, the sum of what
    each of them delivers, and that both deliver something: in a run of
    [processMedia] over them, however the chunks arrive and however the run
    ends, no progress record reports more bytes than the larger of the two
    streams delivers; so none reports the total, and none a percentage of
    100. *)
Theorem no_record_reaches_the_shared_total (fileManager : FileManager)
    (videoStream audioStream : Readable) (finalOutputPath : string)
    (options : ProcessingOptions) (w : world) (v a : Z)
    (p : DownloadProgress) :
  rd_onProgress videoStream = Some record_download ->
  rd_onProgress audioStream = Some record_download ->
  rd_downloadedBytes videoStream = 0 ->
  rd_downloadedBytes audioStream = 0 ->
  rd_totalBytes videoStream = Some (v + a) ->
  rd_totalBytes audioStream = Some (v + a) ->
  Forall (fun c => 0 <= c) (br_chunks (ext_ffmpeg (ext w) VideoJob)) ->
  Forall (fun c => 0 <= c) (br_chunks (ext_ffmpeg (ext w) AudioJob)) ->
  total_length (br_chunks (ext_ffmpeg (ext w) VideoJob)) = v ->
  total_length (br_chunks (ext_ffmpeg (ext w) AudioJob)) = a ->
  0 < v -> 0 < a ->
  download_events (sink w) = [] ->
  p ∈ download_events
        (sink (processMedia fileManager videoStream audioStream
                 finalOutputPath options None w).2) ->
  downloadedBytes p <= Z.max v a /\
  downloadedBytes p < v + a /\
  totalBytes p = Some (v + a) /\
  percentage p <> Some (100 # 1).
Proof.
  intros Hcbv Hcba Hv0 Ha0 Htv Hta Hposv Hposa Hsumv Hsuma Hv Ha Hnone.
  set (P := fun p : DownloadProgress =>
              downloadedBytes p <= Z.max v a /\
              totalBytes p = Some (v + a) /\
              percentage p
              = percentage_of (downloadedBytes p) (Some (v + a))).
  destruct (processMedia _ _ _ _ _ _ w) as [r w'] eqn:E. simpl.
  assert (HI : downloads_in (ext w) P w).
  { split; [reflexivity|]. rewrite Hnone. intros q Hq.
    now apply elem_of_nil in Hq. }
  assert (Hkeep : downloads_in (ext w) P w').
  { revert E HI.
    apply (keeps_processMedia (downloads_in (ext w) P) (fun _ => True)
             (fun es => forall q, q ∈ download_events es -> P q));
      auto using downloads_in_fs, downloads_in_running, downloads_in_call,
                 downloads_in_sink.
    - discriminate.
    - intros w0 [-> _]. apply data_events_records; [exact Hcbv|].
      eapply Forall_impl; [apply stream_records_spec, Hposv|].
      simpl. intros q (H1 & H2 & H3 & H4).
      rewrite Htv in H3, H4. rewrite Hv0, Hsumv in H2.
      split; [lia | now split].
    - intros w0 [-> _]. apply data_events_records; [exact Hcba|].
      eapply Forall_impl; [apply stream_records_spec, Hposa|].
      simpl. intros q (H1 & H2 & H3 & H4).
      rewrite Hta in H3, H4. rewrite Ha0, Hsuma in H2.
      split; [lia | now split]. }
  intros Hp. destruct Hkeep as [_ Hkeep].
  destruct (Hkeep p Hp) as (H1 & H2 & H3).
  split; [exact H1|]. split; [lia|]. split; [exact H2|].
  rewrite H3. intros H100. apply percentage_of_100 in H100
    as (t & [= <-] & _ & Hd). lia.
Qed.

Lemma no_record_reaches_the_shared_total_witness :
  percentage {| downloadedBytes := 1000; totalBytes := Some 1200;
                percentage := Some (250 # 3) |} <> Some (100 # 1).
Proof.
  apply (no_record_reaches_the_shared_total sample_fileManager
           {| rd_itag := 137; rd_totalBytes := Some 1200;
              rd_onProgress := Some record_download;
              rd_downloadedBytes := 0 |}
           {| rd_itag := 140; rd_totalBytes := Some 1200;
              rd_onProgress := Some record_download;
              rd_downloadedBytes := 0 |}
           "out/video.mkv" no_processing_options
           (sample_world ∅ ∅ sample_run)
           1000 200
           {| downloadedBytes := 1000; totalBytes := Some 1200;
              percentage := Some (250 # 3) |});
    [ reflexivity | reflexivity | reflexivity | reflexivity | reflexivity
    | reflexivity | repeat constructor; lia | repeat constructor; lia
    | reflexivity | reflexivity | lia | lia | reflexivity | ].
  vm_compute. apply list_elem_of_further, list_elem_of_further.
  apply list_elem_of_here.
Defined.

(** ** The workspace *)

(** X9: on a disk where the parent directory of the workspace root is
    there, [createTemporaryPaths] resolves exactly when the root is a
    directory already or can be made (nothing is in its place and the
    system does not refuse); it then returns the paths of the workspace,
    the root is a directory and nothing else in the file system has
    changed, so that a second run through the same manager finds its way
    again.  Otherwise it rejects with a plain error that starts with
    ["Failed to create temporary paths: "], and the file system is as it
    was. *)
Theorem createTemporaryPaths_outcome (this : FileManager) (w : world) :
  fs w !! path_dirname (baseTempDir this) = Some Dir ->
  ((createTemporaryPaths this w).1 = Return (paths_of this) <->
   fs w !! baseTempDir this = Some Dir \/
   (fs w !! baseTempDir this = None /\ baseTempDir this ∉ denied w)) /\
  ((createTemporaryPaths this w).1 = Return (paths_of this) ->
   fs (createTemporaryPaths this w).2 = <[baseTempDir this := Dir]> (fs w) /\
   calls (createTemporaryPaths this w).2
   = calls w ++ [CallMkdir (baseTempDir this);
                 CallExistsSync (baseTempDir this)]) /\
  ((createTemporaryPaths this w).1 <> Return (paths_of this) ->
   (exists e, (createTemporaryPaths this w).1 = Throw e /\
              error_starts_with "Failed to create temporary paths: " e) /\
   fs (createTemporaryPaths this w).2 = fs w).
Proof.
  intros _.
  destruct (createTemporaryPaths this w) as [r w'] eqn:E. revert E.
  unfold createTemporaryPaths, try_catch, bind at 1.
  unfold fs_mkdir_recursive, bind at 1, log, modify. simpl.
  destruct (fs w !! baseTempDir this) as [[|]|] eqn:Eb.
  - unfold throw. intros [= <- <-]. simpl. split; [|split].
    + split; [discriminate | intros [H|[H _]]; discriminate H].
    + discriminate.
    + intros _. split; [|reflexivity]. eexists. split; [reflexivity|].
      eexists. reflexivity.
  - unfold bind. rewrite existsSync_run. simpl. rewrite Eb.
    rewrite bool_decide_eq_true_2 by eauto. simpl.
    intros [= <- <-]. simpl. split; [|split].
    + split; [now left | reflexivity].
    + intros _. split; [|now rewrite <- app_assoc].
      symmetry. now apply insert_id.
    + intros H. now destruct H.
  - case_bool_decide as Hd.
    + unfold throw. intros [= <- <-]. simpl. split; [|split].
      * split; [discriminate | intros [H|[_ H]]; [discriminate H | done]].
      * discriminate.
      * intros _. split; [|reflexivity]. eexists. split; [reflexivity|].
        eexists. reflexivity.
    + unfold bind. rewrite existsSync_run. simpl. rewrite lookup_insert_eq.
      rewrite bool_decide_eq_true_2 by eauto. simpl.
      intros [= <- <-]. simpl. split; [|split].
      * split; [now right | reflexivity].
      * intros _. split; [reflexivity | now rewrite <- app_assoc].
      * intros H. now destruct H.
Qed.

Lemma createTemporaryPaths_outcome_witness :
  (createTemporaryPaths sample_fileManager
     (sample_world {[ "/tmp" := Dir ]} ∅ quiet_externals)).1
  = Return (paths_of sample_fileManager) <->
  fs (sample_world {[ "/tmp" := Dir ]} ∅ quiet_externals)
    !! baseTempDir sample_fileManager = Some Dir \/
  (fs (sample_world {[ "/tmp" := Dir ]} ∅ quiet_externals)
     !! baseTempDir sample_fileManager = None /\
   baseTempDir sample_fileManager
   ∉ denied (sample_world {[ "/tmp" := Dir ]} ∅ quiet_externals)).
Proof.
  apply (createTemporaryPaths_outcome sample_fileManager
           (sample_world {[ "/tmp" := Dir ]} ∅ quiet_externals)).
  vm_compute. reflexivity.
Defined.

Lemma path_join_inj (dir a b : string) :
  path_join dir a = path_join dir b -> a = b.
Proof.
  unfold path_join. intros H. apply String.app_inj in H.
  now apply String.app_inj in H.
Qed.

Lemma append_length (a b : string) :
  String.length (a +:+ b) = (String.length a + String.length b)%nat.
Proof.
  induction a as [|c a IH]; [reflexivity|].
  change (String c a +:+ b) with (String c (a +:+ b)). simpl.
  now rewrite IH.
Qed.

Lemma path_join_longer (dir name : string) : path_join dir name <> dir.
Proof.
  unfold path_join. intros H.
  apply (f_equal String.length) in H.
  rewrite !append_length in H. simpl in H. lia.
Qed.

(** X10: the three paths of a workspace are pairwise distinct, and the two
    intermediate files lie directly below the root: their names are the
    root, a separator and a name without separator that starts with
    [temp_video_] or [temp_audio_]. *)
Theorem workspace_paths_distinct (this : FileManager) (w w' : world)
    (paths : TemporaryPaths) :
  createTemporaryPaths this w = (Return paths, w') ->
  tempDir paths = baseTempDir this /\
  videoPath paths <> audioPath paths /\
  videoPath paths <> tempDir paths /\
  audioPath paths <> tempDir paths /\
  inside (tempDir paths) (videoPath paths) = true /\
  inside (tempDir paths) (audioPath paths) = true /\
  (exists name, videoPath paths = path_join (tempDir paths) name /\
                String.prefix "temp_video_" name = true) /\
  (exists name, audioPath paths = path_join (tempDir paths) name /\
                String.prefix "temp_audio_" name = true).
Proof.
  intros H. apply createTemporaryPaths_Return in H as ->. simpl.
  split; [reflexivity|]. split.
  { intros H. apply path_join_inj in H. discriminate H. }
  split; [apply path_join_longer|]. split; [apply path_join_longer|].
  split; [apply inside_path_join|]. split; [apply inside_path_join|].
  split; eexists; (split; [reflexivity | apply append_prefix]).
Qed.

Lemma workspace_paths_distinct_witness :
  videoPath sample_paths <> audioPath sample_paths /\
  inside (tempDir sample_paths) (videoPath sample_paths) = true.
Proof.
  destruct (workspace_paths_distinct sample_fileManager
              (sample_world ∅ ∅ quiet_externals)
              (createTemporaryPaths sample_fileManager
                 (sample_world ∅ ∅ quiet_externals)).2
              sample_paths)
    as (_ & H1 & _ & _ & H2 & _); [reflexivity|].
  split; [exact H1 | exact H2].
Defined.

(** ** The cleanup pass, step by step *)

Lemma cleanup_file_step (p : string) (errors : list string) (w : world) :
  exists extra w' later,
    cleanup_file p errors w = (Return (errors ++ extra), w') /\
    calls w' = calls w ++ CallExistsSync p :: later /\
    (extra = [] \/
     exists m, extra = ["Failed to delete temporary file " +:+ p +:+ ": "
                        +:+ m]) /\
    (fs w !! p = Some File -> p ∉ denied w ->
     extra = [] /\ fs w' !! p = None).
Proof.
  unfold cleanup_file, try_catch, bind. rewrite existsSync_run.
  case_bool_decide as Hex.
  - unfold fs_unlink, bind, log, modify, ret. simpl.
    destruct (fs w !! p) as [[|]|] eqn:E; [|
      eexists [_], _, [_]; split; [reflexivity|];
      split; [simpl; now rewrite <- app_assoc|];
      split; [right; eexists; reflexivity | discriminate] ..].
    case_bool_decide as Hd.
    + eexists [_], _, [_]. split; [reflexivity|].
      split; [simpl; now rewrite <- app_assoc|].
      split; [right; eexists; reflexivity | done].
    + eexists [], _, [_]. rewrite app_nil_r. split; [reflexivity|].
      split; [simpl; now rewrite <- app_assoc|].
      split; [now left|]. intros _ _. split; [reflexivity|].
      apply lookup_delete_eq.
  - eexists [], _, []. rewrite app_nil_r. split; [reflexivity|].
    split; [reflexivity|]. split; [now left|].
    intros H. destruct Hex. rewrite H. eauto.
Qed.

Lemma cleanup_dir_step (dir : string) (errors : list string) (w : world) :
  exists extra w' later,
    cleanup_dir dir errors w = (Return (errors ++ extra), w') /\
    calls w' = calls w ++ CallExistsSync dir :: later /\
    (extra = [] \/
     exists m, extra = ["Failed to remove temporary directory " +:+ dir
                        +:+ ": " +:+ m]).
Proof.
  unfold cleanup_dir, try_catch, bind. rewrite existsSync_run.
  case_bool_decide as Hex.
  - unfold fs_readdir, bind, log, modify, ret. simpl.
    destruct (fs w !! dir) as [[|]|] eqn:E; [|
      | eexists [_], _, [_]; split; [reflexivity|];
        split; [simpl; now rewrite <- app_assoc|];
        right; eexists; reflexivity].
    + eexists [_], _, [_]. split; [reflexivity|].
      split; [simpl; now rewrite <- app_assoc|].
      right; eexists; reflexivity.
    + destruct (entries dir (fs w)) as [|x l] eqn:El; simpl.
      * unfold fs_rmdir, bind, log, modify. simpl. rewrite E, El.
        destruct (bool_decide (dir ∈ denied w)).
        -- eexists [_], _, [_; _]. split; [reflexivity|].
           split; [simpl; now rewrite <- !app_assoc|].
           right; eexists; reflexivity.
        -- eexists [], _, [_; _]. rewrite app_nil_r.
           split; [reflexivity|].
           split; [simpl; now rewrite <- !app_assoc | now left].
      * unfold fs_rm_recursive_force, bind, log, modify. simpl.
        destruct (bool_decide (blocked dir _ = ∅)).
        -- eexists [], _, [_; _]. rewrite app_nil_r.
           split; [reflexivity|].
           split; [simpl; now rewrite <- !app_assoc | now left].
        -- eexists [_], _, [_; _]. split; [reflexivity|].
           split; [simpl; now rewrite <- !app_assoc|].
           right; eexists; reflexivity.
  - eexists [], _, []. rewrite app_nil_r. split; [reflexivity|].
    split; [reflexivity | now left].
Qed.

(** The three steps of [cleanupTemporaryFiles], and the errors each of them
    can add. *)
Lemma cleanup_steps (paths : TemporaryPaths) (w : world) :
  exists ev ea ed w1 w2 w3,
    cleanup_file (videoPath paths) [] w = (Return ev, w1) /\
    cleanup_file (audioPath paths) ev w1 = (Return (ev ++ ea), w2) /\
    cleanup_dir (tempDir paths) (ev ++ ea) w2
    = (Return (ev ++ ea ++ ed), w3) /\
    cleanupTemporaryFiles paths w =
      (match ev ++ ea ++ ed with
       | [] => Return tt
       | _ :: _ => Throw (CleanupError (ev ++ ea ++ ed))
       end, w3) /\
    (ev = [] \/
     exists m, ev = ["Failed to delete temporary file " +:+ videoPath paths
                     +:+ ": " +:+ m]) /\
    (ea = [] \/
     exists m, ea = ["Failed to delete temporary file " +:+ audioPath paths
                     +:+ ": " +:+ m]) /\
    (ed = [] \/
     exists m, ed = ["Failed to remove temporary directory "
                     +:+ tempDir paths +:+ ": " +:+ m]).
Proof.
  destruct (cleanup_file_step (videoPath paths) [] w)
    as (ev & w1 & l1 & E1 & _ & Hev & _).
  destruct (cleanup_file_step (audioPath paths) ev w1)
    as (ea & w2 & l2 & E2 & _ & Hea & _).
  destruct (cleanup_dir_step (tempDir paths) (ev ++ ea) w2)
    as (ed & w3 & l3 & E3 & _ & Hed).
  simpl in E1. rewrite <- app_assoc in E3.
  exists ev, ea, ed, w1, w2, w3.
  split; [exact E1|]. split; [exact E2|]. split; [exact E3|].
  split; [|auto].
  unfold cleanupTemporaryFiles, cleanup_files, bind.
  rewrite E1, E2. unfold ret. rewrite E3. now destruct (ev ++ ea ++ ed).
Qed.

(** X11: [cleanupTemporaryFiles] touches nothing but the workspace.  Every
    path that is neither one of the two intermediate files nor the root
    directory or something below it is after the cleanup what it was
    before; no path is created or replaced; the sink and the processes are
    left alone; and the calls that are made are calls to the file system. *)
Theorem cleanup_touches_only_the_workspace (paths : TemporaryPaths)
    (w : world) :
  (forall q, q <> videoPath paths -> q <> audioPath paths ->
             within (tempDir paths) q = false ->
             fs (cleanupTemporaryFiles paths w).2 !! q = fs w !! q) /\
  (forall q, fs (cleanupTemporaryFiles paths w).2 !! q = fs w !! q \/
             fs (cleanupTemporaryFiles paths w).2 !! q = None) /\
  sink (cleanupTemporaryFiles paths w).2 = sink w /\
  running (cleanupTemporaryFiles paths w).2 = running w /\
  exists added,
    calls (cleanupTemporaryFiles paths w).2 = calls w ++ added /\
    Forall (fun c => is_fs_call c = true) added.
Proof.
  destruct (cleanupTemporaryFiles paths w) as [r w'] eqn:E. simpl.
  destruct (op_cleanupTemporaryFiles paths w r w' E)
    as ((_ & _ & Hrun & Hsink & _) & _ & Hfs).
  split; [|split; [|split; [exact Hsink | split; [exact Hrun|]]]].
  - intros q Hv Ha Hd. destruct (Hfs q) as [H|[[H|[H|H]] _]]; try done.
    rewrite H in Hd. discriminate Hd.
  - intros q. destruct (Hfs q) as [H|[_ H]]; auto.
  - assert (H : only_added (ext w) (calls w)
                  (fun c => is_fs_call c = true) w').
    { revert E.
      assert (H0 : only_added (ext w) (calls w)
                     (fun c => is_fs_call c = true) w).
      { split; [reflexivity|]. exists []. now rewrite app_nil_r. }
      intros E. revert E H0.
      apply (keeps_cleanupTemporaryFiles _ (fun c => is_fs_call c = true));
        auto using only_added_fs, only_added_call. }
    destruct H as [_ H]. exact H.
Qed.

(** X12: a removal that fails does not stop the others.  Whatever becomes
    of the video file, an audio file that is there and that the system lets
    go is removed, and the removal of the root directory is attempted
    afterwards. *)
Theorem cleanup_goes_on_after_a_failure (paths : TemporaryPaths) (w : world) :
  fs w !! audioPath paths = Some File ->
  audioPath paths ∉ denied w ->
  audioPath paths <> videoPath paths ->
  fs (cleanupTemporaryFiles paths w).2 !! audioPath paths = None /\
  exists earlier later,
    calls (cleanupTemporaryFiles paths w).2
    = calls w ++ earlier ++ CallExistsSync (tempDir paths) :: later.
Proof.
  intros Ha Hd Hne.
  destruct (cleanup_steps paths w)
    as (ev & ea & ed & w1 & w2 & w3 & E1 & E2 & E3 & -> & _). simpl.
  assert (R1 : removes (eq (videoPath paths)) w w1)
    by (eapply op_cleanup_file, E1).
  destruct (cleanup_file_step (videoPath paths) [] w)
    as (ev' & w1' & l1 & E1' & Hc1 & _).
  simpl in E1'. rewrite E1 in E1'. injection E1' as _ <-.
  destruct (cleanup_file_step (audioPath paths) ev w1)
    as (ea' & w2' & l2 & E2' & Hc2 & _ & Hgone).
  rewrite E2 in E2'. injection E2' as _ <-.
  destruct Hgone as [_ Hgone].
  { erewrite removes_outside; [exact Ha | exact R1 | auto]. }
  { destruct R1 as [(-> & _) _]. exact Hd. }
  destruct (cleanup_dir_step (tempDir paths) (ev ++ ea) w2)
    as (ed' & w3' & l3 & E3' & Hc3 & _).
  rewrite <- app_assoc, E3 in E3'. injection E3' as _ <-.
  split.
  - eapply removes_absent; [eapply op_cleanup_dir, E3 | exact Hgone].
  - exists (CallExistsSync (videoPath paths) :: l1
            ++ CallExistsSync (audioPath paths) :: l2), l3.
    rewrite Hc3, Hc2, Hc1. simpl. rewrite <- !app_assoc. reflexivity.
Qed.

Lemma cleanup_goes_on_after_a_failure_witness :
  fs (cleanupTemporaryFiles sample_paths
        (sample_world sample_files {[ videoPath sample_paths ]}
           quiet_externals)).2 !! audioPath sample_paths = None /\
  exists earlier later,
    calls (cleanupTemporaryFiles sample_paths
             (sample_world sample_files {[ videoPath sample_paths ]}
                quiet_externals)).2
    = calls (sample_world sample_files {[ videoPath sample_paths ]}
               quiet_externals)
      ++ earlier ++ CallExistsSync (tempDir sample_paths) :: later.
Proof.
  apply (cleanup_goes_on_after_a_failure sample_paths
           (sample_world sample_files {[ videoPath sample_paths ]}
              quiet_externals)).
  - vm_compute. reflexivity.
  - simpl. rewrite elem_of_singleton. discriminate.
  - discriminate.
Defined.

(** X13: when [cleanupTemporaryFiles] rejects, it is with a [CleanupError]
    that carries between one and three messages, one for each removal that
    failed, in the order video file, audio file, directory; each message
    says which removal it was; and at least one of the three paths existed
    when the cleanup began. *)
Theorem cleanup_rejects_with_every_failure (paths : TemporaryPaths)
    (w w' : world) (e : jsError) :
  cleanupTemporaryFiles paths w = (Throw e, w') ->
  exists errors,
    e = CleanupError errors /\
    (1 <= length errors <= 3)%nat /\
    Forall (fun m =>
              String.prefix "Failed to delete temporary file " m = true \/
              String.prefix "Failed to remove temporary directory " m = true)
           errors /\
    (is_Some (fs w !! videoPath paths) \/
     is_Some (fs w !! audioPath paths) \/
     is_Some (fs w !! tempDir paths)).
Proof.
  intros H.
  destruct (cleanup_steps paths w)
    as (ev & ea & ed & w1 & w2 & w3 & _ & _ & _ & E & Hev & Hea & Hed).
  rewrite H in E.
  destruct (ev ++ ea ++ ed) as [|m errors] eqn:Eall; [discriminate E|].
  injection E as -> _. exists (m :: errors). split; [reflexivity|].
  rewrite <- Eall. split; [|split].
  - apply (f_equal length) in Eall. rewrite !length_app in *.
    destruct Hev as [->|[? ->]], Hea as [->|[? ->]], Hed as [->|[? ->]];
      simpl in *; lia.
  - repeat apply Forall_app_2.
    + destruct Hev as [->|[? ->]]; [apply Forall_nil_2|].
      apply Forall_cons_2; [left; apply append_prefix | apply Forall_nil_2].
    + destruct Hea as [->|[? ->]]; [apply Forall_nil_2|].
      apply Forall_cons_2; [left; apply append_prefix | apply Forall_nil_2].
    + destruct Hed as [->|[? ->]]; [apply Forall_nil_2|].
      apply Forall_cons_2; [right; apply append_prefix | apply Forall_nil_2].
  - destruct (cleanup_ignores_absent paths w)
      as (ev' & ea' & ed' & w3' & E' & Hv & Ha & Hd).
    rewrite H in E'.
    destruct (fs w !! videoPath paths); [left; eauto|].
    destruct (fs w !! audioPath paths); [right; left; eauto|].
    destruct (fs w !! tempDir paths); [right; right; eauto|].
    rewrite Hv, Ha, Hd in E' by reflexivity. discriminate E'.
Qed.

Lemma cleanup_rejects_with_every_failure_witness :
  exists errors,
    CleanupError locked_video_errors = CleanupError errors /\
    (1 <= length errors <= 3)%nat.
Proof.
  destruct (cleanup_rejects_with_every_failure sample_paths
              locked_success_world_2 locked_success_world_3
              (CleanupError locked_video_errors))
    as (errors & H1 & H2 & _); [vm_compute; reflexivity|].
  exists errors. split; [exact H1 | exact H2].
Defined.

(** ** The pipeline, whatever the schedule *)

(** The [try] block of [processMedia] starts the two transcodes, in this
    order, and goes on from there. *)
Lemma processMedia_try_from (paths : TemporaryPaths)
    (videoStream audioStream : Readable) (finalOutputPath : string)
    (options : ProcessingOptions)
    (onProgress : option (callback ProcessingProgress)) (w : world) :
  exists videoCommand audioCommand wb,
    processMedia_try paths videoStream audioStream finalOutputPath options
      onProgress w =
    (run Promise_all
           (data_events videoStream (br_chunks (ext_ffmpeg (ext w) VideoJob))
            ++ progress_events StageVideo onProgress
                 (br_ticks (ext_ffmpeg (ext w) VideoJob))
            ++ [settle VideoJob (videoPath paths)
                  "Video processing failed: "])
           (data_events audioStream (br_chunks (ext_ffmpeg (ext w) AudioJob))
            ++ progress_events StageAudio onProgress
                 (br_ticks (ext_ffmpeg (ext w) AudioJob))
            ++ [settle AudioJob (audioPath paths)
                  "Audio processing failed: "]);
     run verifyTemporaryFiles paths;
     do combined <- combineStreams (videoPath paths) (audioPath paths)
                      finalOutputPath options onProgress;
     run await combined;
     verifyOutputFile finalOutputPath) wb /\
    fs wb = fs w /\ denied wb = denied w /\ sink wb = sink w /\
    ext wb = ext w /\ running wb = running w ++ [VideoJob; AudioJob] /\
    calls wb = calls w ++ [CallFfmpegSave VideoJob videoCommand
                             (videoPath paths);
                           CallFfmpegSave AudioJob audioCommand
                             (audioPath paths)] /\
    expected_backend_call paths videoStream audioStream finalOutputPath
      options (CallFfmpegSave VideoJob videoCommand (videoPath paths)) /\
    expected_backend_call paths videoStream audioStream finalOutputPath
      options (CallFfmpegSave AudioJob audioCommand (audioPath paths)).
Proof.
  eexists _, _, _. split; [reflexivity|]. simpl.
  rewrite <- !app_assoc. now repeat split.
Qed.

Lemma combineStreams_run (paths : TemporaryPaths)
    (videoStream audioStream : Readable) (finalOutputPath : string)
    (options : ProcessingOptions)
    (onProgress : option (callback ProcessingProgress)) (w : world) :
  exists command w',
    combineStreams (videoPath paths) (audioPath paths) finalOutputPath
      options onProgress w =
    (Return (progress_events StageCombining onProgress
               (br_ticks (ext_ffmpeg (ext w) CombineJob))
             ++ [settle CombineJob finalOutputPath
                   "Stream combination failed: "]),
     w') /\
    fs w' = fs w /\ denied w' = denied w /\ sink w' = sink w /\
    ext w' = ext w /\ running w' = running w ++ [CombineJob] /\
    calls w' = calls w ++ [CallFfmpegSave CombineJob command
                             finalOutputPath] /\
    expected_backend_call paths videoStream audioStream finalOutputPath
      options (CallFfmpegSave CombineJob command finalOutputPath).
Proof. eexists _, _. split; [reflexivity|]. now repeat split. Qed.

(** The steps of a promise made by [save], for an invariant that the
    delivery of events does not disturb. *)
Lemma keeps_data_events (I : world -> Prop) (s : Readable) (chunks : list Z) :
  (forall es w, I w -> I (add_sink es w)) ->
  Forall (keeps I) (data_events s chunks).
Proof.
  intros I_sink. revert s.
  induction chunks as [|c chunks IH]; intros s; simpl; constructor;
    [|apply IH].
  apply (keeps_invoke I (fun _ => True)); auto.
Qed.

Lemma keeps_promise (I : world -> Prop) (s : Readable) (chunks : list Z)
    (st : ProcessingStage) (onProgress : option (callback ProcessingProgress))
    (ticks : list (option Q * option string)) (last_step : M unit) :
  (forall es w, I w -> I (add_sink es w)) ->
  keeps I last_step ->
  Forall (keeps I)
    (data_events s chunks ++ progress_events st onProgress ticks
     ++ [last_step]).
Proof.
  intros I_sink Hlast. apply Forall_app. split.
  { now apply keeps_data_events. }
  apply Forall_app. split.
  { apply (keeps_progress_events I (fun _ => True)); auto. }
  now repeat constructor.
Qed.

Lemma keeps_mux_promise (I : world -> Prop) (st : ProcessingStage)
    (onProgress : option (callback ProcessingProgress))
    (ticks : list (option Q * option string)) (last_step : M unit) :
  (forall es w, I w -> I (add_sink es w)) ->
  keeps I last_step ->
  Forall (keeps I) (progress_events st onProgress ticks ++ [last_step]).
Proof.
  intros I_sink Hlast. apply Forall_app. split.
  { apply (keeps_progress_events I (fun _ => True)); auto. }
  now repeat constructor.
Qed.

(** A promise that resolves has run every one of its steps. *)
Lemma await_settles (Q : world -> Prop) (p : Promise) (w w' : world) :
  Forall (keeps Q) p -> Exists (settles Q) p ->
  await p w = (Return tt, w') -> Q w'.
Proof.
  intros Hp. revert w. induction Hp as [|step p Hstep Hp IH]; intros w Hex;
    [now apply Exists_nil in Hex|].
  simpl. unfold bind. destruct (step w) as [[[]|e] w1] eqn:E; [|discriminate].
  intros H. apply Exists_cons in Hex as [Hset|Hex].
  - eapply (keeps_await Q p Hp); [exact H | eapply Hset, E].
  - now apply (IH w1).
Qed.

Lemma interleave_settles_l (Q : world -> Prop) (schedule : list bool)
    (p q : Promise) (w w' : world) :
  Forall (keeps Q) p -> Forall (keeps Q) q -> Exists (settles Q) p ->
  interleave schedule p q w = (Return tt, w') -> Q w'.
Proof.
  revert p q w.
  induction schedule as [|[|] later IH]; intros p q w Hp Hq Hex; simpl.
  - unfold bind. destruct (await p w) as [[[]|e] w1] eqn:E; [|discriminate].
    intros H. eapply (keeps_await Q q Hq); [exact H|].
    exact (await_settles Q p w w1 Hp Hex E).
  - destruct Hp as [|step p Hstep Hp]; [now apply Exists_nil in Hex|].
    unfold bind. destruct (step w) as [[[]|e] w1] eqn:E; [|discriminate].
    intros H. apply Exists_cons in Hex as [Hset|Hex].
    + eapply (keeps_interleave Q later p q Hp Hq); [exact H|].
      eapply Hset, E.
    + now apply (IH p q w1).
  - destruct Hq as [|step q Hstep Hq]; [now apply IH|].
    unfold bind. destruct (step w) as [[[]|e] w1] eqn:E; [|discriminate].
    now apply IH.
Qed.

Lemma interleave_settles_r (Q : world -> Prop) (schedule : list bool)
    (p q : Promise) (w w' : world) :
  Forall (keeps Q) p -> Forall (keeps Q) q -> Exists (settles Q) q ->
  interleave schedule p q w = (Return tt, w') -> Q w'.
Proof.
  revert p q w.
  induction schedule as [|[|] later IH]; intros p q w Hp Hq Hex; simpl.
  - unfold bind. destruct (await p w) as [[[]|e] w1] eqn:E; [|discriminate].
    intros H. exact (await_settles Q q w1 w' Hq Hex H).
  - destruct Hp as [|step p Hstep Hp]; [now apply IH|].
    unfold bind. destruct (step w) as [[[]|e] w1] eqn:E; [|discriminate].
    now apply IH.
  - destruct Hq as [|step q Hstep Hq]; [now apply Exists_nil in Hex|].
    unfold bind. destruct (step w) as [[[]|e] w1] eqn:E; [|discriminate].
    intros H. apply Exists_cons in Hex as [Hset|Hex].
    + eapply (keeps_interleave Q later p q Hp Hq); [exact H|].
      eapply Hset, E.
    + now apply (IH p q w1).
Qed.

(** The ['end'] and ['error'] handlers of a command take its process off
    the list, and put no process on it. *)
Lemma settle_settles (j : job) (outputPath prefix : string) :
  settles (fun w => j ∉ running w) (settle j outputPath prefix).
Proof.
  intros w r w'. unfold settle.
  destruct (br_error _), (br_wrote _); intros [= <- <-]; simpl;
    rewrite list_elem_of_filter; tauto.
Qed.

Lemma settle_keeps_not_running (j k : job) (outputPath prefix : string) :
  keeps (fun w => j ∉ running w) (settle k outputPath prefix).
Proof.
  intros w r w'. unfold settle.
  destruct (br_error _), (br_wrote _); intros [= <- <-]; simpl;
    rewrite list_elem_of_filter; tauto.
Qed.

Lemma removes_running (T : string -> Prop) (w w' : world) :
  removes T w w' -> running w' = running w.
Proof. now intros [(_ & _ & H & _) _]. Qed.

Lemma verify_each_removes (files : list (string * string)) :
  op_removes (fun _ => False) (verify_each files).
Proof.
  induction files as [|[path name] files IH]; simpl; [apply op_ret|].
  apply op_bind; [apply op_existsSync | intros [|]]; simpl;
    [exact IH | apply op_throw].
Qed.

Lemma verifyOutputFile_removes (outputPath : string) :
  op_removes (fun _ => False) (verifyOutputFile outputPath).
Proof.
  apply op_bind; [apply op_existsSync | intros [|]]; simpl;
    [apply op_ret | apply op_throw].
Qed.

(** A run of [processMedia] that completes leaves no backend process
    behind: the two transcodes and the mux it started have all ended. *)
Lemma processMedia_Return_no_process (fileManager : FileManager)
    (videoStream audioStream : Readable) (finalOutputPath : string)
    (options : ProcessingOptions)
    (onProgress : option (callback ProcessingProgress)) (w w' : world) :
  processMedia fileManager videoStream audioStream finalOutputPath options
    onProgress w = (Return tt, w') ->
  (VideoJob ∉ running w') /\ (AudioJob ∉ running w') /\
  (CombineJob ∉ running w').
Proof.
  intros H.
  apply processMedia_Return_inv in H as (w1 & w2 & _ & Htry & Hclean).
  rewrite (removes_running _ _ _ (op_cleanupTemporaryFiles _ _ _ _ Hclean)).
  clear Hclean w'.
  destruct (processMedia_try_from (paths_of fileManager) videoStream
              audioStream finalOutputPath options onProgress w1)
    as (cv & ca & wb & E & _). rewrite E in Htry. clear E.
  apply bind_Return_inv in Htry as ([] & wc & Hall & Htry).
  apply bind_Return_inv in Htry as ([] & wd & Hverify & Htry).
  apply bind_Return_inv in Htry as (combined & we & Hcombine & Htry).
  apply bind_Return_inv in Htry as ([] & wf & Hawait & Hout).
  apply bind_Return_inv in Hall as (schedule & wb' & [= <- <-] & Hall).
  assert (Hsink : forall j es w0,
            j ∉ running w0 -> j ∉ running (add_sink es w0)) by auto.
  assert (Hstart : forall j, j <> CombineJob -> j ∉ running wc ->
                             j ∉ running wf).
  { intros j Hj Hc.
    assert (Hd : j ∉ running wd).
    { now rewrite (removes_running _ _ _ (verify_each_removes _ _ _ _
                                            Hverify)). }
    destruct (combineStreams_run (paths_of fileManager) videoStream
                audioStream finalOutputPath options onProgress wd)
      as (cc & we' & Ec & _ & _ & _ & _ & Hrun & _).
    rewrite Hcombine in Ec. injection Ec as -> <-.
    assert (He : j ∉ running we).
    { rewrite Hrun, elem_of_app, list_elem_of_singleton. tauto. }
    eapply (keeps_await (fun w0 => j ∉ running w0));
      [|exact Hawait | exact He].
    apply keeps_mux_promise; [auto | apply settle_keeps_not_running]. }
  rewrite !(removes_running _ _ _ (verifyOutputFile_removes _ _ _ _ Hout)).
  split; [|split].
  - apply Hstart; [discriminate|].
    eapply (interleave_settles_l (fun w0 => VideoJob ∉ running w0));
      [| | |exact Hall].
    + apply keeps_promise; [auto | apply settle_keeps_not_running].
    + apply keeps_promise; [auto | apply settle_keeps_not_running].
    + apply Exists_app. right. apply Exists_app. right.
      constructor. apply settle_settles.
  - apply Hstart; [discriminate|].
    eapply (interleave_settles_r (fun w0 => AudioJob ∉ running w0));
      [| | |exact Hall].
    + apply keeps_promise; [auto | apply settle_keeps_not_running].
    + apply keeps_promise; [auto | apply settle_keeps_not_running].
    + apply Exists_app. right. apply Exists_app. right.
      constructor. apply settle_settles.
  - destruct (combineStreams_run (paths_of fileManager) videoStream
                audioStream finalOutputPath options onProgress wd)
      as (cc & we' & Ec & _).
    rewrite Hcombine in Ec. injection Ec as -> <-.
    eapply (await_settles (fun w0 => CombineJob ∉ running w0));
      [| |exact Hawait].
    + apply keeps_mux_promise; [auto | apply settle_keeps_not_running].
    + apply Exists_app. right. constructor. apply settle_settles.
Qed.


(** ** The stages of a run *)

Lemma fs_calls_only_of_keeps {A} (m : M A) :
  (forall e0 c0, keeps (only_added e0 c0 (fun c => is_fs_call c = true)) m) ->
  forall w r w', m w = (r, w') -> fs_calls_only w w'.
Proof.
  intros Hm w r w' E. apply (Hm (ext w) (calls w) w r w' E).
  split; [reflexivity|]. exists []. now rewrite app_nil_r.
Qed.

Lemma createTemporaryPaths_fs_calls (this : FileManager) (w w' : world)
    (r : result TemporaryPaths) :
  createTemporaryPaths this w = (r, w') -> fs_calls_only w w'.
Proof.
  apply fs_calls_only_of_keeps. intros e0 c0.
  apply (keeps_createTemporaryPaths _ (fun c => is_fs_call c = true));
    auto using only_added_fs, only_added_call.
Qed.

Lemma cleanupTemporaryFiles_fs_calls (paths : TemporaryPaths) (w w' : world)
    (r : result unit) :
  cleanupTemporaryFiles paths w = (r, w') -> fs_calls_only w w'.
Proof.
  apply fs_calls_only_of_keeps. intros e0 c0.
  apply (keeps_cleanupTemporaryFiles _ (fun c => is_fs_call c = true));
    auto using only_added_fs, only_added_call.
Qed.

Lemma verifyTemporaryFiles_fs_calls (paths : TemporaryPaths) (w w' : world)
    (r : result unit) :
  verifyTemporaryFiles paths w = (r, w') -> fs_calls_only w w'.
Proof.
  apply fs_calls_only_of_keeps. intros e0 c0.
  apply (keeps_verify_each _ (fun c => is_fs_call c = true));
    auto using only_added_call.
Qed.

Lemma verifyOutputFile_fs_calls (outputPath : string) (w w' : world)
    (r : result unit) :
  verifyOutputFile outputPath w = (r, w') -> fs_calls_only w w'.
Proof.
  apply fs_calls_only_of_keeps. intros e0 c0.
  apply (keeps_verifyOutputFile _ (fun c => is_fs_call c = true));
    auto using only_added_call.
Qed.

(** The steps of a promise make no call and leave the collaborators as
    they are. *)
Lemma promise_steps_quiet (s : Readable) (chunks : list Z)
    (st : ProcessingStage) (onProgress : option (callback ProcessingProgress))
    (ticks : list (option Q * option string)) (j : job)
    (outputPath prefix : string) (e0 : externals) (c0 : list call) :
  Forall (keeps (fun w => ext w = e0 /\ calls w = c0))
    (data_events s chunks ++ progress_events st onProgress ticks
     ++ [settle j outputPath prefix]).
Proof.
  apply keeps_promise; [auto|].
  apply (keeps_settle (fun w => ext w = e0 /\ calls w = c0)); auto.
Qed.

Lemma mux_steps_quiet (st : ProcessingStage)
    (onProgress : option (callback ProcessingProgress))
    (ticks : list (option Q * option string)) (j : job)
    (outputPath prefix : string) (e0 : externals) (c0 : list call) :
  Forall (keeps (fun w => ext w = e0 /\ calls w = c0))
    (progress_events st onProgress ticks ++ [settle j outputPath prefix]).
Proof.
  apply keeps_mux_promise; [auto|].
  apply (keeps_settle (fun w => ext w = e0 /\ calls w = c0)); auto.
Qed.

(** How the [try] block of [processMedia] goes: the two transcodes are
    started; then [Promise.all], the check of the intermediate files, the
    start of the mux, its end and the check of the output file follow one
    another, each only when the one before came through. *)
Lemma processMedia_try_cases (paths : TemporaryPaths)
    (videoStream audioStream : Readable) (finalOutputPath : string)
    (options : ProcessingOptions)
    (onProgress : option (callback ProcessingProgress))
    (w w2 : world) (tried : result unit) :
  processMedia_try paths videoStream audioStream finalOutputPath options
    onProgress w = (tried, w2) ->
  exists videoCommand audioCommand wb r1 wc,
    (fs wb = fs w /\ denied wb = denied w /\ sink wb = sink w /\
     ext wb = ext w /\ running wb = running w ++ [VideoJob; AudioJob] /\
     calls wb = calls w ++ [CallFfmpegSave VideoJob videoCommand
                              (videoPath paths);
                            CallFfmpegSave AudioJob audioCommand
                              (audioPath paths)] /\
     expected_backend_call paths videoStream audioStream finalOutputPath
       options (CallFfmpegSave VideoJob videoCommand (videoPath paths)) /\
     expected_backend_call paths videoStream audioStream finalOutputPath
       options (CallFfmpegSave AudioJob audioCommand (audioPath paths))) /\
    interleave (ext_schedule (ext w))
      (data_events videoStream (br_chunks (ext_ffmpeg (ext w) VideoJob))
       ++ progress_events StageVideo onProgress
            (br_ticks (ext_ffmpeg (ext w) VideoJob))
       ++ [settle VideoJob (videoPath paths) "Video processing failed: "])
      (data_events audioStream (br_chunks (ext_ffmpeg (ext w) AudioJob))
       ++ progress_events StageAudio onProgress
            (br_ticks (ext_ffmpeg (ext w) AudioJob))
       ++ [settle AudioJob (audioPath paths) "Audio processing failed: "])
      wb = (r1, wc) /\
    ext wc = ext w /\ calls wc = calls wb /\
    ((exists e, r1 = Throw e /\ tried = Throw e /\ w2 = wc) \/
     (r1 = Return tt /\
      exists r2 wd,
        verifyTemporaryFiles paths wc = (r2, wd) /\
        ((exists e, r2 = Throw e /\ tried = Throw e /\ w2 = wd) \/
         (r2 = Return tt /\
          exists muxCommand we r3 wf,
            (fs we = fs wd /\ ext we = ext w /\
             calls we = calls wd ++ [CallFfmpegSave CombineJob muxCommand
                                       finalOutputPath] /\
             expected_backend_call paths videoStream audioStream
               finalOutputPath options
               (CallFfmpegSave CombineJob muxCommand finalOutputPath)) /\
            await (progress_events StageCombining onProgress
                     (br_ticks (ext_ffmpeg (ext w) CombineJob))
                   ++ [settle CombineJob finalOutputPath
                         "Stream combination failed: "]) we = (r3, wf) /\
            ext wf = ext w /\ calls wf = calls we /\
            ((exists e, r3 = Throw e /\ tried = Throw e /\ w2 = wf) \/
             (r3 = Return tt /\
              verifyOutputFile finalOutputPath wf = (tried, w2))))))).
Proof.
  intros H.
  destruct (processMedia_try_from paths videoStream audioStream
              finalOutputPath options onProgress w)
    as (cv & ca & wb & E & Hwb). rewrite E in H. clear E.
  assert (Hext : ext wb = ext w) by tauto.
  exists cv, ca, wb.
  unfold bind at 1 in H. unfold Promise_all, bind at 1, read in H.
  rewrite Hext in H.
  match type of H with
  | match interleave ?s ?p ?q wb with _ => _ end = _ =>
      destruct (interleave s p q wb) as [r1 wc] eqn:Ei
  end.
  exists r1, wc. split; [exact Hwb|]. split; [reflexivity|].
  assert (Hc : ext wc = ext wb /\ calls wc = calls wb).
  { eapply (keeps_interleave
              (fun w0 => ext w0 = ext wb /\ calls w0 = calls wb));
      [| |exact Ei|now split]; apply promise_steps_quiet. }
  destruct Hc as [Hextc Hcallsc]. rewrite Hext in Hextc.
  split; [exact Hextc|]. split; [exact Hcallsc|].
  destruct r1 as [[]|e]; [right|left; exists e; now injection H as <- <-].
  split; [reflexivity|].
  unfold bind at 1 in H.
  destruct (verifyTemporaryFiles paths wc) as [r2 wd] eqn:Ev.
  exists r2, wd. split; [reflexivity|].
  destruct r2 as [[]|e]; [right|left; exists e; now injection H as <- <-].
  split; [reflexivity|].
  assert (Hextd : ext wd = ext w).
  { destruct (verifyTemporaryFiles_fs_calls _ _ _ _ Ev) as [-> _].
    exact Hextc. }
  unfold bind at 1 in H.
  destruct (combineStreams_run paths videoStream audioStream finalOutputPath
              options onProgress wd)
    as (cc & we & Ec & Hfse & _ & _ & Hexte & _ & Hcallse & Hcc).
  rewrite Ec in H. rewrite Hextd in H.
  unfold bind at 1 in H.
  match type of H with
  | match await ?p we with _ => _ end = _ =>
      destruct (await p we) as [r3 wf] eqn:Ea
  end.
  exists cc, we, r3, wf. rewrite Hextd in Hexte.
  split; [now split; [|split; [|split]]|]. split; [exact Ea|].
  assert (Hf : ext wf = ext we /\ calls wf = calls we).
  { eapply (keeps_await (fun w0 => ext w0 = ext we /\ calls w0 = calls we));
      [|exact Ea|now split]. apply mux_steps_quiet. }
  destruct Hf as [Hextf Hcallsf]. rewrite Hexte in Hextf.
  split; [exact Hextf|]. split; [exact Hcallsf|].
  destruct r3 as [[]|e]; [right|left; exists e; now injection H as <- <-].
  split; [reflexivity | exact H].
Qed.

Lemma processMedia_cases (fileManager : FileManager)
    (videoStream audioStream : Readable) (finalOutputPath : string)
    (options : ProcessingOptions)
    (onProgress : option (callback ProcessingProgress)) (w w' : world)
    (r : result unit) :
  processMedia fileManager videoStream audioStream finalOutputPath options
    onProgress w = (r, w') ->
  (exists e, createTemporaryPaths fileManager w = (Throw e, w') /\
             r = Throw e) \/
  (exists w1 tried w2 cleaned,
     createTemporaryPaths fileManager w
     = (Return (paths_of fileManager), w1) /\
     processMedia_try (paths_of fileManager) videoStream audioStream
       finalOutputPath options onProgress w1 = (tried, w2) /\
     cleanupTemporaryFiles (paths_of fileManager) w2 = (cleaned, w') /\
     r = match cleaned, tried with
         | Throw cleanupError, _ => Throw cleanupError
         | Return _, Throw error => Throw error
         | Return _, Return _ => Return tt
         end).
Proof.
  intros H.
  destruct (createTemporaryPaths fileManager w) as [[paths|e] w1] eqn:Ec.
  - right. pose proof (createTemporaryPaths_Return _ _ _ _ Ec) as ->.
    destruct (processMedia_try (paths_of fileManager) videoStream audioStream
                finalOutputPath options onProgress w1)
      as [tried w2] eqn:Et.
    destruct (cleanupTemporaryFiles (paths_of fileManager) w2)
      as [cleaned w3] eqn:Ecl.
    rewrite (processMedia_outcome _ _ _ _ _ _ _ _ _ _ _ _ _ Ec Et Ecl) in H.
    injection H as <- <-. now exists w1, tried, w2, cleaned.
  - left. unfold processMedia, bind in H. rewrite Ec in H.
    injection H as <- <-. now exists e.
Qed.

Lemma verifyTemporaryFiles_Return (paths : TemporaryPaths) (w w' : world) :
  verifyTemporaryFiles paths w = (Return tt, w') ->
  is_Some (fs w !! videoPath paths) /\ is_Some (fs w !! audioPath paths).
Proof.
  unfold verifyTemporaryFiles, verify_each, bind. rewrite !existsSync_run.
  case_bool_decide as Hv; [|discriminate]. simpl.
  case_bool_decide as Ha; [|discriminate]. auto.
Qed.

Lemma createTemporaryPaths_Return_fs (this : FileManager) (w w' : world)
    (paths : TemporaryPaths) :
  createTemporaryPaths this w = (Return paths, w') ->
  fs w' = <[baseTempDir this := Dir]> (fs w).
Proof.
  unfold createTemporaryPaths, try_catch, bind at 1.
  unfold fs_mkdir_recursive, bind at 1, log, modify. simpl.
  destruct (fs w !! baseTempDir this) as [[|]|] eqn:Eb.
  - discriminate.
  - unfold bind. rewrite existsSync_run. simpl. rewrite Eb.
    rewrite bool_decide_eq_true_2 by eauto. simpl.
    intros [= _ <-]. simpl. symmetry. now apply insert_id.
  - case_bool_decide as Hd; [discriminate|].
    unfold bind. rewrite existsSync_run. simpl. rewrite lookup_insert_eq.
    rewrite bool_decide_eq_true_2 by eauto. simpl.
    now intros [= _ <-].
Qed.

Lemma interleave_rejects_r (I : world -> Prop) (schedule : list bool)
    (p q : Promise) (w : world) :
  Forall (keeps I) p -> Forall (keeps I) q -> Exists (rejects I) q -> I w ->
  exists e, (interleave schedule p q w).1 = Throw e.
Proof.
  revert p q w.
  induction schedule as [|[|] later IH]; intros p q w Hp Hq Hex Hw; simpl.
  - unfold bind. destruct (await p w) as [[[]|e'] w1] eqn:E;
      [|simpl; eauto].
    apply (await_rejects I q w1 Hq Hex).
    exact (keeps_await I p Hp _ _ _ E Hw).
  - destruct Hp as [|step p Hstep Hp]; [now apply IH|].
    unfold bind. destruct (step w) as [[[]|e] w1] eqn:E; [|simpl; eauto].
    apply IH; auto. eapply Hstep; eauto.
  - destruct Hq as [|step q Hstep Hq]; [now apply Exists_nil in Hex|].
    unfold bind. destruct (step w) as [[[]|e] w1] eqn:E; [|simpl; eauto].
    apply Exists_cons in Hex as [Hrej|Hex].
    + destruct (Hrej w Hw) as [e He]. rewrite E in He. discriminate He.
    + apply IH; auto. eapply Hstep; eauto.
Qed.

Section Traces.

Variable ok : call -> Prop.
Hypothesis ok_fs : forall c, is_fs_call c = true -> ok c.

Lemma started_jobs_fs (cs : list call) :
  Forall (fun c => is_fs_call c = true) cs -> started_jobs cs = [].
Proof.
  induction 1 as [|c cs Hc _ IH]; [reflexivity|].
  destruct c; try discriminate Hc; exact IH.
Qed.

Lemma trace_refl (w : world) : run_trace ok [] w w.
Proof. exists []. now rewrite app_nil_r. Qed.

Lemma trace_trans (jobs1 jobs2 : list job) (w1 w2 w3 : world) :
  run_trace ok jobs1 w1 w2 -> run_trace ok jobs2 w2 w3 ->
  run_trace ok (jobs1 ++ jobs2) w1 w3.
Proof.
  intros (a1 & E1 & H1 & <-) (a2 & E2 & H2 & <-). exists (a1 ++ a2).
  rewrite E2, E1, app_assoc. split; [reflexivity|].
  split; [now apply Forall_app|]. unfold started_jobs. now rewrite omap_app.
Qed.

Lemma trace_fs (w w' : world) : fs_calls_only w w' -> run_trace ok [] w w'.
Proof.
  intros (_ & added & E & H). exists added. split; [exact E|].
  split; [|now apply started_jobs_fs].
  eapply Forall_impl; [exact H | exact ok_fs].
Qed.

Lemma trace_same (w w' : world) : calls w' = calls w -> run_trace ok [] w w'.
Proof. intros E. exists []. now rewrite app_nil_r. Qed.

Lemma trace_calls (cs : list call) (w w' : world) :
  calls w' = calls w ++ cs -> Forall ok cs ->
  run_trace ok (started_jobs cs) w w'.
Proof. intros E H. now exists cs. Qed.

(** The trace of a run of [processMedia], when the three backend commands
    it can start are in [ok]. *)
Lemma processMedia_trace (fileManager : FileManager)
    (videoStream audioStream : Readable) (finalOutputPath : string)
    (options : ProcessingOptions)
    (onProgress : option (callback ProcessingProgress)) (w w' : world)
    (r : result unit) :
  (forall c, expected_backend_call (paths_of fileManager) videoStream
               audioStream finalOutputPath options c -> ok c) ->
  processMedia fileManager videoStream audioStream finalOutputPath options
    onProgress w = (r, w') ->
  (run_trace ok [] w w' /\ exists e, r = Throw e) \/
  (run_trace ok [VideoJob; AudioJob] w w' /\ exists e, r = Throw e) \/
  (run_trace ok [VideoJob; AudioJob; CombineJob] w w' /\
   exists w1 wb wc,
     createTemporaryPaths fileManager w
     = (Return (paths_of fileManager), w1) /\
     fs wb = fs w1 /\ ext wb = ext w1 /\
     interleave (ext_schedule (ext w1))
       (data_events videoStream (br_chunks (ext_ffmpeg (ext w1) VideoJob))
        ++ progress_events StageVideo onProgress
             (br_ticks (ext_ffmpeg (ext w1) VideoJob))
        ++ [settle VideoJob (videoPath (paths_of fileManager))
              "Video processing failed: "])
       (data_events audioStream (br_chunks (ext_ffmpeg (ext w1) AudioJob))
        ++ progress_events StageAudio onProgress
             (br_ticks (ext_ffmpeg (ext w1) AudioJob))
        ++ [settle AudioJob (audioPath (paths_of fileManager))
              "Audio processing failed: "])
       wb = (Return tt, wc) /\
     is_Some (fs wc !! videoPath (paths_of fileManager)) /\
     is_Some (fs wc !! audioPath (paths_of fileManager))).
Proof.
  intros Hok H.
  apply processMedia_cases in H
    as [(e & Hc & ->)|(w1 & tried & w2 & cleaned & Hc & Ht & Hcl & ->)].
  { left. split; [|eauto].
    eapply trace_fs, createTemporaryPaths_fs_calls, Hc. }
  assert (T1 : run_trace ok [] w w1)
    by (eapply trace_fs, createTemporaryPaths_fs_calls, Hc).
  assert (T3 : run_trace ok [] w2 w')
    by (eapply trace_fs, cleanupTemporaryFiles_fs_calls, Hcl).
  apply processMedia_try_cases in Ht
    as (cv & ca & wb & r1 & wc & Hwb & Hi & _ & Hcallsc & Hrest).
  destruct Hwb as (Hfsb & _ & _ & Hextb & _ & Hcallsb & Hcv & Hca).
  assert (Tb : run_trace ok [VideoJob; AudioJob] w1 wb).
  { apply (trace_calls _ _ _ Hcallsb). repeat constructor; auto. }
  assert (Tc : run_trace ok [VideoJob; AudioJob] w1 wc).
  { apply (trace_trans _ [] _ _ _ Tb). now apply trace_same. }
  assert (Hthrow : forall e, exists e', match cleaned with
                                   | Return _ => Throw e
                                   | Throw cleanupError => Throw cleanupError
                                   end = @Throw unit e').
  { intros e. destruct cleaned; eauto. }
  destruct Hrest as [(e & -> & -> & ->)|(-> & r2 & wd & Hv & Hrest)].
  { right. left. split; [|apply Hthrow].
    apply (trace_trans [] _ _ _ _ T1).
    now apply (trace_trans _ [] _ _ _ Tc). }
  assert (Td : run_trace ok [VideoJob; AudioJob] w1 wd).
  { apply (trace_trans _ [] _ _ _ Tc).
    eapply trace_fs, verifyTemporaryFiles_fs_calls, Hv. }
  destruct Hrest as [(e & -> & -> & ->)
                    |(-> & cc & we & r3 & wf & Hwe & Ha & _ & Hcallsf & Hrest)].
  { right. left. split; [|apply Hthrow].
    apply (trace_trans [] _ _ _ _ T1).
    now apply (trace_trans _ [] _ _ _ Td). }
  destruct Hwe as (_ & _ & Hcallse & Hcc).
  assert (Tf : run_trace ok [VideoJob; AudioJob; CombineJob] w1 wf).
  { apply (trace_trans [VideoJob; AudioJob] [CombineJob] _ _ _ Td).
    apply (trace_trans [CombineJob] [] _ we).
    - apply (trace_calls _ _ _ Hcallse). repeat constructor; auto.
    - now apply trace_same. }
  right. right. split.
  - apply (trace_trans [] _ _ _ _ T1).
    apply (trace_trans [VideoJob; AudioJob; CombineJob] [] _ w2);
      [|exact T3].
    destruct Hrest as [(e & -> & -> & ->)|(-> & Hout)]; [exact Tf|].
    apply (trace_trans _ [] _ _ _ Tf).
    eapply trace_fs, verifyOutputFile_fs_calls, Hout.
  - exists w1, wb, wc. split; [exact Hc|]. split; [exact Hfsb|].
    split; [exact Hextb|]. split; [exact Hi|].
    now apply verifyTemporaryFiles_Return in Hv.
Qed.

End Traces.

(** X14: the calls of a run of [processMedia], whatever the inputs and
    however the run ends, are calls to the file system and backend commands
    of the expected form: the video transcode reads the video stream and
    writes the video intermediate, the audio transcode reads the audio
    stream and writes the audio intermediate, each with the codec of the
    options or its default; the mux reads the two intermediates, copies both
    tracks and writes the bound output path.  No network call is made and no
    stream is destroyed.  The processes are started in the order video,
    audio, mux: none of them when the workspace cannot be made, all three
    when the run completes. *)
Theorem backend_commands_of_a_run (fileManager : FileManager)
    (videoStream audioStream : Readable) (finalOutputPath : string)
    (options : ProcessingOptions)
    (onProgress : option (callback ProcessingProgress)) (w : world) :
  exists added,
    calls (processMedia fileManager videoStream audioStream finalOutputPath
             options onProgress w).2 = calls w ++ added /\
    Forall (fun c =>
              is_fs_call c = true \/
              expected_backend_call (paths_of fileManager) videoStream
                audioStream finalOutputPath options c) added /\
    (started_jobs added = [] \/
     started_jobs added = [VideoJob; AudioJob] \/
     started_jobs added = [VideoJob; AudioJob; CombineJob]) /\
    ((processMedia fileManager videoStream audioStream finalOutputPath
        options onProgress w).1 = Return tt ->
     started_jobs added = [VideoJob; AudioJob; CombineJob]).
Proof.
  destruct (processMedia _ _ _ _ _ _ w) as [r w'] eqn:E. simpl.
  eapply (processMedia_trace
            (fun c => is_fs_call c = true \/
                      expected_backend_call (paths_of fileManager) videoStream
                        audioStream finalOutputPath options c)) in E;
    [|auto|auto].
  destruct E as [[(added & E & H & Hj) [e ->]]
                |[[(added & E & H & Hj) [e ->]]|[(added & E & H & Hj) _]]];
    exists added; (split; [exact E|]); (split; [exact H|]);
    (split; [tauto|]); try discriminate; auto.
Qed.


(** Unless both transcodes came through and left their files, the run
    rejects and starts no mux. *)
Lemma no_mux_unless_transcodes_came_through (fileManager : FileManager)
    (videoStream audioStream : Readable) (finalOutputPath : string)
    (options : ProcessingOptions)
    (onProgress : option (callback ProcessingProgress)) (w : world) :
  ~ (exists w1 wb wc,
       createTemporaryPaths fileManager w
       = (Return (paths_of fileManager), w1) /\
       fs wb = fs w1 /\ ext wb = ext w1 /\
       interleave (ext_schedule (ext w1))
         (data_events videoStream (br_chunks (ext_ffmpeg (ext w1) VideoJob))
          ++ progress_events StageVideo onProgress
               (br_ticks (ext_ffmpeg (ext w1) VideoJob))
          ++ [settle VideoJob (videoPath (paths_of fileManager))
                "Video processing failed: "])
         (data_events audioStream (br_chunks (ext_ffmpeg (ext w1) AudioJob))
          ++ progress_events StageAudio onProgress
               (br_ticks (ext_ffmpeg (ext w1) AudioJob))
          ++ [settle AudioJob (audioPath (paths_of fileManager))
                "Audio processing failed: "])
         wb = (Return tt, wc) /\
       is_Some (fs wc !! videoPath (paths_of fileManager)) /\
       is_Some (fs wc !! audioPath (paths_of fileManager))) ->
  exists e added,
    (processMedia fileManager videoStream audioStream finalOutputPath
       options onProgress w).1 = Throw e /\
    calls (processMedia fileManager videoStream audioStream finalOutputPath
             options onProgress w).2 = calls w ++ added /\
    CombineJob ∉ started_jobs added.
Proof.
  intros Hnot.
  destruct (processMedia _ _ _ _ _ _ w) as [r w'] eqn:E. simpl.
  eapply (processMedia_trace
            (fun c => is_fs_call c = true \/
                      expected_backend_call (paths_of fileManager) videoStream
                        audioStream finalOutputPath options c)) in E;
    [|auto|auto].
  destruct E as [[(added & E & H & Hj) [e ->]]
                |[[(added & E & H & Hj) [e ->]]|[_ Hyes]]];
    [| |now destruct Hnot];
    exists e, added; (split; [reflexivity|]); (split; [exact E|]);
    rewrite Hj; [apply not_elem_of_nil|].
  rewrite !elem_of_cons. intros [H1|[H1|H1]]; try discriminate H1.
  now apply elem_of_nil in H1.
Qed.

(** X15: when the backend ends the video transcode or the audio transcode
    with an error, [processMedia] rejects, whatever the schedule and
    whatever becomes of the other transcode, and it starts no mux. *)
Theorem failed_transcode_stops_the_run (fileManager : FileManager)
    (videoStream audioStream : Readable) (finalOutputPath : string)
    (options : ProcessingOptions)
    (onProgress : option (callback ProcessingProgress)) (w : world) :
  br_error (ext_ffmpeg (ext w) VideoJob) <> None \/
  br_error (ext_ffmpeg (ext w) AudioJob) <> None ->
  exists e added,
    (processMedia fileManager videoStream audioStream finalOutputPath
       options onProgress w).1 = Throw e /\
    calls (processMedia fileManager videoStream audioStream finalOutputPath
             options onProgress w).2 = calls w ++ added /\
    CombineJob ∉ started_jobs added.
Proof.
  intros Hfail. apply no_mux_unless_transcodes_came_through.
  intros (w1 & wb & wc & Hc & _ & Hextb & Hi & _).
  destruct (createTemporaryPaths_fs_calls _ _ _ _ Hc) as [Hext1 _].
  rewrite Hext1 in *.
  set (I := fun w0 : world => ext w0 = ext w).
  assert (Hkeep : forall s chunks st ticks j outputPath prefix,
            Forall (keeps I)
              (data_events s chunks ++ progress_events st onProgress ticks
               ++ [settle j outputPath prefix])).
  { intros. apply keeps_promise; [auto|].
    apply (keeps_settle I); auto. }
  assert (Hrej : forall j outputPath prefix,
            br_error (ext_ffmpeg (ext w) j) <> None ->
            rejects I (settle j outputPath prefix)).
  { intros j outputPath prefix Hj w0 Hw0. unfold settle. rewrite Hw0.
    destruct (br_error (ext_ffmpeg (ext w) j)); [simpl; eauto | done]. }
  destruct Hfail as [Hfail|Hfail].
  - match type of Hi with
    | interleave ?sch ?p ?q wb = _ =>
        assert (Hp : Forall (keeps I) p) by apply Hkeep;
        assert (Hq : Forall (keeps I) q) by apply Hkeep;
        assert (Hex : Exists (rejects I) p)
          by (apply Exists_app; right; apply Exists_app; right;
              constructor; now apply Hrej);
        destruct (interleave_rejects I sch p q wb Hp Hq Hex Hextb) as [e He]
    end.
    rewrite Hi in He. discriminate He.
  - match type of Hi with
    | interleave ?sch ?p ?q wb = _ =>
        assert (Hp : Forall (keeps I) p) by apply Hkeep;
        assert (Hq : Forall (keeps I) q) by apply Hkeep;
        assert (Hex : Exists (rejects I) q)
          by (apply Exists_app; right; apply Exists_app; right;
              constructor; now apply Hrej);
        destruct (interleave_rejects_r I sch p q wb Hp Hq Hex Hextb)
          as [e He]
    end.
    rewrite Hi in He. discriminate He.
Qed.

Lemma failed_transcode_stops_the_run_witness :
  exists e added,
    (processMedia sample_fileManager
       (plain_stream sample_video_format) (plain_stream sample_audio_format)
       "out/video.mkv" no_processing_options None
       (sample_world ∅ ∅ video_fails)).1 = Throw e /\
    calls (processMedia sample_fileManager
             (plain_stream sample_video_format)
             (plain_stream sample_audio_format)
             "out/video.mkv" no_processing_options None
             (sample_world ∅ ∅ video_fails)).2
    = calls (sample_world ∅ ∅ video_fails) ++ added /\
    CombineJob ∉ started_jobs added.
Proof.
  apply (failed_transcode_stops_the_run sample_fileManager
           (plain_stream sample_video_format)
           (plain_stream sample_audio_format)
           "out/video.mkv" no_processing_options None
           (sample_world ∅ ∅ video_fails)).
  left. discriminate.
Defined.

(** X16: a transcode that the backend reports as finished without its file
    being there is caught.  When the video (or audio) backend run writes no
    file and none was at the path of the intermediate when the run began,
    [processMedia] rejects and starts no mux. *)
Theorem unwritten_intermediate_is_caught (fileManager : FileManager)
    (videoStream audioStream : Readable) (finalOutputPath : string)
    (options : ProcessingOptions)
    (onProgress : option (callback ProcessingProgress)) (w : world) :
  (br_wrote (ext_ffmpeg (ext w) VideoJob) = false /\
   fs w !! videoPath (paths_of fileManager) = None) \/
  (br_wrote (ext_ffmpeg (ext w) AudioJob) = false /\
   fs w !! audioPath (paths_of fileManager) = None) ->
  exists e added,
    (processMedia fileManager videoStream audioStream finalOutputPath
       options onProgress w).1 = Throw e /\
    calls (processMedia fileManager videoStream audioStream finalOutputPath
             options onProgress w).2 = calls w ++ added /\
    CombineJob ∉ started_jobs added.
Proof.
  intros Hnone. apply no_mux_unless_transcodes_came_through.
  intros (w1 & wb & wc & Hc & Hfsb & Hextb & Hi & Hv & Ha).
  destruct (createTemporaryPaths_fs_calls _ _ _ _ Hc) as [Hext1 _].
  rewrite Hext1 in *.
  pose proof (createTemporaryPaths_Return_fs _ _ _ _ Hc) as Hfs1.
  assert (Hne : videoPath (paths_of fileManager)
                <> audioPath (paths_of fileManager)).
  { simpl. intros H. apply path_join_inj in H. discriminate H. }
  set (keep := fun (p : string) (w0 : world) =>
                 ext w0 = ext w /\ fs w0 !! p = None).
  assert (Hsilent : forall j p q prefix,
            br_wrote (ext_ffmpeg (ext w) j) = false ->
            keeps (keep p) (settle j q prefix)).
  { intros j p q prefix Hj w0 r0 w0' E0 [He0 Hp0]. unfold settle in E0.
    rewrite He0, Hj in E0.
    destruct (br_error _); injection E0 as <- <-; now split. }
  assert (Hother : forall j p q prefix, p <> q ->
            keeps (keep p) (settle j q prefix)).
  { intros j p q prefix Hpq w0 r0 w0' E0 [He0 Hp0]. unfold settle in E0.
    destruct (br_error (ext_ffmpeg (ext w0) j)),
             (br_wrote (ext_ffmpeg (ext w0) j)); injection E0 as <- <-;
      split; simpl; auto; rewrite ?lookup_insert_ne by congruence; auto. }
  assert (Hstart : forall p, fs w !! p = None ->
                             p <> baseTempDir fileManager -> keep p wb).
  { intros p Hp Hb. split; [exact Hextb|].
    rewrite Hfsb, Hfs1, lookup_insert_ne by congruence. exact Hp. }
  destruct Hnone as [[Hw Hp]|[Hw Hp]].
  - assert (Hend : keep (videoPath (paths_of fileManager)) wc).
    { eapply (keeps_interleave (keep (videoPath (paths_of fileManager))));
        [| |exact Hi|].
      - apply keeps_promise; [now intros es w0 [? ?]|]. now apply Hsilent.
      - apply keeps_promise; [now intros es w0 [? ?]|]. now apply Hother.
      - apply Hstart; [exact Hp | apply path_join_longer]. }
    destruct Hend as [_ Hend]. rewrite Hend in Hv. now destruct Hv.
  - assert (Hend : keep (audioPath (paths_of fileManager)) wc).
    { eapply (keeps_interleave (keep (audioPath (paths_of fileManager))));
        [| |exact Hi|].
      - apply keeps_promise; [now intros es w0 [? ?]|]. now apply Hother.
      - apply keeps_promise; [now intros es w0 [? ?]|]. now apply Hsilent.
      - apply Hstart; [exact Hp | apply path_join_longer]. }
    destruct Hend as [_ Hend]. rewrite Hend in Ha. now destruct Ha.
Qed.

Lemma unwritten_intermediate_is_caught_witness :
  exists e added,
    (processMedia sample_fileManager
       (plain_stream sample_video_format) (plain_stream sample_audio_format)
       "out/video.mkv" no_processing_options None
       (sample_world ∅ ∅
          (sample_externals
             {| br_chunks := [1000]; br_ticks := []; br_wrote := false;
                br_error := None |}
             (completes [200]) (completes []) []))).1 = Throw e /\
    calls (processMedia sample_fileManager
             (plain_stream sample_video_format)
             (plain_stream sample_audio_format)
             "out/video.mkv" no_processing_options None
             (sample_world ∅ ∅
                (sample_externals
                   {| br_chunks := [1000]; br_ticks := []; br_wrote := false;
                      br_error := None |}
                   (completes [200]) (completes []) []))).2
    = [] ++ added /\
    CombineJob ∉ started_jobs added.
Proof.
  apply (unwritten_intermediate_is_caught sample_fileManager
           (plain_stream sample_video_format)
           (plain_stream sample_audio_format)
           "out/video.mkv" no_processing_options None
           (sample_world ∅ ∅
              (sample_externals
                 {| br_chunks := [1000]; br_ticks := []; br_wrote := false;
                    br_error := None |}
                 (completes [200]) (completes []) []))).
  left. split; reflexivity.
Defined.

Lemma try_catch_wraps {A} (m : M A) (prefix : string) (w w' : world)
    (e : jsError) :
  try_catch m (fun error =>
                 throw (Error (prefix +:+ error_message error))) w
  = (Throw e, w') ->
  error_starts_with prefix e.
Proof.
  unfold try_catch, throw. destruct (m w) as [[a|e0] w0]; [discriminate|].
  intros [= <- _]. eexists. reflexivity.
Qed.

(** X17: however a run of [processMedia] ends, it leaves no workspace
    behind, unless the workspace could not be made in the first place or
    the cleanup itself failed: when the outcome is neither of these two
    errors (the run completed, or it failed in a transcode, in the mux or
    in a check), the root directory and both intermediate files are
    gone. *)
Theorem workspace_is_removed_unless_cleanup_fails (fileManager : FileManager)
    (videoStream audioStream : Readable) (finalOutputPath : string)
    (options : ProcessingOptions)
    (onProgress : option (callback ProcessingProgress)) (w w' : world)
    (r : result unit) :
  processMedia fileManager videoStream audioStream finalOutputPath options
    onProgress w = (r, w') ->
  (exists e, r = Throw e /\
             error_starts_with "Failed to create temporary paths: " e) \/
  (exists errors, r = Throw (CleanupError errors)) \/
  (fs w' !! tempDir (paths_of fileManager) = None /\
   fs w' !! videoPath (paths_of fileManager) = None /\
   fs w' !! audioPath (paths_of fileManager) = None).
Proof.
  intros H.
  apply processMedia_cases in H
    as [(e & Hc & ->)|(w1 & tried & w2 & cleaned & Hc & Ht & Hcl & ->)].
  - left. exists e. split; [reflexivity|].
    eapply try_catch_wraps. exact Hc.
  - right. destruct cleaned as [[]|ce].
    + right. apply cleanup_Return_inv in Hcl. tauto.
    + left. apply cleanup_Throw_inv in Hcl as (errors & -> & _). eauto.
Qed.

Lemma workspace_is_removed_unless_cleanup_fails_witness :
  fs (processMedia sample_fileManager
        (plain_stream sample_video_format) (plain_stream sample_audio_format)
        "out/video.mkv" no_processing_options None
        (sample_world ∅ ∅ video_fails)).2 !! tempDir sample_paths = None.
Proof.
  destruct (workspace_is_removed_unless_cleanup_fails sample_fileManager
              (plain_stream sample_video_format)
              (plain_stream sample_audio_format)
              "out/video.mkv" no_processing_options None
              (sample_world ∅ ∅ video_fails)
              (processMedia sample_fileManager
                 (plain_stream sample_video_format)
                 (plain_stream sample_audio_format)
                 "out/video.mkv" no_processing_options None
                 (sample_world ∅ ∅ video_fails)).2
              (Throw (Error "Video processing failed: Conversion failed!")))
    as [(e & He & rest & Hr)|[(errors & He)|(H & _)]].
  - vm_compute. reflexivity.
  - subst e. injection He as He. vm_compute in He. discriminate He.
  - discriminate He.
  - exact H.
Defined.

(** ** The downloader *)

(** How [downloadVideo] goes: the video information, the streams, the
    announcement of the processing state and [processMedia] follow one
    another, each only when the one before came through; an error of any of
    them is wrapped. *)
Lemma downloadVideo_cases (this : YoutubeDownloader) (url outputPath : string)
    (options : DownloadOptions)
    (onProgress : option (callback DownloaderProgress)) (w w' : world)
    (r : result unit) :
  downloadVideo this url outputPath options onProgress w = (r, w') ->
  (exists e, getVideoInfo url w = (Throw e, w') /\
             r = Throw (download_failed e)) \/
  (exists info wa,
     getVideoInfo url w = (Return info, wa) /\
     ((exists e,
         createStreams url options (Some (downloading_callback onProgress)) wa
         = (Throw e, w') /\
         r = Throw (download_failed e)) \/
      (exists streams wb wc r2,
         createStreams url options (Some (downloading_callback onProgress)) wa
         = (Return streams, wb) /\
         invoke onProgress {| state := StateProcessing;
                              downloadProgress := None |} wb
         = (Return tt, wc) /\
         processMedia (fileManager this) (videoStream streams)
           (audioStream streams) outputPath (processing_options options)
           None wc = (r2, w') /\
         r = match r2 with
             | Return _ => Return tt
             | Throw e => Throw (download_failed e)
             end))).
Proof.
  intros H. unfold downloadVideo, try_catch in H. unfold bind at 1 in H.
  destruct (getVideoInfo url w) as [[info|e] wa] eqn:Ei.
  2:{ injection H as <- <-. left. now exists e. }
  right. exists info, wa. split; [reflexivity|].
  unfold bind at 1 in H.
  change (fun downloadProgress : DownloadProgress =>
            match onProgress with
            | Some cb => cb {| state := StateDownloading;
                               downloadProgress :=
                                 Some (percentage downloadProgress) |}
            | None => []
            end) with (downloading_callback onProgress) in H.
  destruct (createStreams url options _ wa) as [[streams|e] wb] eqn:Es.
  2:{ injection H as <- <-. left. now exists e. }
  right. unfold bind at 1 in H.
  destruct (invoke onProgress _ wb) as [[[]|e] wc] eqn:Ev.
  2:{ destruct onProgress; discriminate Ev. }
  change {| po_videoCodec := videoCodec options;
            po_audioCodec := audioCodec options;
            po_outputFormat := outputFormat options;
            po_videoBitrate := videoBitrate options;
            po_audioBitrate := audioBitrate options;
            po_fps := fps options |} with (processing_options options) in H.
  destruct (processMedia _ _ _ _ _ _ wc) as [[[]|e] w2] eqn:Ep;
    injection H as <- <-; exists streams, wb, wc; eexists;
    (split; [reflexivity|]); (split; [exact Ev|]);
    (split; [exact Ep | reflexivity]).
Qed.

(** *** What a failed download says *)














(** X19: for a URL that [validateUrl] does not accept, [downloadVideo]
    rejects at once and does nothing else: no call is made, no event
    delivered and no workspace created; the message tells that the URL is
    invalid, or empty. *)
Theorem downloadVideo_refuses_invalid_url (this : YoutubeDownloader)
    (url outputPath : string) (options : DownloadOptions)
    (onProgress : option (callback DownloaderProgress)) (w : world) :
  validateUrl url <> Return true ->
  exists reason,
    downloadVideo this url outputPath options onProgress w
    = (Throw (Error ("Download failed: Failed to get video info: "
                     +:+ reason)), w) /\
    (reason = "Invalid YouTube URL provided" \/
     reason = "URL cannot be empty or undefined").
Proof.
  intros Hurl. unfold downloadVideo, getVideoInfo, try_catch, bind, lift,
    throw.
  destruct url as [|c url].
  - exists "URL cannot be empty or undefined". split; [reflexivity | now right].
  - unfold validateUrl in *.
    destruct (Regex.test youtubeRegex (String c url)); [done|].
    exists "Invalid YouTube URL provided". split; [reflexivity | now left].
Qed.

Lemma downloadVideo_refuses_invalid_url_witness :
  exists reason,
    downloadVideo sample_downloader "https://invalid-url.com" "out/video.mkv"
      no_options None (sample_world ∅ ∅ sample_run)
    = (Throw (Error ("Download failed: Failed to get video info: "
                     +:+ reason)), sample_world ∅ ∅ sample_run) /\
    (reason = "Invalid YouTube URL provided" \/
     reason = "URL cannot be empty or undefined").
Proof.
  apply (downloadVideo_refuses_invalid_url sample_downloader
           "https://invalid-url.com" "out/video.mkv" no_options None
           (sample_world ∅ ∅ sample_run)).
  discriminate.
Defined.

(** *** What the sink sees *)

Lemma keeps_data_events_with (I : world -> Prop)
    (ok_events : list progressEvent -> Prop) (s : Readable)
    (chunks : list Z) (f : callback DownloadProgress) :
  (forall es w, ok_events es -> I w -> I (add_sink es w)) ->
  rd_onProgress s = Some f ->
  (forall p, ok_events (f p)) ->
  Forall (keeps I) (data_events s chunks).
Proof.
  intros I_sink Hcb Hf. revert s Hcb.
  induction chunks as [|c chunks IH]; intros s Hcb; simpl; constructor;
    [|now apply IH].
  apply (keeps_invoke I ok_events I_sink). simpl. rewrite Hcb.
  intros f' [= <-]. apply Hf.
Qed.

(** X20: the sink of [downloadVideo] is told of the processing state once,
    and before it is told of any download progress: what it receives
    during a run is nothing at all (the run failed before the streams were
    there), or the processing event followed by downloading events only.
    A run that completes has delivered the processing event. *)
Theorem processing_is_announced_first (this : YoutubeDownloader)
    (url outputPath : string) (options : DownloadOptions) (w w' : world)
    (r : result unit) :
  downloadVideo this url outputPath options (Some record_downloader) w
  = (r, w') ->
  (sink w' = sink w /\ r <> Return tt) \/
  exists rest,
    sink w' = sink w ++ EvDownloader {| state := StateProcessing;
                                        downloadProgress := None |} :: rest /\
    Forall is_downloading rest.
Proof.
  intros H.
  apply downloadVideo_cases in H
    as [(e0 & Hi & ->)|(info & wa & Hi & [(e0 & Hs & ->)|Hrest])].
  - left. split; [|discriminate].
    destruct (getVideoInfo_network_only url _ _ _ Hi) as (Hsame & _).
    unfold same_but_calls in Hsame. tauto.
  - left. split; [|discriminate].
    destruct (getVideoInfo_network_only url _ _ _ Hi) as (Ha & _).
    destruct (createStreams_network_only url _ _ _ _ _ Hs) as (Hb & _).
    unfold same_but_calls in *.
    destruct Ha as (_ & _ & _ & _ & <- & _). tauto.
  - destruct Hrest as (streams & wb & wc & r2 & Hs & [= <-] & Hp & _).
    right.
    destruct (getVideoInfo_network_only url _ _ _ Hi)
      as ((_ & _ & _ & _ & Hsa & _) & _).
    destruct (createStreams_network_only url _ _ _ _ _ Hs)
      as ((_ & _ & _ & _ & Hsb & _) & _).
    apply createStreams_Return_streams in Hs as (Hcv & Hca & _).
    set (I := fun w0 : world =>
                exists rest,
                  sink w0 = sink w ++
                    EvDownloader {| state := StateProcessing;
                                    downloadProgress := None |} :: rest /\
                  Forall is_downloading rest).
    assert (I_sink : forall es w0, Forall is_downloading es -> I w0 ->
                                   I (add_sink es w0)).
    { intros es w0 Hes (rest & E & Hrest). exists (rest ++ es). simpl.
      rewrite E, <- app_assoc. split; [reflexivity | now apply Forall_app]. }
    assert (Hcb : forall p, Forall is_downloading
                              (downloading_callback (Some record_downloader)
                                 p)).
    { intros p. repeat constructor. eexists. reflexivity. }
    assert (HI : I (add_sink
                      (record_downloader
                         {| state := StateProcessing;
                            downloadProgress := None |}) wb)).
    { exists []. simpl. rewrite Hsb, Hsa. now split. }
    revert Hp HI.
    apply (keeps_processMedia I (fun _ => True) (Forall is_downloading));
      auto.
    + discriminate.
    + intros w0 _.
      eapply (keeps_data_events_with I (Forall is_downloading)); eauto.
    + intros w0 _.
      eapply (keeps_data_events_with I (Forall is_downloading)); eauto.
Qed.

Lemma processing_is_announced_first_witness :
  exists rest,
    sink (downloadVideo sample_downloader sample_url "out/video.mkv"
            no_options (Some record_downloader)
            (sample_world ∅ ∅ sample_run)).2
    = sink (sample_world ∅ ∅ sample_run)
      ++ EvDownloader {| state := StateProcessing;
                         downloadProgress := None |} :: rest /\
    Forall is_downloading rest.
Proof.
  destruct (processing_is_announced_first sample_downloader sample_url
              "out/video.mkv" no_options (sample_world ∅ ∅ sample_run)
              (downloadVideo sample_downloader sample_url "out/video.mkv"
                 no_options (Some record_downloader)
                 (sample_world ∅ ∅ sample_run)).2
              (Return tt)) as [[_ H]|H].
  - vm_compute. reflexivity.
  - now destruct H.
  - exact H.
Defined.

(** *** What a run leaves on the disk *)

Lemma createTemporaryPaths_fs_frame (this : FileManager) (w w' : world)
    (r : result TemporaryPaths) (q : string) :
  createTemporaryPaths this w = (r, w') ->
  q <> baseTempDir this -> fs w' !! q = fs w !! q.
Proof.
  unfold createTemporaryPaths, try_catch, bind at 1.
  unfold fs_mkdir_recursive, bind at 1, log, modify. simpl.
  destruct (fs w !! baseTempDir this) as [[|]|] eqn:Eb.
  - now intros [= _ <-].
  - unfold bind. rewrite existsSync_run. simpl. rewrite Eb.
    rewrite bool_decide_eq_true_2 by eauto. simpl. now intros [= _ <-].
  - case_bool_decide as Hd; [now intros [= _ <-]|].
    unfold bind. rewrite existsSync_run. simpl. rewrite lookup_insert_eq.
    rewrite bool_decide_eq_true_2 by eauto. simpl.
    intros [= _ <-] Hq. simpl. now rewrite lookup_insert_ne.
Qed.

Lemma settle_keeps_lookup (j : job) (outputPath prefix q : string)
    (v : option node) :
  outputPath <> q ->
  keeps (fun w => fs w !! q = v) (settle j outputPath prefix).
Proof.
  intros Hq w r w'. unfold settle.
  destruct (br_error (ext_ffmpeg (ext w) j)),
           (br_wrote (ext_ffmpeg (ext w) j));
    intros [= <- <-]; simpl; rewrite ?lookup_insert_ne by exact Hq; auto.
Qed.

Lemma removes_nothing_lookup (w w' : world) (q : string) :
  removes (fun _ => False) w w' -> fs w' !! q = fs w !! q.
Proof. intros H. eapply removes_outside; [exact H | tauto]. Qed.

(** [processMedia] changes nothing on the disk but the workspace and the
    output path. *)
Lemma processMedia_fs_frame (fileManager : FileManager)
    (videoStream audioStream : Readable) (finalOutputPath : string)
    (options : ProcessingOptions)
    (onProgress : option (callback ProcessingProgress)) (w w' : world)
    (r : result unit) (q : string) :
  within (baseTempDir fileManager) q = false ->
  q <> finalOutputPath ->
  processMedia fileManager videoStream audioStream finalOutputPath options
    onProgress w = (r, w') ->
  fs w' !! q = fs w !! q.
Proof.
  intros Hq Hout H.
  assert (Hbase : q <> baseTempDir fileManager).
  { intros ->. now rewrite within_self in Hq. }
  assert (Hin : forall name, path_join (baseTempDir fileManager) name <> q).
  { intros name <-. now rewrite within_path_join in Hq. }
  apply processMedia_cases in H
    as [(e & Hc & _)|(w1 & tried & w2 & cleaned & Hc & Ht & Hcl & _)].
  { eapply createTemporaryPaths_fs_frame; eauto. }
  transitivity (fs w2 !! q).
  { eapply removes_outside; [eapply op_cleanupTemporaryFiles, Hcl|].
    now apply outside_not_target. }
  rewrite <- (createTemporaryPaths_fs_frame _ _ _ _ q Hc Hbase).
  apply processMedia_try_cases in Ht
    as (cv & ca & wb & r1 & wc & Hwb & Hi & _ & _ & Hrest).
  destruct Hwb as (Hfsb & _).
  assert (Kc : fs wc !! q = fs w1 !! q).
  { eapply (keeps_interleave (fun w0 => fs w0 !! q = fs w1 !! q));
      [| |exact Hi|now rewrite Hfsb];
      (apply keeps_promise; [auto | apply settle_keeps_lookup, Hin]). }
  destruct Hrest as [(e1 & _ & _ & ->)|(_ & r2 & wd & Hv & Hrest)];
    [exact Kc|].
  assert (Kd : fs wd !! q = fs w1 !! q).
  { now rewrite (removes_nothing_lookup _ _ _
                   (verify_each_removes _ _ _ _ Hv)). }
  destruct Hrest as [(e1 & _ & _ & ->)
                    |(_ & cc & we & r3 & wf & Hwe & Ha & _ & _ & Hrest)];
    [exact Kd|].
  destruct Hwe as (Hfse & _).
  assert (Kf : fs wf !! q = fs w1 !! q).
  { eapply (keeps_await (fun w0 => fs w0 !! q = fs w1 !! q));
      [|exact Ha|now rewrite Hfse].
    apply keeps_mux_promise; [auto|]. apply settle_keeps_lookup. congruence. }
  destruct Hrest as [(e1 & _ & _ & ->)|(_ & Ho)]; [exact Kf|].
  now rewrite (removes_nothing_lookup _ _ _
                 (verifyOutputFile_removes _ _ _ _ Ho)).
Qed.

(** X21: on a disk where the parent directory of the workspace root is
    there, whatever [downloadVideo] does and however it ends, it changes
    nothing but the output path and the workspace: a path that is neither
    the output path, nor the root of the workspace, nor below that root, is
    afterwards what it was before.  (Paths are the strings that the code
    passes on; two spellings of one file are two paths here.) *)
Theorem download_touches_only_workspace_and_output
    (this : YoutubeDownloader) (url outputPath : string)
    (options : DownloadOptions)
    (onProgress : option (callback DownloaderProgress)) (w : world)
    (q : string) :
  fs w !! path_dirname (baseTempDir (fileManager this)) = Some Dir ->
  within (baseTempDir (fileManager this)) q = false ->
  q <> outputPath ->
  fs (downloadVideo this url outputPath options onProgress w).2 !! q
  = fs w !! q.
Proof.
  intros _ Hq Hout.
  destruct (downloadVideo this url outputPath options onProgress w)
    as [r w'] eqn:H. simpl.
  assert (Hinfo : forall w0 r0 w0', getVideoInfo url w0 = (r0, w0') ->
                                    fs w0' = fs w0).
  { intros w0 r0 w0' E.
    destruct (getVideoInfo_network_only url _ _ _ E) as ((E' & _) & _).
    exact E'. }
  assert (Hstreams : forall cb w0 r0 w0',
            createStreams url options cb w0 = (r0, w0') -> fs w0' = fs w0).
  { intros cb w0 r0 w0' E.
    destruct (createStreams_network_only url _ _ _ _ _ E) as ((E' & _) & _).
    exact E'. }
  apply downloadVideo_cases in H
    as [(e0 & Hi & _)|(info & wa & Hi & [(e0 & Hs & _)|Hrest])].
  - now rewrite (Hinfo _ _ _ Hi).
  - now rewrite (Hstreams _ _ _ _ Hs), (Hinfo _ _ _ Hi).
  - destruct Hrest as (streams & wb & wc & r2 & Hs & Hv & Hp & _).
    rewrite (processMedia_fs_frame _ _ _ _ _ _ _ _ _ q Hq Hout Hp).
    assert (Hc : fs wc = fs wb)
      by (destruct onProgress; now injection Hv as <-).
    now rewrite Hc, (Hstreams _ _ _ _ Hs), (Hinfo _ _ _ Hi).
Qed.

Lemma download_touches_only_workspace_and_output_witness :
  fs (downloadVideo sample_downloader sample_url "out/first.mkv" no_options
        None (sample_world (<["/tmp" := Dir]> sample_files) ∅ sample_run)).2
    !! "out/video.mkv"
  = fs (sample_world (<["/tmp" := Dir]> sample_files) ∅ sample_run)
      !! "out/video.mkv".
Proof.
  apply (download_touches_only_workspace_and_output sample_downloader
           sample_url "out/first.mkv" no_options None
           (sample_world (<["/tmp" := Dir]> sample_files) ∅ sample_run)
           "out/video.mkv").
  - vm_compute. reflexivity.
  - reflexivity.
  - discriminate.
Defined.

(** X22: a download that completes, with an output path outside the
    workspace.  The output file is there; the root of the workspace and
    both intermediate files are gone; none of the three backend processes
    is left; and the calls that were made are, in this order, the two
    metadata calls [getBasicInfo] and [getInfo], the opening of the video
    and of the audio stream, and then calls to the file system and the
    three backend commands, the video transcode, the audio transcode and
    the mux. *)
Theorem completed_download (this : YoutubeDownloader)
    (url outputPath : string) (options : DownloadOptions)
    (onProgress : option (callback DownloaderProgress)) (w w' : world) :
  within (baseTempDir (fileManager this)) outputPath = false ->
  downloadVideo this url outputPath options onProgress w = (Return tt, w') ->
  is_Some (fs w' !! outputPath) /\
  (fs w' !! tempDir (paths_of (fileManager this)) = None /\
   fs w' !! videoPath (paths_of (fileManager this)) = None /\
   fs w' !! audioPath (paths_of (fileManager this)) = None) /\
  ((VideoJob ∉ running w') /\ (AudioJob ∉ running w') /\
   (CombineJob ∉ running w')) /\
  exists videoItag audioItag added,
    calls w' = calls w ++ [CallGetBasicInfo url; CallGetInfo url;
                           CallYtdl url videoItag; CallYtdl url audioItag]
               ++ added /\
    Forall (fun c => is_network_call c = false) added /\
    started_jobs added = [VideoJob; AudioJob; CombineJob].
Proof.
  intros Hout H.
  destruct (downloadVideo_success _ _ _ _ _ _ _ Hout H)
    as (Hfile & Hd & Hv & Ha).
  split; [exact Hfile|]. split; [auto|].
  apply downloadVideo_cases in H
    as [(e0 & _ & He)|(info & wa & Hi & [(e0 & _ & He)|Hrest])];
    [discriminate He | discriminate He|].
  destruct Hrest as (streams & wb & wc & r2 & Hs & Hev & Hp & He).
  destruct r2 as [[]|e]; [|discriminate He].
  split; [eapply processMedia_Return_no_process, Hp|].
  apply getVideoInfo_Return_calls in Hi.
  apply createStreams_Return_streams in Hs as (_ & _ & _ & _ & _ & _ & Hs).
  assert (Hc : calls wc = calls wb)
    by (destruct onProgress; now injection Hev as <-).
  eapply (processMedia_trace
            (fun c => is_fs_call c = true \/
                      expected_backend_call (paths_of (fileManager this))
                        (videoStream streams) (audioStream streams)
                        outputPath (processing_options options) c)) in Hp;
    [|auto|auto].
  destruct Hp as [[_ [e He']]|[[_ [e He']]|[(added & E & Hok & Hj) _]]];
    [discriminate He' | discriminate He'|].
  exists (rd_itag (videoStream streams)), (rd_itag (audioStream streams)),
    added.
  split; [|split; [|exact Hj]].
  - rewrite E, Hc, Hs, Hi, <- !app_assoc. reflexivity.
  - eapply Forall_impl; [exact Hok|]. intros c [Hc'|Hc'].
    + destruct c; try discriminate Hc'; reflexivity.
    + destruct c; try done.
Qed.

Lemma completed_download_witness :
  is_Some (fs first_run.2 !! "out/first.mkv") /\
  fs first_run.2 !! tempDir sample_paths = None.
Proof.
  destruct (completed_download sample_downloader sample_url "out/first.mkv"
              no_options None (sample_world ∅ ∅ sample_run) first_run.2)
    as (H1 & (H2 & _) & _).
  - reflexivity.
  - vm_compute. reflexivity.
  - split; [exact H1 | exact H2].
Defined.

(** ** The output directory *)

(** [path.dirname] on the examples of Node's documentation and on the
    corner cases of the scan. *)
Example path_dirname_examples :
  path_dirname "/foo/bar/baz/asdf/quux" = "/foo/bar/baz/asdf" /\
  path_dirname "out/video.mkv" = "out" /\
  path_dirname "video.mkv" = "." /\
  path_dirname "/video.mkv" = "/" /\
  path_dirname "out/sub/" = "out" /\
  path_dirname "//video.mkv" = "//" /\
  path_dirname EmptyString = ".".
Proof. repeat split. Qed.

Lemma list_ascii_of_append (a b : string) :
  list_ascii_of_string (a +:+ b)
  = list_ascii_of_string a ++ list_ascii_of_string b.
Proof.
  induction a as [|c a IH]; [reflexivity|].
  change (String c a +:+ b) with (String c (a +:+ b)). simpl. now rewrite IH.
Qed.

Lemma no_slash_chars (name : string) :
  no_slash name = true ->
  Forall (fun c => (c =? "/")%char = false) (list_ascii_of_string name).
Proof.
  induction name as [|c name IH]; simpl; [constructor|].
  intros H. apply andb_true_iff in H as [Hc Hn].
  constructor; [now apply negb_true_iff | now apply IH].
Qed.

Lemma scan_dirname_component (component before : list ascii) :
  component <> [] ->
  Forall (fun c => (c =? "/")%char = false) component ->
  forall matchedSlash,
    scan_dirname (component ++ "/"%char :: before) matchedSlash
    = Some (length before).
Proof.
  intros Hne Hc. induction Hc as [|c l Hc Hl IH]; [done|].
  intros matchedSlash. simpl. rewrite Hc.
  destruct l as [|c' l]; [reflexivity|]. now apply IH.
Qed.

(** The directory of a file directly below [dir] is [dir]. *)
Lemma path_dirname_path_join (dir name : string) :
  dir <> EmptyString -> dir <> "/" -> is_file_name name ->
  path_dirname (path_join dir name) = dir.
Proof.
  intros Hdir Hroot [Hname Hslash].
  destruct dir as [|c d]; [done|].
  unfold path_join.
  change (String c d +:+ "/" +:+ name) with (String c (d +:+ "/" +:+ name)).
  unfold path_dirname.
  rewrite list_ascii_of_append.
  change (list_ascii_of_string ("/" +:+ name))
    with ("/"%char :: list_ascii_of_string name).
  rewrite rev_app_distr. simpl rev. rewrite <- app_assoc. simpl app.
  rewrite scan_dirname_component.
  - rewrite length_rev.
    replace (((c =? "/")%char && (length (list_ascii_of_string d) =? 0)%nat))
      with false.
    + rewrite take_app_length. now rewrite string_of_list_ascii_of_string.
    + symmetry. apply andb_false_iff.
      destruct (Ascii.eqb_spec c "/") as [->|]; [right|now left].
      destruct d; [done | reflexivity].
  - destruct name; [done|]. simpl. intros H.
    now apply app_eq_nil in H as [_ H].
  - apply Forall_rev. now apply no_slash_chars.
Qed.

(** X23: [prepareOutputPath] for an output file directly below a directory
    [dir], on a disk where the parent directory of [dir] is there.  It
    resolves exactly when [dir] is a directory already or can be made; it
    then returns the paths of the workspace unchanged, with the output path
    added, and [dir] is a directory; it never creates the output file
    itself, and it changes no other path.  Otherwise it rejects with a
    plain error that starts with ["Failed to prepare output path: "], and
    the disk is as it was. *)
Theorem prepareOutputPath_makes_the_directory (dir name : string)
    (tempPaths : TemporaryPaths) (w : world) :
  dir <> EmptyString -> dir <> "/" -> is_file_name name ->
  fs w !! path_dirname dir = Some Dir ->
  ((prepareOutputPath (path_join dir name) tempPaths w).1
   = Return {| pp_tempDir := tempDir tempPaths;
               pp_videoPath := videoPath tempPaths;
               pp_audioPath := audioPath tempPaths;
               pp_outputPath := path_join dir name |} <->
   fs w !! dir = Some Dir \/ (fs w !! dir = None /\ dir ∉ denied w)) /\
  (fs w !! dir = Some Dir \/ (fs w !! dir = None /\ dir ∉ denied w) ->
   fs (prepareOutputPath (path_join dir name) tempPaths w).2
   = <[dir := Dir]> (fs w)) /\
  (~ (fs w !! dir = Some Dir \/ (fs w !! dir = None /\ dir ∉ denied w)) ->
   (exists e,
      (prepareOutputPath (path_join dir name) tempPaths w).1 = Throw e /\
      error_starts_with "Failed to prepare output path: " e) /\
   fs (prepareOutputPath (path_join dir name) tempPaths w).2 = fs w) /\
  fs (prepareOutputPath (path_join dir name) tempPaths w).2
    !! path_join dir name = fs w !! path_join dir name.
Proof.
  intros Hdir Hroot Hname _.
  unfold prepareOutputPath, try_catch, bind.
  rewrite (path_dirname_path_join dir name Hdir Hroot Hname).
  unfold fs_mkdir_recursive, bind, log, modify, throw, ret. simpl.
  destruct (fs w !! dir) as [[|]|] eqn:Ed.
  - simpl. split; [|split; [|split]]; try reflexivity.
    + split; [discriminate | intros [H|[H _]]; discriminate H].
    + intros [H|[H _]]; discriminate H.
    + intros _. split; [|reflexivity]. eexists. split; [reflexivity|].
      eexists. reflexivity.
  - simpl. split; [|split; [|split]]; try reflexivity.
    + split; [now left | reflexivity].
    + intros _. symmetry. now apply insert_id.
    + intros H. destruct H. now left.
  - case_bool_decide as Hd; simpl.
    + split; [|split; [|split]]; try reflexivity.
      * split; [discriminate | intros [H|[_ H]]; [discriminate H | done]].
      * intros [H|[_ H]]; [discriminate H | done].
      * intros _. split; [|reflexivity]. eexists. split; [reflexivity|].
        eexists. reflexivity.
    + split; [|split; [|split]]; try reflexivity.
      * split; [now right | reflexivity].
      * intros H. destruct H. now right.
      * apply lookup_insert_ne. intros H. symmetry in H.
        now apply path_join_longer in H.
Qed.

Lemma prepareOutputPath_makes_the_directory_witness :
  fs (prepareOutputPath (path_join "/tmp/out" "video.mkv") sample_paths
        (sample_world {[ "/tmp" := Dir ]} ∅ quiet_externals)).2
  = <["/tmp/out" := Dir]>
      (fs (sample_world {[ "/tmp" := Dir ]} ∅ quiet_externals)).
Proof.
  apply (prepareOutputPath_makes_the_directory "/tmp/out" "video.mkv"
           sample_paths (sample_world {[ "/tmp" := Dir ]} ∅ quiet_externals)).
  - discriminate.
  - discriminate.
  - split; [discriminate | reflexivity].
  - vm_compute. reflexivity.
  - right. split; [vm_compute; reflexivity|]. apply not_elem_of_empty.
Defined.

(** ** The progress bar of the client *)

Lemma App_ticks_stopped (n : nat) (st : App.state) :
  App.interval st = false -> App.ticks n st = st.
Proof.
  intros H. induction n as [|n IH]; [reflexivity|].
  simpl. unfold App.tick at 1. now rewrite H.
Qed.

Lemma App_ticks_running (n : nat) (k : Z) :
  0 <= k -> k + Z.of_nat n <= 10 ->
  App.ticks n {| App.downloadStatus := App.downloading;
                 App.downloadProgress := 10 * k; App.interval := true |}
  = {| App.downloadStatus := App.downloading;
       App.downloadProgress := 10 * (k + Z.of_nat n);
       App.interval := true |}.
Proof.
  revert k. induction n as [|n IH]; intros k Hk Hn.
  - simpl. do 2 f_equal. lia.
  - simpl. unfold App.tick at 1. simpl.
    destruct (Z.leb_spec 100 (10 * k)) as [H|H]; [lia|].
    replace (10 * k + 10) with (10 * (k + 1)) by lia.
    rewrite IH by lia. do 2 f_equal. lia.
Qed.

Lemma App_ticks_add (a b : nat) (st : App.state) :
  App.ticks (a + b) st = App.ticks b (App.ticks a st).
Proof.
  revert st. induction a as [|a IH]; intros st; [reflexivity|].
  simpl. apply IH.
Qed.

Lemma App_ticks_past (a m : nat) :
  Z.of_nat a = 10 ->
  App.ticks (a + S m)
    {| App.downloadStatus := App.downloading;
       App.downloadProgress := 10 * 0; App.interval := true |}
  = {| App.downloadStatus := App.completed;
       App.downloadProgress := 100; App.interval := false |}.
Proof.
  intros Ha. rewrite App_ticks_add, App_ticks_running by lia.
  cbn [App.ticks]. unfold App.tick at 1.
  cbn [App.interval App.downloadProgress].
  destruct (Z.leb_spec 100 (10 * (0 + Z.of_nat a))) as [_|H]; [|lia].
  now apply App_ticks_stopped.
Qed.

(** X24: the progress that the page shows is driven by its own timer.
    After [startDownload], with no timer of an earlier download still set,
    the [n]-th firing of the timer finds the progress at [10 * n] percent,
    up to 100; the status turns to [completed] at the eleventh firing, one
    firing after the bar has reached 100, and the timer is cleared then. *)
Theorem simulated_progress (st : App.state) (n : nat) :
  App.interval st = false ->
  App.downloadProgress (App.ticks n (App.startDownload st))
  = Z.min (10 * Z.of_nat n) 100 /\
  (App.downloadStatus (App.ticks n (App.startDownload st)) = App.completed
   <-> (11 <= n)%nat) /\
  (App.downloadStatus (App.ticks n (App.startDownload st)) = App.downloading
   <-> (n <= 10)%nat) /\
  (App.interval (App.ticks n (App.startDownload st)) = true
   <-> (n <= 10)%nat).
Proof.
  intros _.
  assert (Hs : App.startDownload st
               = {| App.downloadStatus := App.downloading;
                    App.downloadProgress := 10 * 0;
                    App.interval := true |}) by reflexivity.
  rewrite Hs. clear Hs.
  destruct (le_lt_dec n 10) as [Hn|Hn].
  - rewrite !App_ticks_running by lia.
    cbn [App.downloadProgress App.downloadStatus App.interval].
    split; [lia|]. split; [split; [discriminate | lia]|].
    split; (split; [intros _; exact Hn | reflexivity]).
  - remember 10%nat as a eqn:Ha.
    assert (Hz : Z.of_nat a = 10) by (subst a; reflexivity).
    replace n with (a + S (n - S a))%nat by lia.
    rewrite !App_ticks_past by exact Hz.
    cbn [App.downloadProgress App.downloadStatus App.interval].
    split; [lia|]. split; [split; [lia | reflexivity]|].
    split; (split; [discriminate | lia]).
Qed.

Lemma simulated_progress_witness :
  App.downloadProgress
    (App.ticks 11
       (App.startDownload {| App.downloadStatus := App.idle;
                             App.downloadProgress := 0;
                             App.interval := false |}))
  = Z.min (10 * Z.of_nat 11) 100.
Proof.
  apply (simulated_progress
           {| App.downloadStatus := App.idle; App.downloadProgress := 0;
              App.interval := false |} 11).
  reflexivity.
Defined.

(** ** The earlier implementation, in general *)





(** The calls of the cleanup. *)
Section CleanupCalls.














End CleanupCalls.


(** *** One counter for both downloads *)

Lemma await_app (p q : Promise) (w : world) :
  await (p ++ q) w =
  match await p w with
  | (Return _, w1) => await q w1
  | (Throw e, w1) => (Throw e, w1)
  end.
Proof.
  revert w. induction p as [|step p IH]; intros w; [reflexivity|].
  simpl. unfold bind. destruct (step w) as [[[]|e] w1]; [apply IH|reflexivity].
Qed.

Lemma await_silent_progress (st : ProcessingStage)
    (ticks : list (option Q * option string)) (w : world) :
  await (progress_events st None ticks) w = (Return tt, w).
Proof. induction ticks as [|tick ticks IH]; [reflexivity | exact IH]. Qed.

Lemma await_data_events_ext (s : Readable) (chunks : list Z) (w : world) :
  ext (await (data_events s chunks) w).2 = ext w.
Proof.
  destruct (await (data_events s chunks) w) as [r w'] eqn:E. simpl.
  eapply (keeps_await (fun w0 => ext w0 = ext w)); [|exact E|reflexivity].
  now apply keeps_data_events.
Qed.

(** A transcode of the earlier implementation, from start to end: every
    chunk is reported, then the command ends as the backend decides. *)
Lemma await_transcode (s : Readable) (chunks : list Z) (st : ProcessingStage)
    (ticks : list (option Q * option string)) (j : job)
    (outputPath prefix : string) (w : world) :
  rd_onProgress s = Some record_download ->
  exists w',
    await (data_events s chunks ++ progress_events st None ticks
           ++ [settle j outputPath prefix]) w
    = (match br_error (ext_ffmpeg (ext w) j) with
       | Some message => Throw (Error (prefix +:+ message))
       | None => Return tt
       end, w') /\
    sink w' = sink w ++ map EvDownload (stream_records s chunks) /\
    ext w' = ext w.
Proof.
  intros Hcb. rewrite await_app.
  destruct (await_data_events s chunks w Hcb) as [Hr Hs].
  pose proof (await_data_events_ext s chunks w) as He.
  destruct (await (data_events s chunks) w) as [r w1]. simpl in *. subst r.
  rewrite await_app, await_silent_progress. simpl.
  unfold bind, settle. rewrite He.
  destruct (br_error (ext_ffmpeg (ext w) j)), (br_wrote (ext_ffmpeg (ext w) j));
    eexists; (split; [reflexivity|]); simpl; auto.
Qed.

Lemma stream_records_same (s s' : Readable) (chunks : list Z) :
  rd_totalBytes s = rd_totalBytes s' ->
  rd_downloadedBytes s = rd_downloadedBytes s' ->
  stream_records s chunks = stream_records s' chunks.
Proof.
  revert s s'. induction chunks as [|c chunks IH]; intros s s' Ht Hd;
    [reflexivity|].
  simpl. f_equal.
  - unfold progress_of. simpl. now rewrite Ht, Hd.
  - apply IH; simpl; congruence.
Qed.

Lemma stream_records_app (s : Readable) (first second : list Z) :
  stream_records s (first ++ second)
  = stream_records s first
    ++ stream_records
         {| rd_itag := rd_itag s; rd_totalBytes := rd_totalBytes s;
            rd_onProgress := rd_onProgress s;
            rd_downloadedBytes := rd_downloadedBytes s + total_length first |}
         second.
Proof.
  revert s. induction first as [|c first IH]; intros s; simpl.
  - apply stream_records_same; simpl; [reflexivity | lia].
  - f_equal. rewrite IH. f_equal.
    apply stream_records_same; simpl; [reflexivity | lia].
Qed.

Lemma download_events_records (es : list progressEvent)
    (records : list DownloadProgress) :
  download_events (es ++ map EvDownload records)
  = download_events es ++ records.
Proof.
  unfold download_events. rewrite omap_app. f_equal.
  induction records as [|p records IH]; [reflexivity|].
  simpl. f_equal. exact IH.
Qed.

Section SinkKept.

Variable events : list progressEvent.

Lemma kept_cleanupStreams (streams : list (option streamRef)) :
  keeps (fun w => sink w = events) (Ytdl.cleanupStreams streams).
Proof.
  set (kept := fun w : world => sink w = events).
  apply (keeps_try_catch kept); [|intros; apply keeps_ret].
  induction streams as [|[s|] streams IH]; simpl; [apply keeps_ret|..];
    (apply keeps_bind; [|intros; exact IH]);
    [now apply (keeps_log kept (fun _ => True)) | apply keeps_ret].
Qed.

Lemma kept_cleanupTempFiles (files : list string) (directory : string) :
  keeps (fun w => sink w = events)
    (Ytdl.cleanupTempFiles files directory).
Proof.
  set (kept := fun w : world => sink w = events).
  assert (Hex : forall p, keeps kept (fs_existsSync p))
    by (intros; now apply (keeps_existsSync kept (fun _ => True))).
  apply (keeps_try_catch kept); [|intros; apply keeps_ret].
  apply keeps_bind.
  - induction files as [|file files IH]; simpl; [apply keeps_ret|].
    apply keeps_bind; [|intros; exact IH].
    apply keeps_bind; [apply Hex | intros [|]]; [|apply keeps_ret].
    apply keeps_try_catch; [|intros; apply keeps_ret].
    apply keeps_bind; [now apply (keeps_log kept (fun _ => True))|].
    intros _.
    apply keeps_bind; [now apply (keeps_log kept (fun _ => True))|].
    intros _. now apply (keeps_unlink kept (fun _ => True)).
  - intros _. apply keeps_bind; [apply Hex | intros [|]]; [|apply keeps_ret].
    apply keeps_try_catch; [|intros; apply keeps_ret].
    now apply (keeps_rmdir kept (fun _ => True)).
Qed.

(** The [catch] block of [createDownloadStream]. *)
Lemma kept_on_failure {A} (streams : list (option streamRef))
    (files : list string) (directory : string) (error : jsError) :
  keeps (fun w => sink w = events)
    (run try_catch
           (run Ytdl.cleanupStreams streams;
            Ytdl.cleanupTempFiles files directory)
           (fun cleanupError => ret tt);
     @throw A error).
Proof.
  apply keeps_bind; [|intros; apply keeps_throw].
  apply keeps_try_catch; [|intros; apply keeps_ret].
  apply keeps_bind; [apply kept_cleanupStreams|].
  intros _. apply kept_cleanupTempFiles.
Qed.

End SinkKept.
Lemma length_eqb_nonempty {A} (l : list A) :
  l <> [] -> (length l =? 0)%nat = false.
Proof. destruct l; [done | reflexivity]. Qed.

(** X26: [createDownloadStream] of ytdl.ts keeps one counter for both
    downloads.  When the formats are found, the workspace can be made and
    the video transcode does not fail, the progress records that the
    callback receives are exactly those of a single stream that delivers
    the video chunks and then the audio chunks: however the run ends after
    that, every chunk of both downloads has been counted, in order, against
    the one total. *)
Theorem earlier_counter_is_shared (url : string) (options : DownloadOptions)
    (w : world) (formats : list videoFormat) (vf af : videoFormat) :
  validateUrl url = Return true ->
  ext_getInfo (ext w) url = Return formats ->
  filter (fun f => hasVideo f = true) formats <> [] ->
  filter (fun f => hasAudio f = true) formats <> [] ->
  ext_chooseFormat (ext w) (filter (fun f => hasVideo f = true) formats)
    (or_default (quality options) "highest") = Return (Some vf) ->
  ext_chooseFormat (ext w) (filter (fun f => hasAudio f = true) formats)
    "highestaudio" = Return (Some af) ->
  (fs_mkdir_recursive
     (path_join (ext_tmpdir (ext w)) ("ytdownload_" +:+ pretty (now w)))
     w).1 = Return tt ->
  br_error (ext_ffmpeg (ext w) VideoJob) = None ->
  download_events
    (sink (Ytdl.createDownloadStream url options (Some record_download) w).2)
  = download_events (sink w)
    ++ stream_records
         (Ytdl.download vf (Ytdl.add_length (Ytdl.add_length (Some 0) vf) af)
            (Some record_download) 0)
         (br_chunks (ext_ffmpeg (ext w) VideoJob)
          ++ br_chunks (ext_ffmpeg (ext w) AudioJob)).
Proof.
  intros Hurl Hinfo Hv Ha Hcv Hca Hmk Herr.
  destruct (Ytdl.createDownloadStream _ _ _ w) as [r w'] eqn:H. simpl.
  unfold Ytdl.createDownloadStream in H.
  unfold bind at 1, lift in H. rewrite Hurl in H. cbn [negb] in H.
  unfold bind at 1, log, modify in H.
  unfold bind at 1 in H. cbn [ext add_call] in H. rewrite Hinfo in H.
  unfold bind at 1, read in H. unfold bind at 1 in H.
  cbn [ext add_call now] in H.
  cbv zeta in H.
  unfold bind at 1 in H.
  set (root := path_join (ext_tmpdir (ext w))
                 ("ytdownload_" +:+ pretty (now w))) in *.
  destruct (try_catch (fs_mkdir_recursive root) _
              (add_call (CallGetInfo url) w)) as [rm w1] eqn:Em.
  assert (Hm : rm = Return tt /\ ext w1 = ext w /\ sink w1 = sink w).
  { revert Em Hmk. unfold try_catch, fs_mkdir_recursive, bind, log, modify.
    simpl. destruct (fs w !! root) as [[|]|]; simpl; try discriminate.
    - intros [= <- <-]. auto.
    - destruct (bool_decide (root ∈ denied w)); simpl; try discriminate.
      intros [= <- <-]. auto. }
  destruct Hm as (-> & Hext1 & Hsink1).
  rewrite !length_eqb_nonempty in H by assumption.
  unfold bind at 1, try_catch at 1 in H.
  unfold bind at 1 in H. rewrite Hext1, Hcv in H.
  unfold bind at 1 in H. rewrite Hext1, Hca in H.
  unfold ret at 1 in H.
  unfold bind at 1 in H. rewrite Hext1 in H.
  unfold bind at 1 in H.
  (* the video download *)
  unfold try_catch at 1 in H. unfold bind at 1 in H.
  unfold bind at 1, save at 1 in H.
  unfold bind at 1, log, modify in H. unfold bind at 1 in H.
  unfold bind at 1, read in H. unfold ret at 1 in H.
  cbn [ext add_call set_running] in H. rewrite Hext1 in H.
  match type of H with
  | context [await (data_events ?s ?chunks ++ progress_events ?st None ?ticks
                    ++ [settle ?j ?out ?prefix]) ?w0] =>
      destruct (await_transcode s chunks st ticks j out prefix w0 eq_refl)
        as (w2 & E2 & Hsink2 & Hext2)
  end.
  rewrite E2 in H. cbn [ext add_call set_running sink] in *.
  rewrite Hext1, Herr in H. rewrite Hext1 in Hext2. rewrite Hsink1 in Hsink2.
  (* the audio download *)
  unfold bind at 1 in H. rewrite Hext2 in H.
  unfold try_catch at 1 in H. unfold bind at 1 in H.
  unfold bind at 1, save at 1 in H.
  unfold bind at 1, log, modify in H. unfold bind at 1 in H.
  unfold bind at 1, read in H. unfold ret at 1 in H.
  cbn [ext add_call set_running] in H. rewrite Hext2 in H.
  unfold bind at 1 in H.
  match type of H with
  | context [await (data_events ?s ?chunks ++ progress_events ?st None ?ticks
                    ++ [settle ?j ?out ?prefix]) ?w0] =>
      destruct (await_transcode s chunks st ticks j out prefix w0 eq_refl)
        as (w3 & E3 & Hsink3 & Hext3)
  end.
  rewrite E3 in H. cbn [ext add_call set_running sink] in *.
  rewrite Hsink2 in Hsink3. clear E2 E3 Em.
  assert (Hend : sink w' = sink w3).
  { destruct (br_error (ext_ffmpeg (ext w2) AudioJob)) as [message|].
    - eapply (kept_on_failure (sink w3)); [exact H | reflexivity].
    - cbv iota beta in H.
      match type of H with
      | (let (_, _) := ?t in _) = _ => destruct t as [[a|e] w4] eqn:Et
      end.
      + injection H as _ <-.
        eapply (keeps_bind (fun w0 => sink w0 = sink w3));
          [| |exact Et|reflexivity].
        * now apply (keeps_existsSync _ (fun _ => True)).
        * intros [|]; simpl; [|apply keeps_throw].
          apply keeps_bind;
            [now apply (keeps_existsSync _ (fun _ => True))|].
          intros [|]; simpl; [|apply keeps_throw].
          apply keeps_bind; [now intros w0 r0 w0' [= <- <-]|]. intros _.
          apply keeps_bind; [now intros w0 r0 w0' [= <- <-]|]. intros _.
          apply keeps_ret.
      + transitivity (sink w4).
        * eapply (kept_on_failure (sink w4)); [exact H | reflexivity].
        * eapply (keeps_bind (fun w0 => sink w0 = sink w3));
            [| |exact Et|reflexivity].
          -- now apply (keeps_existsSync _ (fun _ => True)).
          -- intros [|]; simpl; [|apply keeps_throw].
             apply keeps_bind;
               [now apply (keeps_existsSync _ (fun _ => True))|].
             intros [|]; simpl; [|apply keeps_throw].
             apply keeps_bind; [now intros w0 r0 w0' [= <- <-]|]. intros _.
             apply keeps_bind; [now intros w0 r0 w0' [= <- <-]|]. intros _.
             apply keeps_ret. }
  rewrite Hend, Hsink3, !download_events_records, <- app_assoc. f_equal.
  rewrite stream_records_app. f_equal.
  apply stream_records_same; simpl; [reflexivity | lia].
Qed.

Lemma earlier_counter_is_shared_witness :
  download_events
    (sink (Ytdl.createDownloadStream sample_url no_options
             (Some record_download) (sample_world ∅ ∅ sample_run)).2)
  = download_events (sink (sample_world ∅ ∅ sample_run))
    ++ stream_records
         (Ytdl.download sample_video_format
            (Ytdl.add_length (Ytdl.add_length (Some 0) sample_video_format)
               sample_audio_format)
            (Some record_download) 0)
         (br_chunks (ext_ffmpeg (ext (sample_world ∅ ∅ sample_run))
                       VideoJob)
          ++ br_chunks (ext_ffmpeg (ext (sample_world ∅ ∅ sample_run))
                          AudioJob)).
Proof.
  apply (earlier_counter_is_shared sample_url no_options
           (sample_world ∅ ∅ sample_run)
           [sample_video_format; sample_audio_format]
           sample_video_format sample_audio_format);
    try reflexivity; discriminate.
Defined.
